(** * The update/scan/delta-compaction workload and the asynchronous client
      initialiser of YugaByte DB

    A shallow embedding of
    - [src/yb/integration-tests/update_scan_delta_compact-test.cc]: the test
      schema, [MakeRow], [WaitForLastBatchAndFlush], [InsertBaseData],
      [UpdateRows] and [ScanRows];
    - [src/yb/client/async_initializer.h]: the [AsyncClientInitialiser]
      class with its inline members [Shutdown] and [get_client_future].

    The client library (session, synchronizer, scanner), the tablet server
    and the out-of-line members of the initialiser are not part of these two
    files; they are modelled from the design document, each such definition
    saying so in its comment. *)

From Stdlib Require Import ZArith List Lia String.
From stdpp Require Import base decidable option list list_numbers sorting
  gmap fin_maps strings.

Local Open Scope string_scope.
Local Open Scope list_scope.
Local Open Scope Z_scope.

(** ** Statuses *)

(** The error taxonomy of the design document (section 7), with [OK], and
    [InvalidArgument] for what a row setter answers when it is given a
    column the row does not have with that type. *)
Inductive Status :=
| OK
| InvalidArgument
| SchemaMismatch
| InvalidPrimaryKey
| ApplyError
| FlushError
| ScanError
| InitializationError
| Cancelled.

#[global] Instance Status_eq_dec : EqDecision Status.
Proof. solve_decision. Defined.

Definition ok (st : Status) : bool := bool_decide (st = OK).

(** ** Schema and rows *)

Inductive DataType := INT64 | STRING.

#[global] Instance DataType_eq_dec : EqDecision DataType.
Proof. solve_decision. Defined.

Record YBColumnSchema := {
  col_name : string;
  col_type : option DataType;
  col_not_null : bool;
  col_primary_key : bool }.

#[global] Instance YBColumnSchema_eq_dec : EqDecision YBColumnSchema.
Proof. solve_decision. Defined.

(** The calls of [YBSchemaBuilder] the constructor of the test chains. *)
Definition AddColumn (name : string) : YBColumnSchema :=
  {| col_name := name; col_type := None;
     col_not_null := false; col_primary_key := false |}.
Definition Type_ (ty : DataType) (c : YBColumnSchema) : YBColumnSchema :=
  {| col_name := col_name c; col_type := Some ty;
     col_not_null := col_not_null c; col_primary_key := col_primary_key c |}.
Definition NotNull (c : YBColumnSchema) : YBColumnSchema :=
  {| col_name := col_name c; col_type := col_type c;
     col_not_null := true; col_primary_key := col_primary_key c |}.
Definition PrimaryKey (c : YBColumnSchema) : YBColumnSchema :=
  {| col_name := col_name c; col_type := col_type c;
     col_not_null := col_not_null c; col_primary_key := true |}.

Abbreviation YBSchema := (list YBColumnSchema).

(** [UpdateScanDeltaCompactionTest::UpdateScanDeltaCompactionTest]. *)
Definition schema_ : YBSchema :=
  [ PrimaryKey (NotNull (Type_ INT64 (AddColumn "key")));
    NotNull (Type_ STRING (AddColumn "string"));
    NotNull (Type_ INT64 (AddColumn "int64")) ].

(** The anonymous enum of column indexes. *)
Definition kKeyCol : nat := 0.
Definition kStrCol : nat := 1.
Definition kInt64Col : nat := 2.

Inductive Value := VInt64 (z : Z) | VString (s : string).

#[global] Instance Value_eq_dec : EqDecision Value.
Proof. solve_decision. Defined.

Definition value_type (v : Value) : DataType :=
  match v with VInt64 _ => INT64 | VString _ => STRING end.

(** A stored row has a value in every column. *)
Abbreviation Row := (list Value).

(** Modelled from the spec: [YBPartialRow] is not in the two files.  A
    mutation carries "a partial or full column value set": one optional cell
    per column of the schema the row was created for.  A setter addresses a
    column by index and stores the value in its cell.  The design document
    does not say what a setter answers when there is no such column or its
    type differs: here it answers an error, [InvalidArgument], and leaves
    the row as it was, a case [MakeRow] does not meet on the table of the
    test. *)
Record YBPartialRow := {
  pr_schema : YBSchema;
  pr_cells : list (option Value) }.

#[global] Instance YBPartialRow_eq_dec : EqDecision YBPartialRow.
Proof. solve_decision. Defined.

Definition empty_row (sch : YBSchema) : YBPartialRow :=
  {| pr_schema := sch; pr_cells := replicate (length sch) None |}.

Definition set_cell (ty : DataType) (idx : nat) (v : Value)
    (row : YBPartialRow) : Status * YBPartialRow :=
  match pr_schema row !! idx with
  | None => (InvalidArgument, row)
  | Some c =>
      if decide (col_type c = Some ty)
      then (OK, {| pr_schema := pr_schema row;
                   pr_cells := <[idx := Some v]> (pr_cells row) |})
      else (InvalidArgument, row)
  end.

Definition SetInt64 (idx : nat) (z : Z) := set_cell INT64 idx (VInt64 z).
Definition SetStringCopy (idx : nat) (s : string) :=
  set_cell STRING idx (VString s).

(** [CHECK_OK] on a pure call: the value, or the fatal status. *)
Inductive Checked (A : Type) := Pass (a : A) | Fatal (st : Status).
Arguments Pass {A} a.
Arguments Fatal {A} st.

Definition check_set (r : Status * YBPartialRow) : Checked YBPartialRow :=
  if ok r.1 then Pass r.2 else Fatal r.1.

Definition check_bind {A B} (c : Checked A) (f : A → Checked B) : Checked B :=
  match c with Pass a => f a | Fatal st => Fatal st end.

(** [UpdateScanDeltaCompactionTest::MakeRow]. *)
Definition MakeRow (key val : Z) (row : YBPartialRow) : Checked YBPartialRow :=
  check_bind (check_set (SetInt64 kKeyCol key row)) (λ row,
  check_bind (check_set (SetStringCopy kStrCol "TODO random string" row)) (λ row,
  check_set (SetInt64 kInt64Col val row))).

(** ** Mutations *)

Inductive OpKind := OpInsert | OpUpdate.

#[global] Instance OpKind_eq_dec : EqDecision OpKind.
Proof. solve_decision. Defined.

(** [KuduInsert] / [KuduUpdate]: the kind and the row being filled in. *)
Record Mutation := {
  op_kind : OpKind;
  op_row : YBPartialRow }.

#[global] Instance Mutation_eq_dec : EqDecision Mutation.
Proof. solve_decision. Defined.

(** [table_->NewInsert()], [table_->NewUpdate()]: an operation on an empty
    row of the table's schema. *)
Definition NewInsert (table_schema : YBSchema) : Mutation :=
  {| op_kind := OpInsert; op_row := empty_row table_schema |}.
Definition NewUpdate (table_schema : YBSchema) : Mutation :=
  {| op_kind := OpUpdate; op_row := empty_row table_schema |}.
Definition with_row (m : Mutation) (row : YBPartialRow) : Mutation :=
  {| op_kind := op_kind m; op_row := row |}.

(** The primary key a partial row addresses: the cell of the first key
    column.  The tables of this workload are keyed by one INT64 column. *)
Fixpoint key_cell (sch : YBSchema) (cells : list (option Value)) : option Z :=
  match sch, cells with
  | c :: sch', cell :: cells' =>
      if col_primary_key c
      then match cell with Some (VInt64 k) => Some k | _ => None end
      else key_cell sch' cells'
  | _, _ => None
  end.

Definition row_key (row : YBPartialRow) : option Z :=
  key_cell (pr_schema row) (pr_cells row).

(** A cell is compatible with a column when it is unset or has its type. *)
Definition cell_fits (c : YBColumnSchema) (cell : option Value) : bool :=
  match cell with
  | None => true
  | Some v => bool_decide (col_type c = Some (value_type v))
  end.

Fixpoint cells_fit (sch : YBSchema) (cells : list (option Value)) : bool :=
  match sch, cells with
  | [], [] => true
  | c :: sch', cell :: cells' => cell_fits c cell && cells_fit sch' cells'
  | _, _ => false
  end.

(** Modelled from the spec: the fail-fast checks of [YBSession::Apply]
    (section 4.2): [SchemaMismatch] "if the mutation's columns are
    incompatible with the target table's schema", [InvalidPrimaryKey] "if the
    key is absent/null". *)
Definition apply_check (table_schema : YBSchema) (m : Mutation) : Status :=
  if negb (bool_decide (pr_schema (op_row m) = table_schema)
           && cells_fit table_schema (pr_cells (op_row m)))
  then SchemaMismatch
  else match row_key (op_row m) with
       | None => InvalidPrimaryKey
       | Some _ => OK
       end.

(** ** The tablet *)

(** Per-column merge of an update into a row: a set cell replaces the
    column's value, an unset cell leaves it. *)
Fixpoint merge_cells (r : Row) (cells : list (option Value)) : Row :=
  match r, cells with
  | v :: r', cell :: cells' => default v cell :: merge_cells r' cells'
  | _, _ => r
  end.

(** All cells of an insert, when every column is set. *)
Definition full_row (cells : list (option Value)) : option Row := mapM id cells.

(** Modelled from the spec: the Delta Unit of section 3, "an immutable,
    ordered collection of (row key, mutation) pairs ... tagged with a
    monotonically increasing sequence number establishing apply order". *)
Record DeltaUnit := {
  du_seq : nat;
  du_muts : list (Z * list (option Value)) }.

(** Modelled from the spec: the single tablet of sections 3 and 4.3-4.4, a
    MemStore of rows not yet durable, the Base Store, and the Delta Units
    recorded against rows of the Base Store. *)
Record Tablet := {
  memstore : gmap Z Row;
  base : gmap Z Row;
  deltas : list DeltaUnit;
  next_seq : nat }.

Definition empty_tablet : Tablet :=
  {| memstore := ∅; base := ∅; deltas := []; next_seq := 0 |}.

Definition apply_pairs (k : Z) (r : Row)
    (muts : list (Z * list (option Value))) : Row :=
  fold_left (λ r km, if decide (km.1 = k) then merge_cells r km.2 else r) muts r.

(** Modelled from the spec: the tie-break of section 4.4.  The units are
    applied to a base row oldest first, so that for each column the unit with
    the higher sequence number wins. *)
Definition apply_deltas (dus : list DeltaUnit) (k : Z) (r : Row) : Row :=
  fold_left (λ r du, apply_pairs k r (du_muts du)) dus r.

Definition merged_base (dus : list DeltaUnit) (b : gmap Z Row) : gmap Z Row :=
  map_imap (λ k r, Some (apply_deltas dus k r)) b.

(** Modelled from the spec: what a Scanner Snapshot pinned now reads
    (section 4.6), the MemStore rows and the Base Store rows merged with the
    outstanding Delta Units. *)
Definition view (t : Tablet) : gmap Z Row :=
  memstore t ∪ merged_base (deltas t) (base t).

(** Modelled from the spec: the server side of one mutation of a batch.  An
    Insert lands in the MemStore and is refused when the key is live; an
    Update of a MemStore row is applied there, an Update of a Base Store row
    is recorded for the Delta Unit of the batch, an Update of no row is
    refused.  [pend] holds the pairs recorded so far for that unit. *)
Definition write_one (t : Tablet) (pend : list (Z * list (option Value)))
    (m : Mutation) : Tablet * list (Z * list (option Value)) * Status :=
  match row_key (op_row m) with
  | None => (t, pend, InvalidPrimaryKey)
  | Some k =>
      match op_kind m with
      | OpInsert =>
          match full_row (pr_cells (op_row m)), memstore t !! k, base t !! k with
          | Some r, None, None =>
              ({| memstore := <[k := r]> (memstore t); base := base t;
                  deltas := deltas t; next_seq := next_seq t |}, pend, OK)
          | _, _, _ => (t, pend, ApplyError)
          end
      | OpUpdate =>
          match memstore t !! k with
          | Some r =>
              ({| memstore := <[k := merge_cells r (pr_cells (op_row m))]> (memstore t);
                  base := base t; deltas := deltas t; next_seq := next_seq t |},
               pend, OK)
          | None =>
              match base t !! k with
              | Some _ => (t, pend ++ [(k, pr_cells (op_row m))], OK)
              | None => (t, pend, ApplyError)
              end
          end
      end
  end.

Fixpoint write_all (t : Tablet) (pend : list (Z * list (option Value)))
    (all_ok : bool) (batch : list Mutation)
    : Tablet * list (Z * list (option Value)) * bool :=
  match batch with
  | [] => (t, pend, all_ok)
  | m :: batch' =>
      let '(t', pend', st) := write_one t pend m in
      write_all t' pend' (all_ok && ok st) batch'
  end.

Definition seal (t : Tablet) (pend : list (Z * list (option Value))) : Tablet :=
  match pend with
  | [] => t
  | _ => {| memstore := memstore t; base := base t;
            deltas := deltas t ++ [{| du_seq := next_seq t; du_muts := pend |}];
            next_seq := S (next_seq t) |}
  end.

(** Modelled from the spec: a flushed batch at the tablet (section 4.2): the
    mutations are applied "in the order they were buffered", a failed one is
    reported without rolling back the others; the aggregate result is
    [ApplyError] when any failed. *)
Definition write_batch (t : Tablet) (batch : list Mutation) : Tablet * Status :=
  let '(t', pend, all_ok) := write_all t [] true batch in
  (seal t' pend, if all_ok then OK else ApplyError).

(** Modelled from the spec: the two operations of the Maintenance Scheduler
    on a tablet.  The MemStore flush makes its rows Base Store rows (4.3);
    compaction folds the [n] oldest Delta Units into the Base Store (4.4). *)
Inductive MaintOp := FlushMemStore | CompactDeltas (n : nat).

Definition flush_memstore (t : Tablet) : Tablet :=
  {| memstore := ∅; base := memstore t ∪ base t;
     deltas := deltas t; next_seq := next_seq t |}.

Definition compact (n : nat) (t : Tablet) : Tablet :=
  {| memstore := memstore t;
     base := merged_base (take n (deltas t)) (base t);
     deltas := drop n (deltas t); next_seq := next_seq t |}.

Definition maintain (op : MaintOp) (t : Tablet) : Tablet :=
  match op with
  | FlushMemStore => flush_memstore t
  | CompactDeltas n => compact n t
  end.

Definition run_maintenance (ops : list MaintOp) (t : Tablet) : Tablet :=
  fold_left (λ t op, maintain op t) ops t.

(** Modelled from the spec: the rows of a scan, "in primary-key order"
    (section 4.6). *)
Definition scan_keys (t : Tablet) : list Z :=
  merge_sort Z.le (elements (dom (view t))).

Definition scan_rows (t : Tablet) : list Row :=
  omap (λ k, view t !! k) (scan_keys t).

(** ** The writer: session, synchronizer, flush executor *)

(** The constant and the flag of the test, and the behaviour of what the test
    runs against: when the flush executor acknowledges flushes, which flushes
    reach the tablet, and what the Maintenance Scheduler does between two
    steps of the writer; for the scanner, what the server answers to the
    request made at a time: nothing when the request fails, or the number of
    rows it has ready, which may be none. *)
Record Config := {
  kSessionBatchSize : Z;
  FLAGS_row_count : Z;
  env_acks : nat → nat;
  env_transport : nat → bool;
  env_maintenance : nat → list MaintOp;
  env_scan : nat → option nat }.

(** Modelled from the spec: the Synchronizer of section 2, a completion
    signal that a callback resolves with a status and on which [Wait] blocks
    until it is resolved; [sync_l] is the count of its latch, 0 when
    resolved.  [Reset] arms it again. *)
Record Synchronizer := {
  sync_s : Status;
  sync_l : nat }.

Definition StatusCB (st : Status) (sy : Synchronizer) : Synchronizer :=
  {| sync_s := st; sync_l := pred (sync_l sy) |}.

(** What an instrumented writer records, newest first. *)
Inductive Event :=
| EvApply (m : Mutation)
| EvFlushAsync (id : nat) (batch : list Mutation)
| EvComplete (id : nat) (st : Status)
| EvRun (st : Status)
| EvWait (awaited : nat) (st : Status)
| EvReset.

(** The state a writer thread runs in.  [w_pending], [w_inflight] and
    [w_issued] are the Write Session (queued mutations, flushes whose
    callback has not run yet, number of flushes issued); [w_sync] is
    [last_s]; [w_stop] is the number of reads of [stop_latch->count()] that
    still see 1 before the main thread counts the latch down. *)
Record World := {
  w_pending : list Mutation;
  w_inflight : list (nat * list Mutation);
  w_issued : nat;
  w_sync : Synchronizer;
  w_tablet : Tablet;
  w_stop : nat;
  w_clock : nat;
  w_log : list Event }.

Definition set_pending (x : list Mutation) (w : World) : World :=
  {| w_pending := x; w_inflight := w_inflight w; w_issued := w_issued w;
     w_sync := w_sync w; w_tablet := w_tablet w; w_stop := w_stop w;
     w_clock := w_clock w; w_log := w_log w |}.
Definition set_inflight (x : list (nat * list Mutation)) (w : World) : World :=
  {| w_pending := w_pending w; w_inflight := x; w_issued := w_issued w;
     w_sync := w_sync w; w_tablet := w_tablet w; w_stop := w_stop w;
     w_clock := w_clock w; w_log := w_log w |}.
Definition set_issued (x : nat) (w : World) : World :=
  {| w_pending := w_pending w; w_inflight := w_inflight w; w_issued := x;
     w_sync := w_sync w; w_tablet := w_tablet w; w_stop := w_stop w;
     w_clock := w_clock w; w_log := w_log w |}.
Definition set_sync (x : Synchronizer) (w : World) : World :=
  {| w_pending := w_pending w; w_inflight := w_inflight w; w_issued := w_issued w;
     w_sync := x; w_tablet := w_tablet w; w_stop := w_stop w;
     w_clock := w_clock w; w_log := w_log w |}.
Definition set_tablet (x : Tablet) (w : World) : World :=
  {| w_pending := w_pending w; w_inflight := w_inflight w; w_issued := w_issued w;
     w_sync := w_sync w; w_tablet := x; w_stop := w_stop w;
     w_clock := w_clock w; w_log := w_log w |}.
Definition set_stop (x : nat) (w : World) : World :=
  {| w_pending := w_pending w; w_inflight := w_inflight w; w_issued := w_issued w;
     w_sync := w_sync w; w_tablet := w_tablet w; w_stop := x;
     w_clock := w_clock w; w_log := w_log w |}.
Definition set_clock (x : nat) (w : World) : World :=
  {| w_pending := w_pending w; w_inflight := w_inflight w; w_issued := w_issued w;
     w_sync := w_sync w; w_tablet := w_tablet w; w_stop := w_stop w;
     w_clock := x; w_log := w_log w |}.
Definition record (e : Event) (w : World) : World :=
  {| w_pending := w_pending w; w_inflight := w_inflight w; w_issued := w_issued w;
     w_sync := w_sync w; w_tablet := w_tablet w; w_stop := w_stop w;
     w_clock := w_clock w; w_log := e :: w_log w |}.

(** Modelled from the spec: the flush executor acknowledging the oldest
    outstanding flush.  The batch is applied at the tablet if it got there,
    and the callback given to [FlushAsync], which is [last_s_cb], runs once
    with the aggregate result; a flush lost in transport gives [FlushError]. *)
Definition serve (cfg : Config) (id : nat) (batch : list Mutation)
    (t : Tablet) : Tablet * Status :=
  if env_transport cfg id then write_batch t batch else (t, FlushError).

Definition deliver (cfg : Config) (w : World) : World :=
  match w_inflight w with
  | [] => w
  | (id, batch) :: rest =>
      let r := serve cfg id batch (w_tablet w) in
      record (EvComplete id r.2)
        (set_sync (StatusCB r.2 (w_sync w))
          (set_tablet r.1 (set_inflight rest w)))
  end.

Fixpoint deliver_n (cfg : Config) (n : nat) (w : World) : World :=
  match n with
  | O => w
  | S n' => deliver_n cfg n' (deliver cfg w)
  end.

(** What happens around the writer before its next step: the Maintenance
    Scheduler runs the operations it chose, and the flush executor
    acknowledges as many outstanding flushes as it got answers for. *)
Definition tick (cfg : Config) (w : World) : World :=
  let t := run_maintenance (env_maintenance cfg (w_clock w)) (w_tablet w) in
  deliver_n cfg (env_acks cfg (w_clock w))
    (set_clock (S (w_clock w)) (set_tablet t w)).

(** How a run of writer code ends: it returns, it stops on a failed
    [ASSERT_OK] / [CHECK_OK], or it blocks for ever. *)
Inductive Outcome (A : Type) :=
| Ret (a : A) (w : World)
| Fail (st : Status) (w : World)
| Hang (w : World).
Arguments Ret {A} a w.
Arguments Fail {A} st w.
Arguments Hang {A} w.

Definition final {A} (o : Outcome A) : World :=
  match o with Ret _ w => w | Fail _ w => w | Hang w => w end.

Definition M (A : Type) : Type := World → Outcome A.

#[global] Instance M_ret : MRet M := λ A a w, Ret a w.
#[global] Instance M_bind : MBind M := λ A B f c w,
  match c w with
  | Ret a w' => f a w'
  | Fail st w' => Fail st w'
  | Hang w' => Hang w'
  end.

Definition fail {A} (st : Status) : M A := λ w, Fail st w.
Definition hang {A} : M A := λ w, Hang w.

(** [ASSERT_OK(e)] and [CHECK_OK(e)]: go on when [e] is [OK], stop the
    function otherwise. *)
Definition ASSERT_OK (c : M Status) : M unit :=
  st ← c; if ok st then mret () else fail st.
Definition CHECK_OK (c : M Status) : M unit :=
  st ← c; if ok st then mret () else fail st.
Definition CHECKED {A} (c : Checked A) : M A :=
  match c with Pass a => mret a | Fatal st => fail st end.

(** [CreateSession()]: a new session in manual-flush mode, with nothing
    queued and nothing outstanding.  Its instrumentation starts empty.  The
    timeout of 30 seconds has no counterpart here: a flush that fails, by
    timeout or otherwise, is one that [env_transport] does not let through. *)
Definition CreateSession : M unit := λ w,
  Ret () {| w_pending := []; w_inflight := []; w_issued := 0;
            w_sync := w_sync w; w_tablet := w_tablet w; w_stop := w_stop w;
            w_clock := w_clock w; w_log := [] |}.

(** [Synchronizer last_s;] *)
Definition NewSynchronizer : M unit := λ w,
  Ret () (set_sync {| sync_s := OK; sync_l := 1 |} w).

(** [last_s_cb.Run(st)]: the member callback runs [Synchronizer::StatusCB]. *)
Definition Run (cfg : Config) (st : Status) : M unit := λ w,
  let w := tick cfg w in
  Ret () (record (EvRun st) (set_sync (StatusCB st (w_sync w)) w)).

(** Modelled from the spec: [session->Apply(op)] in manual-flush mode
    (section 4.2): the fail-fast checks, then the mutation is queued; no
    flush is triggered. *)
Definition Apply (cfg : Config) (m : Mutation) : M Status := λ w,
  let w := tick cfg w in
  let st := apply_check schema_ m in
  if ok st
  then Ret OK (record (EvApply m) (set_pending (w_pending w ++ [m]) w))
  else Ret st w.

(** Modelled from the spec: [session->FlushAsync(cb)] "takes ownership of all
    currently queued mutations, transmits them as one batch". *)
Definition FlushAsync (cfg : Config) : M unit := λ w,
  let w := tick cfg w in
  Ret () (record (EvFlushAsync (w_issued w) (w_pending w))
           (set_issued (S (w_issued w))
             (set_inflight (w_inflight w ++ [(w_issued w, w_pending w)])
               (set_pending [] w)))).

(** Modelled from the spec: [last_s->Wait()].  A resolved signal is returned
    at once; otherwise the thread sleeps until the flush executor has run the
    callback, and with no flush outstanding nothing ever will. *)
Fixpoint await (cfg : Config) (fuel awaited : nat) (w : World) : Outcome Status :=
  if decide (sync_l (w_sync w) = 0%nat)
  then Ret (sync_s (w_sync w)) (record (EvWait awaited (sync_s (w_sync w))) w)
  else match fuel with
       | O => Hang w
       | S fuel' =>
           match w_inflight w with
           | [] => Hang w
           | _ => await cfg fuel' (S awaited) (deliver cfg w)
           end
       end.

Definition Wait (cfg : Config) : M Status := λ w,
  let w := tick cfg w in
  await cfg (length (w_inflight w)) 0 w.

(** [last_s->Reset()] *)
Definition Reset (cfg : Config) : M unit := λ w,
  let w := tick cfg w in
  Ret () (record EvReset
           (set_sync {| sync_s := sync_s (w_sync w); sync_l := 1 |} w)).

(** [stop_latch->count() > 0] *)
Definition stop_latch_running : M bool := λ w,
  match w_stop w with
  | O => Ret false w
  | S b => Ret true (set_stop b w)
  end.

(** ** The test *)

(** [UpdateScanDeltaCompactionTest::WaitForLastBatchAndFlush]; [last_s],
    [last_s_cb] and [session] are the ones of the running writer. *)
Definition WaitForLastBatchAndFlush (cfg : Config) (key : Z) : M Status :=
  if decide (Z.rem key (kSessionBatchSize cfg) = 0) then
    st ← Wait cfg;
    if ok st then
      Reset cfg;;
      FlushAsync cfg;;
      mret OK
    else mret st
  else mret OK.

(** [for (int64_t key = from; key < from + count; key++) body(key)] *)
Fixpoint for_keys (body : Z → M unit) (key : Z) (count : nat) : M unit :=
  match count with
  | O => mret ()
  | S count' => body key;; for_keys body (key + 1) count'
  end.

(** [UpdateScanDeltaCompactionTest::InsertBaseData] *)
Definition InsertBaseData (cfg : Config) : M unit :=
  CreateSession;;
  NewSynchronizer;;
  Run cfg OK;;
  for_keys (λ key,
      let insert := NewInsert schema_ in
      row ← CHECKED (MakeRow key 0 (op_row insert));
      ASSERT_OK (Apply cfg (with_row insert row));;
      ASSERT_OK (WaitForLastBatchAndFlush cfg key))
    0 (Z.to_nat (FLAGS_row_count cfg));;
  ASSERT_OK (WaitForLastBatchAndFlush cfg (kSessionBatchSize cfg));;
  ASSERT_OK (Wait cfg).

(** The inner loop of [UpdateRows]:
    [for (key = ..; key < FLAGS_row_count && stop_latch->count() > 0; key++)];
    [count] is the number of keys below [FLAGS_row_count] still to come. *)
Fixpoint update_pass (cfg : Config) (iteration key : Z) (count : nat) : M unit :=
  match count with
  | O => mret ()
  | S count' =>
      running ← stop_latch_running;
      if running : bool then
        let update := NewUpdate schema_ in
        row ← CHECKED (MakeRow key iteration (op_row update));
        CHECK_OK (Apply cfg (with_row update row));;
        CHECK_OK (WaitForLastBatchAndFlush cfg key);;
        update_pass cfg iteration (key + 1) count'
      else mret ()
  end.

(** The outer loop of [UpdateRows],
    [for (iteration = ..; stop_latch->count() > 0; iteration++)].  Every pass
    starts on a read of the latch that sees 1, so [fuel], the number of such
    reads left when the loop is entered, is never used up. *)
Fixpoint update_loop (cfg : Config) (fuel : nat) (iteration : Z) : M unit :=
  running ← stop_latch_running;
  if running : bool then
    match fuel with
    | O => hang
    | S fuel' =>
        Run cfg OK;;
        update_pass cfg iteration 0 (Z.to_nat (FLAGS_row_count cfg));;
        CHECK_OK (WaitForLastBatchAndFlush cfg (kSessionBatchSize cfg));;
        CHECK_OK (Wait cfg);;
        Reset cfg;;
        update_loop cfg fuel' (iteration + 1)
    end
  else mret ().

(** [UpdateScanDeltaCompactionTest::UpdateRows] *)
Definition UpdateRows (cfg : Config) : M unit := λ w,
  (CreateSession;;
   NewSynchronizer;;
   update_loop cfg (w_stop w) 1) w.

(** ** The scanner *)

(** Modelled from the spec: the Scanner of section 4.6, which is not in the
    two files.  A scanner is new, open on the snapshot that [Open] pinned,
    or broken by a [ScanError], after which "caller must reopen a new
    Scanner".  [sc_rows] are the rows of the snapshot not fetched yet, "a
    lazy, finite, non-restartable sequence": they are consumed and never
    refilled, and [Open] on a scanner that is not new pins nothing and
    answers [ScanError].  A fetch "returns whatever rows are ready": as many
    of the next rows as the server has, none when it has none.  A request
    lost in transport gives [ScanError].  A request takes time, during
    which the flush executor and the Maintenance Scheduler go on as they do
    around the writer; the rows pinned are not affected.  [sc_fetches]
    counts the fetches answered and [sc_returned] collects what was handed
    out. *)
Inductive ScanState := ScanNew | ScanOpen | ScanBroken.

#[global] Instance ScanState_eq_dec : EqDecision ScanState.
Proof. solve_decision. Defined.

Record YBScanner := {
  sc_state : ScanState;
  sc_rows : list Row;
  sc_fetches : nat;
  sc_returned : list Row }.

Definition NewScanner : YBScanner :=
  {| sc_state := ScanNew; sc_rows := []; sc_fetches := 0; sc_returned := [] |}.

Definition broken (sc : YBScanner) : YBScanner :=
  {| sc_state := ScanBroken; sc_rows := sc_rows sc;
     sc_fetches := sc_fetches sc; sc_returned := sc_returned sc |}.

Definition Open (cfg : Config) (sc : YBScanner) : M (Status * YBScanner) := λ w,
  let answer := env_scan cfg (w_clock w) in
  let w := tick cfg w in
  match sc_state sc, answer with
  | ScanNew, Some _ =>
      Ret (OK, {| sc_state := ScanOpen; sc_rows := scan_rows (w_tablet w);
                  sc_fetches := 0; sc_returned := [] |}) w
  | ScanNew, None => Ret (ScanError, broken sc) w
  | _, _ => Ret (ScanError, sc) w
  end.

Definition HasMoreRows (sc : YBScanner) : bool :=
  bool_decide (sc_state sc = ScanOpen) && bool_decide (sc_rows sc ≠ []).

Definition NextBatch (cfg : Config) (sc : YBScanner)
    : M (Status * YBScanner * list Row) := λ w,
  let answer := env_scan cfg (w_clock w) in
  let w := tick cfg w in
  match sc_state sc, answer with
  | ScanOpen, Some n =>
      let batch := take n (sc_rows sc) in
      Ret (OK, {| sc_state := ScanOpen; sc_rows := drop n (sc_rows sc);
                  sc_fetches := S (sc_fetches sc);
                  sc_returned := sc_returned sc ++ batch |}, batch) w
  | ScanOpen, None => Ret (ScanError, broken sc, []) w
  | _, _ => Ret (ScanError, sc, []) w
  end.

(** [while (scanner.HasMoreRows()) CHECK_OK(scanner.NextBatch(&rows));]
    The loop has no bound of its own: [fuel] is the number of fetches it is
    followed for, and a loop that needs more is a [Hang]. *)
Fixpoint drain (cfg : Config) (fuel : nat) (sc : YBScanner) (rows : list Row)
    : M (YBScanner * list Row) :=
  if HasMoreRows sc then
    match fuel with
    | O => hang
    | S fuel' =>
        r ← NextBatch cfg sc;
        CHECK_OK (mret r.1.1);;
        drain cfg fuel' r.1.2 r.2
    end
  else mret (sc, rows).

(** The outer loop makes one scan for each read of the stop latch that sees
    it up, [scans] at most. *)
Fixpoint scan_loop (cfg : Config) (fuel scans : nat) : M unit :=
  running ← stop_latch_running;
  if running : bool then
    match scans with
    | O => hang
    | S scans' =>
        let scanner := NewScanner in
        r ← Open cfg scanner;
        CHECK_OK (mret r.1);;
        drain cfg fuel r.2 [];;
        scan_loop cfg fuel scans'
    end
  else mret ().

(** [UpdateScanDeltaCompactionTest::ScanRows], each scan followed for [fuel]
    fetches. *)
Definition ScanRows (cfg : Config) (fuel : nat) : M unit := λ w,
  scan_loop cfg fuel (w_stop w) w.

(** ** The asynchronous client initialiser *)

Module AsyncInit.

(** A constructed client, by identity. *)
Definition YBClientPtr := nat.

(** Modelled from the spec: the Shared Client Handle of section 3, the shared
    state behind the promise and its futures: "pending", "ready" with a
    handle, or "failed" with an error. *)
Inductive Cell :=
| Pending
| Ready (c : YBClientPtr)
| Failed (e : Status).

#[global] Instance Cell_eq_dec : EqDecision Cell.
Proof. solve_decision. Defined.

Definition terminal (c : Cell) : bool :=
  match c with Pending => false | _ => true end.

(** The arguments of the constructor, kept by [client_builder_]. *)
Record YBClientBuilder := {
  client_name : string;
  num_reactors : nat;
  timeout_seconds : nat;
  tserver_uuid : string }.

(** The data members of [AsyncClientInitialiser].  The promise and the
    shared future are handles on a shared state, given by its address. *)
Record AsyncClientInitialiser := {
  client_builder_ : YBClientBuilder;
  client_promise_ : nat;
  client_future_ : nat;
  init_client_thread_ : option nat;
  stopping_ : bool }.

(** [void Shutdown() { stopping_ = true; }] *)
Definition Shutdown (a : AsyncClientInitialiser) : AsyncClientInitialiser :=
  {| client_builder_ := client_builder_ a;
     client_promise_ := client_promise_ a;
     client_future_ := client_future_ a;
     init_client_thread_ := init_client_thread_ a;
     stopping_ := true |}.

(** [get_client_future() const { return client_future_; }] *)
Definition get_client_future (a : AsyncClientInitialiser) : nat :=
  client_future_ a.

(** Where the background task is in its retry loop. *)
Inductive TaskPc := AtCheck | Building | Exited.

#[global] Instance TaskPc_eq_dec : EqDecision TaskPc.
Proof. solve_decision. Defined.

(** How one construction attempt ends. *)
Inductive BuildOutcome :=
| BuildOk (c : YBClientPtr)
| BuildTransient
| BuildFatal.

(** The initialiser with the threads around it: the shared states by
    address, the background task, the threads blocked in [client()], and
    what an observer has counted: background tasks started, construction
    attempts made, resolutions of a promise, and the answers [client()] and
    [get_client_future()] gave to which caller. *)
Record Sys := {
  obj : AsyncClientInitialiser;
  heap : gmap nat Cell;
  task : TaskPc;
  waiters : list nat;
  spawned : nat;
  attempts : nat;
  resolutions : nat;
  client_answers : list (nat * Cell);
  future_answers : list (nat * nat) }.

Definition cell (s : Sys) : Cell :=
  default Pending (heap s !! client_promise_ (obj s)).

(** Modelled from the spec: the constructor, [start(config)] of section 4.1:
    the shared future is taken from the promise, and "exactly one background
    task" is spawned. *)
Definition start (b : YBClientBuilder) : Sys :=
  {| obj := {| client_builder_ := b; client_promise_ := 0;
               client_future_ := 0; init_client_thread_ := Some 0%nat;
               stopping_ := false |};
     heap := {[ 0%nat := Pending ]};
     task := AtCheck; waiters := []; spawned := 1; attempts := 0;
     resolutions := 0; client_answers := []; future_answers := [] |}.

(** Fulfilling the promise: the shared state takes its value if it is
    pending. *)
Definition resolve (v : Cell) (pc : TaskPc) (s : Sys) : Sys :=
  match cell s with
  | Pending =>
      {| obj := obj s; heap := <[client_promise_ (obj s) := v]> (heap s);
         task := pc; waiters := waiters s; spawned := spawned s;
         attempts := attempts s; resolutions := S (resolutions s);
         client_answers := client_answers s;
         future_answers := future_answers s |}
  | _ =>
      {| obj := obj s; heap := heap s;
         task := pc; waiters := waiters s; spawned := spawned s;
         attempts := attempts s; resolutions := resolutions s;
         client_answers := client_answers s;
         future_answers := future_answers s |}
  end.

Definition goto (pc : TaskPc) (more_attempts : nat) (s : Sys) : Sys :=
  {| obj := obj s; heap := heap s; task := pc; waiters := waiters s;
     spawned := spawned s;
     attempts := more_attempts + attempts s; resolutions := resolutions s;
     client_answers := client_answers s;
     future_answers := future_answers s |}.

(** Modelled from the spec: one step of [InitClient], the retry loop of
    section 4.1.  At its check point the loop exits when the cancellation
    flag is set, "resolving the future with a Cancelled error"; otherwise it
    makes an attempt, which ends the loop on success or on a non-retryable
    error and leads back to the check point on a transient failure. *)
Definition InitClient_step (o : BuildOutcome) (s : Sys) : option Sys :=
  match task s with
  | AtCheck =>
      if stopping_ (obj s) then Some (resolve (Failed Cancelled) Exited s)
      else Some (goto Building 1 s)
  | Building =>
      match o with
      | BuildOk c => Some (resolve (Ready c) Exited s)
      | BuildTransient => Some (goto AtCheck 0 s)
      | BuildFatal => Some (resolve (Failed InitializationError) Exited s)
      end
  | Exited => None
  end.

(** Modelled from the spec: [client()] "blocks the calling thread until
    resolution": the caller starts to wait, and returns with what the shared
    future holds once that is resolved.  The header declares it [const], and
    [init_client_thread_] is not [mutable]: a call leaves the members as
    they are. *)
Definition client_call (caller : nat) (s : Sys) : Sys :=
  {| obj := obj s; heap := heap s; task := task s;
     waiters := caller :: waiters s;
     spawned := spawned s; attempts := attempts s;
     resolutions := resolutions s;
     client_answers := client_answers s;
     future_answers := future_answers s |}.

Definition client_return (caller : nat) (s : Sys) : option Sys :=
  if bool_decide (caller ∈ waiters s) then
    match default Pending (heap s !! client_future_ (obj s)) with
    | Pending => None
    | v =>
        Some {| obj := obj s; heap := heap s; task := task s;
                waiters := filter (λ c, c ≠ caller) (waiters s);
                spawned := spawned s; attempts := attempts s;
                resolutions := resolutions s;
                client_answers := (caller, v) :: client_answers s;
                future_answers := future_answers s |}
    end
  else None.

Definition get_client_future_step (caller : nat) (s : Sys) : Sys :=
  {| obj := obj s; heap := heap s; task := task s; waiters := waiters s;
     spawned := spawned s; attempts := attempts s;
     resolutions := resolutions s;
     client_answers := client_answers s;
     future_answers := (caller, get_client_future (obj s)) :: future_answers s |}.

Definition Shutdown_step (s : Sys) : Sys :=
  {| obj := Shutdown (obj s); heap := heap s; task := task s;
     waiters := waiters s;
     spawned := spawned s; attempts := attempts s;
     resolutions := resolutions s;
     client_answers := client_answers s;
     future_answers := future_answers s |}.

(** What can happen next: the background task moves, or some thread calls a
    member function, or a call of [client()] returns. *)
Inductive Label :=
| LTask (o : BuildOutcome)
| LCall (caller : nat)
| LReturn (caller : nat)
| LGetFuture (caller : nat)
| LShutdown.

(** One step of the interleaving; [None] when the thread is blocked or has
    ended. *)
Definition step (l : Label) (s : Sys) : option Sys :=
  match l with
  | LTask o => InitClient_step o s
  | LCall caller => Some (client_call caller s)
  | LReturn caller => client_return caller s
  | LGetFuture caller => Some (get_client_future_step caller s)
  | LShutdown => Some (Shutdown_step s)
  end.

Fixpoint run (ls : list Label) (s : Sys) : option Sys :=
  match ls with
  | [] => Some s
  | l :: ls' => match step l s with Some s' => run ls' s' | None => None end
  end.

Definition reachable (b : YBClientBuilder) (s : Sys) : Prop :=
  ∃ ls, run ls (start b) = Some s.

(** The steps of the background task and of the owner; the others are
    those of the callers of [client()] and [get_client_future()]. *)
Definition background (l : Label) : bool :=
  match l with LTask _ | LShutdown => true | _ => false end.

(** Two states of the system that differ in nothing but the callers and
    what they were answered. *)
Definition same_task (s t : Sys) : Prop :=
  obj s = obj t ∧ heap s = heap t ∧ task s = task t ∧
  spawned s = spawned t ∧ attempts s = attempts t ∧
  resolutions s = resolutions t.

(** What holds of every reachable state. *)
Record wf (s : Sys) : Prop := {
  wf_spawned : spawned s = 1%nat;
  wf_thread : init_client_thread_ (obj s) = Some 0%nat;
  wf_promise : client_promise_ (obj s) = 0%nat;
  wf_future : client_future_ (obj s) = 0%nat;
  wf_once : resolutions s = if terminal (cell s) then 1%nat else 0%nat;
  wf_running : task s ≠ Exited → cell s = Pending;
  wf_exited : task s = Exited → terminal (cell s) = true;
  wf_answers : ∀ cv, cv ∈ client_answers s → cv.2 = cell s ∧ terminal (cell s) = true;
  wf_futures : ∀ cf, cf ∈ future_answers s → cf.2 = 0%nat }.

End AsyncInit.

(** ** Reading the instrumentation *)

(** Who resolved the synchronizer: the writer itself through
    [last_s_cb.Run], or the flush executor completing a flush. *)
Inductive Source := ByRun | ByFlush (id : nat).

#[global] Instance Source_eq_dec : EqDecision Source.
Proof. solve_decision. Defined.

(** The resolution the signal holds after the history [h] (newest event
    first), if it was not reset since. *)
Fixpoint resolver (h : list Event) : option Source :=
  match h with
  | [] => None
  | EvRun _ :: _ => Some ByRun
  | EvComplete id _ :: _ => Some (ByFlush id)
  | EvReset :: _ => None
  | _ :: t => resolver t
  end.

(** The resolutions the [Wait]s of the history returned on. *)
Fixpoint observed (h : list Event) : list Source :=
  match h with
  | [] => []
  | EvWait _ _ :: t =>
      match resolver t with
      | Some src => src :: observed t
      | None => observed t
      end
  | _ :: t => observed t
  end.

(** How many [Wait]s observed the completion of flush [i]. *)
Definition seen (i : nat) (h : list Event) : nat :=
  length (filter (λ src, src = ByFlush i) (observed h)).

(** Flushes issued and not completed. *)
Fixpoint outstanding (h : list Event) : nat :=
  match h with
  | [] => 0
  | EvFlushAsync _ _ :: t => S (outstanding t)
  | EvComplete _ _ :: t => pred (outstanding t)
  | _ :: t => outstanding t
  end.

(** The batches flushed, their identifiers, the mutations applied and the
    results of the [Wait]s, all oldest first. *)
Fixpoint flushed (h : list Event) : list (list Mutation) :=
  match h with
  | [] => []
  | EvFlushAsync _ b :: t => flushed t ++ [b]
  | _ :: t => flushed t
  end.

Fixpoint flush_ids (h : list Event) : list nat :=
  match h with
  | [] => []
  | EvFlushAsync id _ :: t => flush_ids t ++ [id]
  | _ :: t => flush_ids t
  end.

Fixpoint applied (h : list Event) : list Mutation :=
  match h with
  | [] => []
  | EvApply m :: t => applied t ++ [m]
  | _ :: t => applied t
  end.

Fixpoint waits (h : list Event) : list (nat * Status) :=
  match h with
  | [] => []
  | EvWait k st :: t => waits t ++ [(k, st)]
  | _ :: t => waits t
  end.

(** At every moment of the history at most one flush is outstanding. *)
Definition one_outstanding (h : list Event) : Prop :=
  ∀ h1 h2, h = h1 ++ h2 → (outstanding h2 ≤ 1)%nat.

(** Flushes are numbered in the order they are issued, and when flush
    [N + 1] is issued a [Wait] has already returned on the completion of
    flush [N]. *)
Definition waited_before_next (h : list Event) : Prop :=
  ∀ h1 N b h2, h = h1 ++ EvFlushAsync (S N) b :: h2 → ByFlush N ∈ observed h2.

Definition numbered (h : list Event) : Prop :=
  flush_ids h = seq 0 (length (flushed h)).

(** ** Invariants of a writer *)

(** [calm] and [orderly] are [one_outstanding] and [waited_before_next]
    spelled by recursion over the history. *)
Fixpoint calm (h : list Event) : Prop :=
  match h with
  | [] => True
  | e :: t => (outstanding (e :: t) ≤ 1)%nat ∧ calm t
  end.

Fixpoint orderly (h : list Event) : Prop :=
  match h with
  | [] => True
  | e :: t =>
      match e with
      | EvFlushAsync (S N) _ => ByFlush N ∈ observed t
      | _ => True
      end ∧ orderly t
  end.

(** Every flush issued was observed by exactly one [Wait], but for [u]. *)
Definition all_seen_but (u : option nat) (issued : nat) (h : list Event) : Prop :=
  ∀ i, seen i h = if decide ((i < issued)%nat ∧ u ≠ Some i) then 1%nat else 0%nat.

(** Where a writer is in the protocol: the signal is armed and no flush is
    outstanding; the signal is resolved and no [Wait] returned on it yet; a
    [Wait] returned; a flush is outstanding. *)
Inductive Phase := Idle | Ready | Waited | Out.

Definition phase_ok (ph : Phase) (u : option nat) (w : World) : Prop :=
  match ph with
  | Idle =>
      w_inflight w = [] ∧ sync_l (w_sync w) = 1%nat ∧
      resolver (w_log w) = None ∧ u = None
  | Ready =>
      w_inflight w = [] ∧ sync_l (w_sync w) = 0%nat ∧
      match u with
      | None => resolver (w_log w) = Some ByRun
      | Some j => resolver (w_log w) = Some (ByFlush j) ∧ S j = w_issued w
      end
  | Waited =>
      w_inflight w = [] ∧ sync_l (w_sync w) = 0%nat ∧ u = None
  | Out =>
      ∃ j b, w_inflight w = [(j, b)] ∧ sync_l (w_sync w) = 1%nat ∧
        resolver (w_log w) = None ∧ u = Some j ∧ S j = w_issued w
  end.

Record TInv (ph : Phase) (w : World) : Prop := {
  ti_calm : calm (w_log w);
  ti_orderly : orderly (w_log w);
  ti_ids : flush_ids (w_log w) = seq 0 (w_issued w);
  ti_count : length (flushed (w_log w)) = w_issued w;
  ti_books : applied (w_log w) = concat (flushed (w_log w)) ++ w_pending w;
  ti_out : outstanding (w_log w) = length (w_inflight w);
  ti_phase : ∃ u, all_seen_but u (w_issued w) (w_log w) ∧ phase_ok ph u w }.

Definition writable (ph : Phase) : Prop := ph = Ready ∨ ph = Out.

(** What the flush executor may have done to the phase meanwhile. *)
Definition after (ph ph' : Phase) : Prop := ph' = ph ∨ (ph = Out ∧ ph' = Ready).

(** The books of a writer: what is queued, what was flushed and applied, how
    many flushes were issued, and what is left of the stop latch. *)
Record Books := {
  bk_pending : list Mutation;
  bk_flushed : list (list Mutation);
  bk_applied : list Mutation;
  bk_issued : nat;
  bk_stop : nat }.

Definition books (w : World) : Books :=
  {| bk_pending := w_pending w; bk_flushed := flushed (w_log w);
     bk_applied := applied (w_log w); bk_issued := w_issued w;
     bk_stop := w_stop w |}.

(** ** What a tablet means *)

(** A write seen on the rows a scan would read. *)
Definition view_write (m : Mutation) (v : gmap Z Row) : gmap Z Row * Status :=
  match row_key (op_row m) with
  | None => (v, InvalidPrimaryKey)
  | Some k =>
      match op_kind m with
      | OpInsert =>
          match full_row (pr_cells (op_row m)), v !! k with
          | Some r, None => (<[k := r]> v, OK)
          | _, _ => (v, ApplyError)
          end
      | OpUpdate =>
          match v !! k with
          | Some r => (<[k := merge_cells r (pr_cells (op_row m))]> v, OK)
          | None => (v, ApplyError)
          end
      end
  end.

Fixpoint view_writes (ms : list Mutation) (v : gmap Z Row) (all_ok : bool)
    : gmap Z Row * bool :=
  match ms with
  | [] => (v, all_ok)
  | m :: ms' =>
      view_writes ms' (view_write m v).1 (all_ok && ok (view_write m v).2)
  end.

Definition unit_of (pend : list (Z * list (option Value))) : DeltaUnit :=
  {| du_seq := 0; du_muts := pend |}.

(** The rows read when the pairs in [pend] count as the newest unit. *)
Definition view_with (t : Tablet) (pend : list (Z * list (option Value)))
    : gmap Z Row :=
  memstore t ∪ merged_base (deltas t ++ [unit_of pend]) (base t).

(** No key lives in both stores, deltas are recorded against Base Store
    rows only, and sequence numbers grow along the list of units. *)
Record tablet_inv (t : Tablet) : Prop := {
  tb_disjoint : ∀ k, memstore t !! k = None ∨ base t !! k = None;
  tb_deltas : ∀ du kc, du ∈ deltas t → kc ∈ du_muts du → is_Some (base t !! kc.1);
  tb_sorted : StronglySorted lt (du_seq <$> deltas t);
  tb_next : Forall (λ du, (du_seq du < next_seq t)%nat) (deltas t) }.

Definition pend_inv (t : Tablet) (pend : list (Z * list (option Value))) : Prop :=
  ∀ kc, kc ∈ pend → is_Some (base t !! kc.1).

(** ** What a writer has in the pipeline *)

(** The mutations accepted and not yet at the tablet, oldest first. *)
Definition queued (w : World) : list Mutation :=
  concat (snd <$> w_inflight w) ++ w_pending w.

(** The rows a scan will read once the pipeline has drained. *)
Definition lview (w : World) : gmap Z Row :=
  (view_writes (queued w) (view (w_tablet w)) true).1.

(** The tablet is well formed, the signal holds no error, and nothing in
    the pipeline will be refused. *)
Record DInv (w : World) : Prop := {
  di_tablet : tablet_inv (w_tablet w);
  di_status : sync_s (w_sync w) = OK;
  di_ok : (view_writes (queued w) (view (w_tablet w)) true).2 = true }.

(** Every flush reaches the tablet. *)
Definition transport_ok (cfg : Config) : Prop := ∀ i, env_transport cfg i = true.

(** The invariant of a run: the protocol part always, the data part when
    the conditions [G] of a clean run hold. *)
Definition Inv (G : Prop) (ph : Phase) (w : World) : Prop :=
  TInv ph w ∧ (G → DInv w).

(** [c] run from a state in [P] returns in [Q]; it never blocks, and it
    fails only when [G] does not hold, leaving a history that obeys the
    protocol. *)
Definition triple (G : Prop) {A} (P : World → Prop) (c : M A)
    (Q : A → World → Prop) : Prop :=
  ∀ w, P w →
    match c w with
    | Ret a w' => Q a w'
    | Fail _ w' => (∃ ph, TInv ph w') ∧ ¬ G
    | Hang _ => False
    end.

Definition neutral (e : Event) : Prop :=
  match e with
  | EvFlushAsync _ _ | EvComplete _ _ => False
  | _ => True
  end.

(** A writer in a phase of [Φ] whose books are [B] and which, on a clean
    run, leaves the rows [V] to read once its pipeline has drained. *)
Definition state (G : Prop) (Φ : Phase → Prop) (B : Books) (V : gmap Z Row)
    (w : World) : Prop :=
  ∃ ph, Φ ph ∧ Inv G ph w ∧ books w = B ∧ (G → lview w = V).

Definition apply_books (m : Mutation) (B : Books) : Books :=
  {| bk_pending := bk_pending B ++ [m]; bk_flushed := bk_flushed B;
     bk_applied := bk_applied B ++ [m]; bk_issued := bk_issued B;
     bk_stop := bk_stop B |}.

Definition flush_books (B : Books) : Books :=
  {| bk_pending := []; bk_flushed := bk_flushed B ++ [bk_pending B];
     bk_applied := bk_applied B; bk_issued := S (bk_issued B);
     bk_stop := bk_stop B |}.

Definition stop_books (b : nat) (B : Books) : Books :=
  {| bk_pending := bk_pending B; bk_flushed := bk_flushed B;
     bk_applied := bk_applied B; bk_issued := bk_issued B;
     bk_stop := b |}.

(** What [WaitForLastBatchAndFlush] does to the books for [key]. *)
Definition trigger_books (cfg : Config) (key : Z) (B : Books) : Books :=
  if decide (Z.rem key (kSessionBatchSize cfg) = 0) then flush_books B else B.

(** The mutation [MakeRow] makes of an operation on the test table, and the
    row it writes. *)
Definition made (kind : OpKind) (key val : Z) : Mutation :=
  {| op_kind := kind;
     op_row := {| pr_schema := schema_;
                  pr_cells := [Some (VInt64 key);
                               Some (VString "TODO random string");
                               Some (VInt64 val)] |} |}.

Definition row_of (key val : Z) : Row :=
  [VInt64 key; VString "TODO random string"; VInt64 val].

(** The books and the rows after the first [i] keys of the insert loop. *)
Fixpoint insert_books (cfg : Config) (stop : nat) (i : nat) : Books :=
  match i with
  | O => {| bk_pending := []; bk_flushed := []; bk_applied := [];
            bk_issued := 0; bk_stop := stop |}
  | S i' =>
      trigger_books cfg (Z.of_nat i')
        (apply_books (made OpInsert (Z.of_nat i') 0) (insert_books cfg stop i'))
  end.

Fixpoint insert_rows (i : nat) : gmap Z Row :=
  match i with
  | O => ∅
  | S i' => <[Z.of_nat i' := row_of (Z.of_nat i') 0]> (insert_rows i')
  end.

(** The state after [CreateSession()] and [Synchronizer last_s;]. *)
Definition fresh_writer (w : World) : World :=
  {| w_pending := []; w_inflight := []; w_issued := 0;
     w_sync := {| sync_s := OK; sync_l := 1 |}; w_tablet := w_tablet w;
     w_stop := w_stop w; w_clock := w_clock w; w_log := [] |}.

Definition fresh_books (stop : nat) : Books :=
  {| bk_pending := []; bk_flushed := []; bk_applied := [];
     bk_issued := 0; bk_stop := stop |}.

(** A clean run of [InsertBaseData]: every flush reaches the tablet, and the
    table was just created. *)
Definition clean_insert (cfg : Config) (w : World) : Prop :=
  transport_ok cfg ∧ tablet_inv (w_tablet w) ∧ view (w_tablet w) = ∅.

(** The number of keys below [i] that trigger a flush. *)
Definition triggers (cfg : Config) (i : Z) : Z :=
  (i + kSessionBatchSize cfg - 1) / kSessionBatchSize cfg.

(** ** A concrete setting *)

(** A quiet environment: a flush is acknowledged when the writer waits for
    it, every flush reaches the tablet, the Maintenance Scheduler stays
    idle, a fetch brings one row. *)
Definition quiet (K n : Z) : Config :=
  {| kSessionBatchSize := K; FLAGS_row_count := n;
     env_acks := λ _, 0%nat; env_transport := λ _, true;
     env_maintenance := λ _, []; env_scan := λ _, Some 1%nat |}.

(** A busy environment: flushes are acknowledged at every other step, and
    the Maintenance Scheduler alternates MemStore flushes and compactions;
    the server has no row ready for one fetch in three, then one row, then
    two. *)
Definition busy (K n : Z) : Config :=
  {| kSessionBatchSize := K; FLAGS_row_count := n;
     env_acks := λ i, if Nat.even i then 1%nat else 0%nat;
     env_transport := λ _, true;
     env_maintenance := λ i,
       if Nat.even i then [FlushMemStore] else [CompactDeltas 1];
     env_scan := λ i, Some (i mod 3)%nat |}.

(** The server keeps answering the scanner: after every time there is a
    request that brings a row, or fails. *)
Definition served (cfg : Config) : Prop :=
  ∀ i, ∃ j, (i ≤ j)%nat ∧ env_scan cfg j ≠ Some 0%nat.

(** An environment whose server answers every fetch and never has a row
    ready; for the rest it is the quiet one. *)
Definition starved (K n : Z) : Config :=
  {| kSessionBatchSize := K; FLAGS_row_count := n;
     env_acks := λ _, 0%nat; env_transport := λ _, true;
     env_maintenance := λ _, []; env_scan := λ _, Some 0%nat |}.

(** The world after [CreateTable()]: an empty tablet; [stop] reads of the
    stop latch will see it up. *)
Definition created (stop : nat) : World :=
  {| w_pending := []; w_inflight := []; w_issued := 0;
     w_sync := {| sync_s := OK; sync_l := 1 |}; w_tablet := empty_tablet;
     w_stop := stop; w_clock := 0; w_log := [] |}.

(** [const int kSessionBatchSize = 1000;] and the default of
    [DEFINE_int32(row_count, 2000, ...)]. *)
Definition test_defaults : Config := quiet 1000 2000.

(** ** Reading the updates of a history *)

(** The key and the value of the int64 column of an update of the test
    table. *)
Definition update_val (m : Mutation) : option (Z * Z) :=
  match op_kind m, pr_cells (op_row m) with
  | OpUpdate, [Some (VInt64 k); _; Some (VInt64 v)] => Some (k, v)
  | _, _ => None
  end.

(** The values the updates in [ms] carry for key [k], oldest first. *)
Definition vals (k : Z) (ms : list Mutation) : list Z :=
  omap (λ m, match update_val m with
             | Some (k', v) => if decide (k' = k) then Some v else None
             | None => None
             end) ms.

(** A clean run of [UpdateRows]: every flush reaches the tablet, and the
    table holds a row of three columns for every key below
    [FLAGS_row_count]. *)
Definition clean_update (cfg : Config) (w : World) : Prop :=
  transport_ok cfg ∧ tablet_inv (w_tablet w) ∧
  ∀ k, 0 ≤ k < FLAGS_row_count cfg →
    ∃ r, view (w_tablet w) !! k = Some r ∧ length r = 3%nat.

(** The invariant of the update loops, in pass [it] before key [j]: the
    rows to read hold the last value applied to each key; the values
    applied to a key grow strictly and are those of the passes so far; no
    batch holds two updates of a key. *)
Record upd_inv (G : Prop) (v0 : gmap Z Row) (it j : Z) (B : Books)
    (V : gmap Z Row) : Prop := {
  ui_view : G → ∀ k, V !! k =
    match last (vals k (bk_applied B)) with
    | Some v => Some (row_of k v)
    | None => v0 !! k
    end;
  ui_sorted : ∀ k, StronglySorted Z.lt (vals k (bk_applied B));
  ui_bound : ∀ k, Forall (λ v, 1 ≤ v ∧ (v < it ∨ (v = it ∧ k < j)))
                    (vals k (bk_applied B));
  ui_flushed : ∀ k, Forall (λ b, (length (vals k b) ≤ 1)%nat) (bk_flushed B);
  ui_pending : ∀ k, (length (vals k (bk_pending B)) ≤ 1)%nat ∧
                    (j ≤ k → vals k (bk_pending B) = []) }.

(** The world in which the update thread starts: [InsertBaseData] has run in
    a quiet environment on the table just created, and [stop] reads of the
    stop latch will see it up. *)
Definition populated (n : Z) (stop : nat) : World :=
  set_stop stop (final (InsertBaseData (quiet 1000 n) (created 0))).

(** Code that only adds to the instrumentation. *)
Definition extends {A} (c : M A) : Prop :=
  ∀ w, ∃ new, w_log (final (c w)) = new ++ w_log w.

(** The body of the insert loop once [MakeRow] has filled the row. *)
Definition insert_body (cfg : Config) (key : Z) : M unit :=
  ASSERT_OK (Apply cfg (made OpInsert key 0));;
  ASSERT_OK (WaitForLastBatchAndFlush cfg key).

(** A scenario for the initialiser: two threads call [client()] before the
    client is built, the first attempt fails transiently, the second
    succeeds, both calls return, and a third thread takes the future. *)
Definition a_builder : AsyncInit.YBClientBuilder :=
  {| AsyncInit.client_name := "tserver_client"; AsyncInit.num_reactors := 4%nat;
     AsyncInit.timeout_seconds := 60%nat; AsyncInit.tserver_uuid := "ts-1" |}.

Definition two_callers : list AsyncInit.Label :=
  [ AsyncInit.LCall 1%nat; AsyncInit.LTask AsyncInit.BuildTransient;
    AsyncInit.LCall 2%nat; AsyncInit.LTask AsyncInit.BuildTransient;
    AsyncInit.LTask AsyncInit.BuildTransient;
    AsyncInit.LTask (AsyncInit.BuildOk 7%nat);
    AsyncInit.LReturn 1%nat; AsyncInit.LReturn 2%nat; AsyncInit.LGetFuture 3%nat ].

(** A scenario in which the owner shuts down while an attempt is in
    progress. *)
Definition shut_down_early : list AsyncInit.Label :=
  [ AsyncInit.LCall 1%nat; AsyncInit.LTask AsyncInit.BuildTransient ].

(** ** The page fetcher *)

(** What [CurlWebPages] runs against: the address the web server of the
    tablet server is bound to, as [yb::ToString] prints it, and
    [EasyCurl::FetchURL]: what fetch number [i], of [url], answers and what it
    leaves in [dst], which held [old]. *)
Record CurlEnv := {
  bound_http_addr : string;
  FetchURL : nat → string → string → Status * string }.

(** The state of the thread: the buffer [dst] and, as instrumentation, the
    fetches made, oldest first, each with its answer and what it left in
    [dst]. *)
Record CurlState := {
  cu_dst : string;
  cu_log : list (string * Status * string) }.

(** How the thread ends: it returns, or [CHECK_GT(dst.length(), 0)] aborts. *)
Inductive CurlOutcome :=
| CurlReturned (s : CurlState)
| CurlCheckFailed (s : CurlState).

(** [for (const string& url : urls)]: fetch the page and, if the fetch
    succeeded, check that something was received. *)
Fixpoint curl_urls (env : CurlEnv) (urls : list string) (s : CurlState)
    : CurlOutcome :=
  match urls with
  | [] => CurlReturned s
  | url :: urls' =>
      let r := FetchURL env (length (cu_log s)) url (cu_dst s) in
      let s' := {| cu_dst := r.2; cu_log := cu_log s ++ [(url, r.1, r.2)] |} in
      if ok r.1 then
        if bool_decide (0 < String.length r.2)%nat
        then curl_urls env urls' s'
        else CurlCheckFailed s'
      else curl_urls env urls' s'
  end.

(** [while (stop_latch->count() > 0)]; [stop] is the number of reads of the
    latch that still see 1. *)
Fixpoint curl_loop (env : CurlEnv) (urls : list string) (stop : nat)
    (s : CurlState) : CurlOutcome :=
  match stop with
  | O => CurlReturned s
  | S stop' =>
      match curl_urls env urls s with
      | CurlReturned s' => curl_loop env urls stop' s'
      | CurlCheckFailed s' => CurlCheckFailed s'
      end
  end.

(** The two status pages. *)
Definition curl_pages (base_url : string) : list string :=
  [base_url +:+ "/scans"; base_url +:+ "/transactions"].

(** [UpdateScanDeltaCompactionTest::CurlWebPages] *)
Definition CurlWebPages (env : CurlEnv) (stop : nat) : CurlOutcome :=
  let base_url := bound_http_addr env in
  let urls := curl_pages base_url in
  curl_loop env urls stop {| cu_dst := ""; cu_log := [] |}.

(** A fetch that passes the check of [CurlWebPages]: it failed, or it
    received something. *)
Definition page_ok (e : string * Status * string) : Prop :=
  e.1.2 = OK → e.2 ≠ "".

(** A web server that never answers a successful fetch with an empty page. *)
Definition serves_pages (env : CurlEnv) : Prop :=
  ∀ i url old, (FetchURL env i url old).1 = OK → (FetchURL env i url old).2 ≠ "".

(** A server on port 9000 whose every third fetch fails, leaving [dst] as
    it was. *)
Definition flaky_server : CurlEnv :=
  {| bound_http_addr := "127.0.0.1:9000";
     FetchURL := λ i url old,
       if (i mod 3 =? 2)%nat then (Cancelled, old) else (OK, "<html>" +:+ url) |}.

(** A server that answers the fifth fetch with an empty page. *)
Definition empty_page_server : CurlEnv :=
  {| bound_http_addr := "127.0.0.1:9000";
     FetchURL := λ i url old, if (i =? 4)%nat then (OK, "") else (OK, "<html>") |}.

Definition curl_final (o : CurlOutcome) : CurlState :=
  match o with CurlReturned s => s | CurlCheckFailed s => s end.

(** Every entry of the log is what [FetchURL] answered to the fetch of that
    number. *)
Definition answered (env : CurlEnv) (log : list (string * Status * string)) : Prop :=
  ∀ i e, log !! i = Some e → ∃ old, FetchURL env i e.1.1 old = (e.1.2, e.2).

(** ** Runs that may fail *)

(** [c] run from a state in [P] ends in a state in [Q] when it returns and in
    a state in [F] when one of its checks fails.  Nothing is said of a run
    that blocks: that the write loops never block is shown apart. *)
Definition hoare {A} (P : World → Prop) (c : M A)
    (Q : A → World → Prop) (F : Status → World → Prop) : Prop :=
  ∀ w, P w →
    match c w with
    | Ret a w' => Q a w'
    | Fail st w' => F st w'
    | Hang _ => True
    end.

(** The statuses a flush completes with: [OK], or [ApplyError] when the
    tablet refused a mutation of the batch, or [FlushError] when the batch
    did not get there. *)
Definition flush_status (st : Status) : Prop :=
  st = OK ∨ st = ApplyError ∨ st = FlushError.

Definition flush_failure (st : Status) : Prop :=
  st = ApplyError ∨ st = FlushError.

(** A writer that has applied the mutations [a] and is left with [s] reads
    of the stop latch that see it up, with [φ a s], and whose signal holds
    the result of a flush. *)
Definition tracks (φ : list Mutation → nat → Prop) (w : World) : Prop :=
  φ (applied (w_log w)) (w_stop w) ∧ flush_status (sync_s (w_sync w)).

(** The first [i] inserts of [InsertBaseData]. *)
Definition inserts_to (i : nat) (a : list Mutation) (s : nat) : Prop :=
  a = (λ k, made OpInsert k 0) <$> seqZ 0 (Z.of_nat i).

(** An update of a key of the table that carries the number of a pass up to
    [it]. *)
Definition pass_update (cfg : Config) (it : Z) (m : Mutation) : Prop :=
  ∃ k v, m = made OpUpdate k v ∧ 0 ≤ k < FLAGS_row_count cfg ∧ 1 ≤ v ≤ it.

(** The update thread in pass [it], started with [s0] reads of the stop
    latch to see it up: every pass entered and every update applied took one
    of them. *)
Definition in_pass (cfg : Config) (s0 : nat) (it : Z)
    (a : list Mutation) (s : nat) : Prop :=
  0 ≤ it ∧ Forall (pass_update cfg it) a ∧
  Z.of_nat (length a) + Z.of_nat s + it ≤ Z.of_nat s0.

(** ** A first flush that cannot succeed *)

(** A writer that has issued no flush yet: its signal holds [OK] with the
    latch at [l], [p] is queued, [s] reads of the stop latch will see it up,
    and the tablet is in [Bad]. *)
Definition before_flush (Bad : Tablet → Prop) (l : nat) (p : list Mutation)
    (s : nat) (w : World) : Prop :=
  w_issued w = 0%nat ∧ flushed (w_log w) = [] ∧ w_inflight w = [] ∧
  w_sync w = {| sync_s := OK; sync_l := l |} ∧ w_pending w = p ∧
  w_stop w = s ∧ Bad (w_tablet w).

(** A writer whose one flush, of the batch [b], is outstanding or has
    completed with [stE], on a tablet in [Bad]. *)
Definition doomed (Bad : Tablet → Prop) (b : list Mutation) (stE : Status)
    (w : World) : Prop :=
  w_issued w = 1%nat ∧ flushed (w_log w) = [b] ∧ Bad (w_tablet w) ∧
  ((w_inflight w = [(0%nat, b)] ∧ sync_l (w_sync w) = 1%nat) ∨
   (w_inflight w = [] ∧ sync_l (w_sync w) = 0%nat ∧ sync_s (w_sync w) = stE)).

(** The tablet reads [v], as it did at the start. *)
Definition reads (v : gmap Z Row) (t : Tablet) : Prop :=
  tablet_inv t ∧ view t = v.

(** An environment that loses the first flush and no other; for the rest it
    is the quiet one. *)
Definition lossy (K n : Z) : Config :=
  {| kSessionBatchSize := K; FLAGS_row_count := n;
     env_acks := λ _, 0%nat; env_transport := λ i, negb (i =? 0)%nat;
     env_maintenance := λ _, []; env_scan := λ _, Some 1%nat |}.

(** ** The updates of a run *)

(** The updates of pass [it] for the keys below [j], and those of the passes
    1 to [p] over [n] keys. *)
Definition pass_row (it j : Z) : list Mutation :=
  (λ k, made OpUpdate k it) <$> seqZ 0 j.

Definition passes (n p : Z) : list Mutation :=
  concat ((λ it, pass_row it n) <$> seqZ 1 p).

(** What the update thread applies to [n] rows when [s0] reads of the stop
    latch see it up: a pass takes one read to start and one for each key, so
    that [s0 / (n + 1)] passes are complete and the next gets as far as
    what remains allows. *)
Definition schedule (n : Z) (s0 : nat) : list Mutation :=
  let q := Z.of_nat s0 / (n + 1) in
  let r := Z.of_nat s0 mod (n + 1) in
  passes n q ++ pass_row (q + 1) (r - 1).

(** Before the read of the latch that starts pass [it], and in pass [it]
    before key [j]. *)
Definition at_head (n : Z) (s0 : nat) (it : Z) (a : list Mutation) (s : nat)
    : Prop :=
  (a = passes n (it - 1) ∧ Z.of_nat s0 = (it - 1) * (n + 1) + Z.of_nat s) ∨
  (s = 0%nat ∧ a = schedule n s0).

Definition in_row (n : Z) (s0 : nat) (it j : Z) (a : list Mutation) (s : nat)
    : Prop :=
  0 ≤ j ≤ n ∧ a = passes n (it - 1) ++ pass_row it j ∧
  Z.of_nat s0 = (it - 1) * (n + 1) + 1 + j + Z.of_nat s.

(** ** The threads of the test *)

(** The member functions [RunThreads] starts threads on. *)
Inductive ThreadBody := BodyUpdateRows | BodyScanRows | BodyCurlWebPages.

#[global] Instance ThreadBody_eq_dec : EqDecision ThreadBody.
Proof. solve_decision. Defined.

(** What the main thread does to the thread library and to the stop latch. *)
Inductive MainEvent :=
| EvCreate (category name : string) (body : ThreadBody)
| EvSleep (seconds : Z)
| EvCountDown
| EvJoin (thread : nat) (st : Status).

#[global] Instance MainEvent_eq_dec : EqDecision MainEvent.
Proof. solve_decision. Defined.

(** What [RunThreads] runs against: the names of the running test, the flag
    [seconds_to_run], and what [Thread::Create] answers to the [i]-th
    creation and [ThreadJoiner::Join] to the join of the [i]-th thread of
    the vector. *)
Record MainEnv := {
  CURRENT_TEST_NAME : string;
  CURRENT_TEST_CASE_NAME : string;
  FLAGS_seconds_to_run : Z;
  Thread_Create : nat → Status;
  Thread_Join : nat → Status }.

(** The locals of [RunThreads]: the count of [stop_latch], the vector
    [threads], and, as instrumentation, what the main thread did, oldest
    first. *)
Record MainState := {
  stop_latch : nat;
  threads : list ThreadBody;
  main_log : list MainEvent }.

(** How [RunThreads] ends: it returns, or an [ASSERT_OK] makes it return
    early. *)
Inductive MainOutcome :=
| MainReturned (s : MainState)
| MainAsserted (st : Status) (s : MainState).

Definition main_bind (o : MainOutcome) (k : MainState → MainOutcome)
    : MainOutcome :=
  match o with
  | MainReturned s => k s
  | MainAsserted st s => MainAsserted st s
  end.

(** [ASSERT_OK(Thread::Create(CURRENT_TEST_NAME(), StrCat(CURRENT_TEST_CASE_NAME(),
    suffix), body, this, &stop_latch, &t)); threads.push_back(t);] *)
Definition create_thread (env : MainEnv) (i : nat) (suffix : string)
    (body : ThreadBody) (s : MainState) : MainOutcome :=
  let st := Thread_Create env i in
  if ok st then
    MainReturned
      {| stop_latch := stop_latch s; threads := threads s ++ [body];
         main_log := main_log s ++
           [EvCreate (CURRENT_TEST_NAME env)
                     (CURRENT_TEST_CASE_NAME env +:+ suffix) body] |}
  else MainAsserted st s.

(** [SleepFor(MonoDelta::FromSeconds(FLAGS_seconds_to_run * 1.0));] *)
Definition SleepFor (seconds : Z) (s : MainState) : MainState :=
  {| stop_latch := stop_latch s; threads := threads s;
     main_log := main_log s ++ [EvSleep seconds] |}.

(** [stop_latch.CountDown();] *)
Definition CountDown (s : MainState) : MainState :=
  {| stop_latch := pred (stop_latch s); threads := threads s;
     main_log := main_log s ++ [EvCountDown] |}.

(** [for (thread : threads) ASSERT_OK(ThreadJoiner(thread.get())
    .warn_every_ms(500).Join());] from the thread number [i] on. *)
Fixpoint join_threads (env : MainEnv) (i : nat) (ts : list ThreadBody)
    (s : MainState) : MainOutcome :=
  match ts with
  | [] => MainReturned s
  | _ :: ts' =>
      let st := Thread_Join env i in
      let s' := {| stop_latch := stop_latch s; threads := threads s;
                   main_log := main_log s ++ [EvJoin i st] |} in
      if ok st then join_threads env (S i) ts' s' else MainAsserted st s'
  end.

(** [UpdateScanDeltaCompactionTest::RunThreads] *)
Definition RunThreads (env : MainEnv) : MainOutcome :=
  let s := {| stop_latch := 1; threads := []; main_log := [] |} in
  main_bind (create_thread env 0 "-update" BodyUpdateRows s) (λ s,
  main_bind (create_thread env 1 "-scan" BodyScanRows s) (λ s,
  main_bind (create_thread env 2 "-curl" BodyCurlWebPages s) (λ s,
  let s := SleepFor (FLAGS_seconds_to_run env) s in
  let s := CountDown s in
  join_threads env 0 (threads s) s))).

(** The threads started and not joined. *)
Definition joined (log : list MainEvent) : list nat :=
  omap (λ e, match e with EvJoin i OK => Some i | _ => None end) log.

Definition unjoined (s : MainState) : list nat :=
  filter (λ i, i ∉ joined (main_log s)) (seq 0 (length (threads s))).

(** ** A run and its run without losses *)

(** The environment of [cfg] with a transport that loses nothing. *)
Definition reliable (cfg : Config) : Config :=
  {| kSessionBatchSize := kSessionBatchSize cfg;
     FLAGS_row_count := FLAGS_row_count cfg;
     env_acks := env_acks cfg; env_transport := λ _, true;
     env_maintenance := env_maintenance cfg;
     env_scan := env_scan cfg |}.

(** A writer whose last flush has failed and which has not waited since:
    its next [Wait] answers the error. *)
Definition poisoned (w : World) : Prop :=
  w_inflight w = [] ∧ sync_l (w_sync w) = 0%nat ∧ ok (sync_s (w_sync w)) = false.

(** The state [w1] of a run and the state [w2] of the same run without
    losses: they are the same until a flush is lost. *)
Definition twin (w1 w2 : World) : Prop :=
  w1 = w2 ∨ (poisoned w1 ∧ w_stop w1 = w_stop w2).

(** [c] from [w1] and [c'] from [w2], with [P w2] and [Rin w1 w2]: if both
    return, what they return is in [Rout]. *)
Definition rel {A} (P : World → Prop) (Rin : World → World → Prop)
    (c c' : M A) (Rout : A → World → A → World → Prop) : Prop :=
  ∀ w1 w2, P w2 → Rin w1 w2 →
    match c' w2, c w1 with
    | Ret a2 w2', Ret a1 w1' => Rout a1 w1' a2 w2'
    | _, _ => True
    end.

(** A writer in a phase of [Φ]. *)
Definition phase (Φ : Phase → Prop) (w : World) : Prop :=
  ∃ ph, Φ ph ∧ TInv ph w.

(** The results of a [Wait] and of its twin: the same, or an error. *)
Definition same_or_error (st1 : Status) (w1 : World) (st2 : Status)
    (w2 : World) : Prop :=
  (st1 = st2 ∧ twin w1 w2) ∨ ok st1 = false.

(** * Proofs *)

Arguments serve : simpl never.
Arguments run_maintenance : simpl never.
Arguments write_batch : simpl never.

(** ** The tablet refines its view *)

Section TabletFacts.
Implicit Types (t : Tablet) (k : Z) (r : Row) (v : gmap Z Row).

Lemma lookup_merged dus (b : gmap Z Row) k :
  merged_base dus b !! k = apply_deltas dus k <$> b !! k.
Proof. unfold merged_base. rewrite map_lookup_imap. by destruct (b !! k). Qed.

Lemma lookup_view_with t pend k :
  view_with t pend !! k =
    match memstore t !! k with
    | Some r => Some r
    | None => (λ r, apply_pairs k (apply_deltas (deltas t) k r) pend) <$> base t !! k
    end.
Proof.
  unfold view_with. rewrite lookup_union, lookup_merged.
  destruct (memstore t !! k) as [r|], (base t !! k) as [r'|]; simpl; try done.
  unfold apply_deltas. rewrite fold_left_app. done.
Qed.

Lemma lookup_view t k :
  view t !! k =
    match memstore t !! k with
    | Some r => Some r
    | None => apply_deltas (deltas t) k <$> base t !! k
    end.
Proof.
  unfold view. rewrite lookup_union, lookup_merged.
  by destruct (memstore t !! k) as [r|], (base t !! k) as [r'|].
Qed.

Lemma view_with_nil t : view_with t [] = view t.
Proof. apply map_eq. intros k. rewrite lookup_view_with, lookup_view. done. Qed.

Lemma view_seal t pend : view (seal t pend) = view_with t pend.
Proof.
  destruct pend as [|p pend]; simpl; [by rewrite view_with_nil|].
  apply map_eq. intros k. rewrite lookup_view_with, lookup_view. simpl.
  destruct (memstore t !! k); [done|]. destruct (base t !! k); [simpl|done].
  unfold apply_deltas. rewrite fold_left_app. done.
Qed.

Lemma apply_pairs_other k r muts :
  (∀ kc, kc ∈ muts → kc.1 ≠ k) → apply_pairs k r muts = r.
Proof.
  unfold apply_pairs. revert r. induction muts as [|kc muts IH]; intros r H; simpl; [done|].
  destruct (decide (kc.1 = k)) as [E|_]; [by destruct (H kc); [left|]|].
  apply IH. intros kc' ?. apply H. by right.
Qed.

Lemma apply_deltas_other dus k r :
  (∀ du kc, du ∈ dus → kc ∈ du_muts du → kc.1 ≠ k) → apply_deltas dus k r = r.
Proof.
  unfold apply_deltas. revert r. induction dus as [|du dus IH]; intros r H; simpl; [done|].
  rewrite apply_pairs_other by (intros kc ?; eapply H; [left|done]).
  apply IH. intros du' kc ??. eapply H; [by right|done].
Qed.

Lemma apply_deltas_app dus1 dus2 k r :
  apply_deltas (dus1 ++ dus2) k r = apply_deltas dus2 k (apply_deltas dus1 k r).
Proof. unfold apply_deltas. by rewrite fold_left_app. Qed.

(** The Maintenance Scheduler changes no row a scan reads. *)
Lemma flush_memstore_view t : tablet_inv t → view (flush_memstore t) = view t.
Proof.
  intros [Hd Hk _ _]. apply map_eq. intros k. rewrite !lookup_view. simpl.
  rewrite lookup_empty, lookup_union.
  destruct (memstore t !! k) as [r|] eqn:Hm; [|by destruct (base t !! k)].
  destruct (Hd k) as [?|Hb]; [congruence|]. rewrite Hb. simpl. f_equal.
  apply apply_deltas_other. intros du kc Hdu Hkc E.
  destruct (Hk du kc Hdu Hkc) as [? ?]. congruence.
Qed.

Lemma compact_view n t : view (compact n t) = view t.
Proof.
  apply map_eq. intros k. rewrite !lookup_view. simpl.
  destruct (memstore t !! k); [done|]. rewrite lookup_merged.
  destruct (base t !! k); simpl; [|done].
  by rewrite <- apply_deltas_app, take_drop.
Qed.

Lemma flush_memstore_inv t : tablet_inv t → tablet_inv (flush_memstore t).
Proof.
  intros [Hd Hk Hs Hn]. split; simpl; try done.
  - intros k. left. apply lookup_empty.
  - intros du kc Hdu Hkc. rewrite lookup_union.
    destruct (Hk du kc Hdu Hkc) as [r ->]. by destruct (memstore t !! kc.1).
Qed.

Lemma compact_inv n t : tablet_inv t → tablet_inv (compact n t).
Proof.
  intros [Hd Hk Hs Hn]. split; simpl.
  - intros k. rewrite lookup_merged. destruct (Hd k) as [->| ->]; auto.
  - intros du kc Hdu Hkc. rewrite lookup_merged.
    apply (subseteq_drop n) in Hdu.
    destruct (Hk du kc Hdu Hkc) as [r ->]. by eexists.
  - rewrite fmap_drop. rewrite <- (take_drop n (du_seq <$> deltas t)) in Hs.
    by apply StronglySorted_app_1_r in Hs.
  - rewrite <- (take_drop n (deltas t)) in Hn. by apply Forall_app in Hn as [_ ?].
Qed.

Lemma run_maintenance_spec ops t :
  tablet_inv t →
  tablet_inv (run_maintenance ops t) ∧ view (run_maintenance ops t) = view t.
Proof.
  unfold run_maintenance. revert t.
  induction ops as [|op ops IH]; intros t Ht; simpl; [done|].
  destruct op as [|n]; simpl.
  - destruct (IH _ (flush_memstore_inv t Ht)) as [? ->].
    by rewrite flush_memstore_view.
  - destruct (IH _ (compact_inv n t Ht)) as [? ->].
    by rewrite compact_view.
Qed.

Lemma apply_pairs_snoc k r muts k' cells :
  apply_pairs k r (muts ++ [(k', cells)]) =
    if decide (k' = k) then merge_cells (apply_pairs k r muts) cells
    else apply_pairs k r muts.
Proof. unfold apply_pairs. by rewrite fold_left_app. Qed.

(** One mutation at the tablet is the write on the rows read. *)
Lemma write_one_spec t pend m :
  tablet_inv t → pend_inv t pend →
  tablet_inv (write_one t pend m).1.1 ∧
  pend_inv (write_one t pend m).1.1 (write_one t pend m).1.2 ∧
  view_with (write_one t pend m).1.1 (write_one t pend m).1.2 =
    (view_write m (view_with t pend)).1 ∧
  (write_one t pend m).2 = (view_write m (view_with t pend)).2.
Proof.
  intros Ht Hp. pose proof Ht as [Hd Hk Hs Hn].
  unfold write_one, view_write.
  destruct (row_key (op_row m)) as [k|]; [|done].
  pose proof (lookup_view_with t pend k) as Hv.
  destruct (op_kind m).
  - destruct (full_row (pr_cells (op_row m))) as [r|]; [|done].
    destruct (memstore t !! k) as [r0|] eqn:Hm.
    { rewrite Hv. done. }
    destruct (base t !! k) as [rb|] eqn:Hb.
    { rewrite Hv. done. }
    rewrite Hv. simpl. split_and!; try done.
    + split; simpl; try done. intros k'. rewrite lookup_insert.
      case_decide; subst; auto.
    + apply map_eq. intros k'. rewrite lookup_view_with. simpl.
      rewrite !lookup_insert. case_decide; subst; [done|].
      by rewrite lookup_view_with.
  - destruct (memstore t !! k) as [r0|] eqn:Hm.
    { rewrite Hv. simpl. split_and!; try done.
      - split; simpl; try done. intros k'. rewrite lookup_insert.
        case_decide; subst; [|done]. destruct (Hd k'); [congruence|auto].
      - apply map_eq. intros k'. rewrite lookup_view_with. simpl.
        rewrite !lookup_insert. case_decide; subst; [done|].
        by rewrite lookup_view_with. }
    destruct (base t !! k) as [rb|] eqn:Hb.
    2:{ rewrite Hv. done. }
    rewrite Hv. simpl. split_and!; try done.
    + intros kc [?| ->%list_elem_of_singleton]%elem_of_app; [by apply Hp|].
      simpl. by rewrite Hb.
    + apply map_eq. intros k'. rewrite lookup_view_with, lookup_insert.
      case_decide as E; subst.
      * rewrite Hm, Hb. simpl. rewrite apply_pairs_snoc. by rewrite decide_True.
      * rewrite lookup_view_with. destruct (memstore t !! k'); [done|].
        destruct (base t !! k'); [simpl|done].
        rewrite apply_pairs_snoc. by rewrite decide_False.
Qed.

Lemma write_all_spec batch t pend b :
  tablet_inv t → pend_inv t pend →
  tablet_inv (write_all t pend b batch).1.1 ∧
  pend_inv (write_all t pend b batch).1.1 (write_all t pend b batch).1.2 ∧
  view_with (write_all t pend b batch).1.1 (write_all t pend b batch).1.2 =
    (view_writes batch (view_with t pend) b).1 ∧
  (write_all t pend b batch).2 = (view_writes batch (view_with t pend) b).2.
Proof.
  revert t pend b. induction batch as [|m batch IH]; intros t pend b Ht Hp; simpl.
  { done. }
  destruct (write_one_spec t pend m Ht Hp) as (Ht' & Hp' & Hv & Hst).
  destruct (write_one t pend m) as [[t' pend'] st]. simpl in *.
  rewrite <- Hv, <- Hst. by apply IH.
Qed.

Lemma seal_inv t pend : tablet_inv t → pend_inv t pend → tablet_inv (seal t pend).
Proof.
  intros [Hd Hk Hs Hn] Hp. destruct pend as [|p pend]; [done|].
  split; simpl; try done.
  - intros du kc [?| ->%list_elem_of_singleton]%elem_of_app ?; [by eapply Hk|].
    by apply Hp.
  - rewrite fmap_app. apply StronglySorted_app_2; try done.
    + intros x1 x2 (du & -> & Hdu)%list_elem_of_fmap ->%list_elem_of_singleton.
      by eapply (proj1 (Forall_forall _ _) Hn).
    + simpl. repeat constructor.
  - apply Forall_app. split.
    + eapply Forall_impl; [done|]. intros du ?. simpl in *. lia.
    + apply Forall_singleton. simpl. lia.
Qed.

(** A batch at the tablet is its writes, in order, on the rows read. *)
Lemma write_batch_spec t batch :
  tablet_inv t →
  tablet_inv (write_batch t batch).1 ∧
  view (write_batch t batch).1 = (view_writes batch (view t) true).1 ∧
  ((view_writes batch (view t) true).2 = true → (write_batch t batch).2 = OK).
Proof.
  intros Ht. unfold write_batch.
  assert (pend_inv t []) as Hp by (intros kc []%elem_of_nil).
  destruct (write_all_spec batch t [] true Ht Hp) as (Ht' & Hp' & Hv & Hst).
  destruct (write_all t [] true batch) as [[t' pend'] b]. simpl in *.
  rewrite view_with_nil in Hv, Hst. split_and!.
  - by apply seal_inv.
  - by rewrite view_seal.
  - intros E. by rewrite Hst, E.
Qed.

Lemma view_writes_app ms1 ms2 v b :
  view_writes (ms1 ++ ms2) v b =
    view_writes ms2 (view_writes ms1 v b).1 (view_writes ms1 v b).2.
Proof. revert v b. induction ms1 as [|m ms1 IH]; intros v b; simpl; [done|]. apply IH. Qed.

Lemma view_writes_false ms v : (view_writes ms v false).2 = false.
Proof. revert v. induction ms as [|m ms IH]; intros v; simpl; [done|]. apply IH. Qed.

Lemma view_writes_ok_inv ms v b : (view_writes ms v b).2 = true → b = true.
Proof. destruct b; [done|]. by rewrite view_writes_false. Qed.

End TabletFacts.

(** ** The protocol invariant *)

Section Protocol.
Context (cfg : Config).

Lemma deliver_idle w : w_inflight w = [] → deliver cfg w = w.
Proof. unfold deliver. by intros ->. Qed.

Lemma deliver_n_idle n w : w_inflight w = [] → deliver_n cfg n w = w.
Proof.
  induction n as [|n IH]; intros Hw; simpl; [done|].
  rewrite deliver_idle by done. by apply IH.
Qed.

Lemma seen_cons_other e h i :
  (∀ k st, e ≠ EvWait k st) → seen i (e :: h) = seen i h.
Proof. intros He. unfold seen. destruct e; simpl; try done. by destruct (He awaited st). Qed.

Lemma all_seen_but_cons e u n h :
  (∀ k st, e ≠ EvWait k st) → all_seen_but u n h → all_seen_but u n (e :: h).
Proof. intros He Hs i. rewrite seen_cons_other by done. apply Hs. Qed.

Lemma TInv_deliver ph w :
  TInv ph w → ∃ ph', after ph ph' ∧ TInv ph' (deliver cfg w).
Proof.
  intros [Hc Ho Hi Hn Hb Hout (u & Hs & Hp)].
  destruct (w_inflight w) as [|[j b] rest] eqn:Hw.
  { exists ph. split; [by left|]. rewrite deliver_idle by done.
    split; try done; [by rewrite Hw|by exists u]. }
  assert (ph = Out) as ->.
  { destruct ph; simpl in Hp; try done; destruct Hp as [? _]; congruence. }
  destruct Hp as (j' & b' & Hfl & Hl & Hr & -> & Hj). rewrite Hw in Hfl.
  simplify_eq.
  exists Ready. split; [by right|].
  unfold deliver. rewrite Hw.
  split; simpl; try done.
  - split; [|done]. rewrite Hout. simpl. lia.
  - by rewrite Hout.
  - exists (Some j'). split.
    + by apply all_seen_but_cons.
    + simpl. rewrite Hl. done.
Qed.

Lemma books_deliver w : books (deliver cfg w) = books w.
Proof. unfold deliver. by destruct (w_inflight w) as [|[j b] rest]. Qed.

Lemma after_trans a b c : after a b → after b c → after a c.
Proof. unfold after. intros [->|[-> ->]] [->|[? ->]]; auto; congruence. Qed.

Lemma TInv_deliver_n n ph w :
  TInv ph w → ∃ ph', after ph ph' ∧ TInv ph' (deliver_n cfg n w).
Proof.
  revert ph w. induction n as [|n IH]; intros ph w Hw; simpl.
  { exists ph. split; [by left|done]. }
  destruct (TInv_deliver ph w Hw) as (ph1 & H1 & Hw1).
  destruct (IH _ _ Hw1) as (ph2 & H2 & Hw2).
  exists ph2. eauto using after_trans.
Qed.

Lemma books_deliver_n n w : books (deliver_n cfg n w) = books w.
Proof.
  revert w. induction n as [|n IH]; intros w; simpl; [done|].
  by rewrite IH, books_deliver.
Qed.

Lemma TInv_ext ph w w' :
  w_log w' = w_log w → w_issued w' = w_issued w → w_pending w' = w_pending w →
  w_inflight w' = w_inflight w → w_sync w' = w_sync w →
  TInv ph w → TInv ph w'.
Proof.
  intros E1 E2 E3 E4 E5 [Hc Ho Hi Hn Hb Hout (u & Hs & Hp)].
  split; rewrite ?E1, ?E2, ?E3, ?E4; try done.
  exists u. split; [done|].
  destruct ph; simpl in *; rewrite ?E1, ?E2, ?E4, ?E5; done.
Qed.

Lemma TInv_tick ph w :
  TInv ph w → ∃ ph', after ph ph' ∧ TInv ph' (tick cfg w).
Proof.
  intros Hw. unfold tick. apply TInv_deliver_n.
  by apply (TInv_ext ph w).
Qed.

Lemma books_tick w : books (tick cfg w) = books w.
Proof. unfold tick. by rewrite books_deliver_n. Qed.

Lemma after_writable ph ph' : after ph ph' → writable ph → writable ph'.
Proof. unfold after, writable. intros [->|[-> ->]] [?|?]; auto. Qed.

Lemma after_same ph ph' : after ph ph' → ph ≠ Out → ph' = ph.
Proof. intros [->|[-> ->]] ?; done. Qed.

End Protocol.

(** ** The steps of a writer *)

Section Steps.
Context (cfg : Config) (G : Prop) (HG : G → transport_ok cfg).

Lemma DInv_deliver w :
  transport_ok cfg → DInv w →
  DInv (deliver cfg w) ∧ lview (deliver cfg w) = lview w.
Proof.
  intros Ht [Htb Hst Hok]. unfold deliver.
  destruct (w_inflight w) as [|[j b] rest] eqn:Hw; [done|].
  unfold serve. rewrite Ht.
  set (w' := record _ _).
  assert (queued w = b ++ queued w') as Hq.
  { unfold queued. rewrite Hw. simpl. by rewrite app_assoc. }
  assert (w_tablet w' = (write_batch (w_tablet w) b).1) as Et by done.
  assert (sync_s (w_sync w') = (write_batch (w_tablet w) b).2) as Es by done.
  clearbody w'.
  destruct (write_batch_spec (w_tablet w) b Htb) as (Htb' & Hv & Hs).
  unfold lview. rewrite Hq in Hok |- *. rewrite view_writes_app in Hok |- *.
  pose proof (view_writes_ok_inv _ _ _ Hok) as Hb.
  rewrite Hb in Hok |- *. rewrite <- Hv in Hok |- *. rewrite <- Et in *.
  split; [split|]; try done. rewrite Es. auto.
Qed.

Lemma DInv_deliver_n n w :
  transport_ok cfg → DInv w →
  DInv (deliver_n cfg n w) ∧ lview (deliver_n cfg n w) = lview w.
Proof.
  intros Ht. revert w. induction n as [|n IH]; intros w Hw; simpl; [done|].
  destruct (DInv_deliver w Ht Hw) as [Hw' E].
  destruct (IH _ Hw') as [? ->]. done.
Qed.

Lemma DInv_tick w :
  transport_ok cfg → DInv w → DInv (tick cfg w) ∧ lview (tick cfg w) = lview w.
Proof.
  intros Ht [Htb Hst Hok]. unfold tick.
  destruct (run_maintenance_spec (env_maintenance cfg (w_clock w)) _ Htb) as [Hm Hv].
  set (w1 := set_clock _ _).
  assert (DInv w1) as H1.
  { split; simpl; try done. unfold queued. simpl. by rewrite Hv. }
  destruct (DInv_deliver_n (env_acks cfg (w_clock w)) w1 Ht H1) as [? ->].
  split; [done|]. unfold lview, queued. simpl. by rewrite Hv.
Qed.

Lemma Inv_tick ph w :
  Inv G ph w →
  ∃ ph', after ph ph' ∧ Inv G ph' (tick cfg w) ∧
    books (tick cfg w) = books w ∧ (G → lview (tick cfg w) = lview w).
Proof.
  intros [HT HD]. destruct (TInv_tick cfg ph w HT) as (ph' & Ha & HT').
  exists ph'. split_and!; try done.
  - split; [done|]. intros g. by apply DInv_tick; auto.
  - apply books_tick.
  - intros g. by apply DInv_tick; auto.
Qed.

Lemma TInv_outstanding ph w : TInv ph w → (outstanding (w_log w) ≤ 1)%nat.
Proof.
  intros [_ _ _ _ _ Hout (u & _ & Hp)]. rewrite Hout.
  destruct ph; simpl in Hp.
  1-3: destruct Hp as [-> _]; simpl; lia.
  destruct Hp as (j & b & -> & _). simpl. lia.
Qed.

(** A step that records an event other than a flush or a completion. *)
Lemma TInv_neutral ph0 ph e w w' :
  TInv ph0 w → neutral e →
  w_log w' = e :: w_log w → w_issued w' = w_issued w →
  w_inflight w' = w_inflight w →
  applied (e :: w_log w) = concat (flushed (w_log w)) ++ w_pending w' →
  (∃ u, all_seen_but u (w_issued w) (e :: w_log w) ∧ phase_ok ph u w') →
  TInv ph w'.
Proof.
  intros HT He El Ei Ef Hb Hp. pose proof (TInv_outstanding _ _ HT) as Hle.
  destruct HT as [Hc Ho Hi Hn _ Hout _].
  split; rewrite ?El, ?Ei, ?Ef; try done; destruct e; simpl in *; try done.
Qed.

Lemma DInv_ext w w' :
  w_tablet w' = w_tablet w → queued w' = queued w →
  sync_s (w_sync w') = OK → DInv w → DInv w'.
Proof. intros E1 E2 E3 [? ? ?]. split; rewrite ?E1, ?E2; done. Qed.

Lemma lview_ext w w' :
  w_tablet w' = w_tablet w → queued w' = queued w → lview w' = lview w.
Proof. unfold lview. by intros -> ->. Qed.

(** [last_s_cb.Run(Status::OK())] on an armed signal. *)
Lemma Run_spec w :
  Inv G Idle w →
  ∃ w', Run cfg OK w = Ret () w' ∧ Inv G Ready w' ∧
    books w' = books w ∧ (G → lview w' = lview w).
Proof.
  intros Hw. destruct (Inv_tick _ _ Hw) as (ph' & Ha & [HT HD] & Hb & Hl).
  apply after_same in Ha as ->; [|done].
  unfold Run. set (w1 := tick cfg w) in *. clearbody w1.
  eexists. split; [done|]. split_and!.
  - split.
    + pose proof HT as [_ _ _ _ Hbk _ (u & Hs & Hf & Hsl & Hr & ->)].
      eapply TInv_neutral; try done; try exact I.
      exists None. split; [by apply all_seen_but_cons|].
      simpl. rewrite Hsl. done.
    + intros g. by eapply DInv_ext; [..|apply HD].
  - by rewrite <- Hb.
  - intros g. rewrite <- Hl by done. by apply lview_ext.
Qed.

(** [session->Apply(op)] of a mutation the checks accept. *)
Lemma Apply_spec ph w m :
  writable ph → Inv G ph w → apply_check schema_ m = OK →
  (G → (view_write m (lview w)).2 = OK) →
  ∃ ph' w', Apply cfg m w = Ret OK w' ∧ writable ph' ∧ Inv G ph' w' ∧
    books w' =
      {| bk_pending := w_pending w ++ [m]; bk_flushed := flushed (w_log w);
         bk_applied := applied (w_log w) ++ [m]; bk_issued := w_issued w;
         bk_stop := w_stop w |} ∧
    (G → lview w' = (view_write m (lview w)).1).
Proof.
  intros Hph Hw Hm Hv. destruct (Inv_tick _ _ Hw) as (ph' & Ha & [HT HD] & Hb & Hl).
  unfold Apply. rewrite Hm. simpl.
  change (w_pending w) with (bk_pending (books w)).
  change (flushed (w_log w)) with (bk_flushed (books w)).
  change (applied (w_log w)) with (bk_applied (books w)).
  change (w_issued w) with (bk_issued (books w)).
  change (w_stop w) with (bk_stop (books w)).
  rewrite <- Hb.
  set (w1 := tick cfg w) in *. clearbody w1.
  exists ph'. eexists. split; [done|]. split_and!.
  - by eapply after_writable.
  - split.
    + pose proof HT as [_ _ _ _ Hbk _ (u & Hs & Hp)].
      eapply TInv_neutral; try done; try exact I.
      * simpl. rewrite Hbk. by rewrite app_assoc.
      * exists u. split; [by apply all_seen_but_cons|].
        destruct ph'; simpl in *; done.
    + intros g. destruct (HD g) as [Htb Hst Hok]. split; simpl; try done.
      unfold queued. simpl. rewrite app_assoc, view_writes_app. simpl.
      fold (queued w1). rewrite Hok. simpl. fold (lview w1).
      rewrite Hl, Hv by done. done.
  - done.
  - intros g. unfold lview at 1, queued. simpl.
    rewrite app_assoc, view_writes_app. simpl. fold (queued w1). fold (lview w1).
    by rewrite Hl.
Qed.

(** [last_s->Reset()] after a [Wait]. *)
Lemma Reset_spec w :
  Inv G Waited w →
  ∃ w', Reset cfg w = Ret () w' ∧ Inv G Idle w' ∧
    books w' = books w ∧ (G → lview w' = lview w).
Proof.
  intros Hw. destruct (Inv_tick _ _ Hw) as (ph' & Ha & [HT HD] & Hb & Hl).
  apply after_same in Ha as ->; [|done].
  unfold Reset. set (w1 := tick cfg w) in *. clearbody w1.
  eexists. split; [done|]. split_and!.
  - split.
    + pose proof HT as [_ _ _ _ Hbk _ (u & Hs & Hf & Hsl & ->)].
      eapply TInv_neutral; try done; try exact I.
      exists None. split; [by apply all_seen_but_cons|done].
    + intros g. eapply DInv_ext; [..|apply HD]; try done. simpl. by apply HD.
  - by rewrite <- Hb.
  - intros g. rewrite <- Hl by done. by apply lview_ext.
Qed.

(** [session->FlushAsync(last_s_cb)] with the signal armed. *)
Lemma FlushAsync_spec w :
  Inv G Idle w →
  ∃ w', FlushAsync cfg w = Ret () w' ∧ Inv G Out w' ∧
    books w' =
      {| bk_pending := []; bk_flushed := flushed (w_log w) ++ [w_pending w];
         bk_applied := applied (w_log w); bk_issued := S (w_issued w);
         bk_stop := w_stop w |} ∧
    (G → lview w' = lview w).
Proof.
  intros Hw. destruct (Inv_tick _ _ Hw) as (ph' & Ha & [HT HD] & Hb & Hl).
  apply after_same in Ha as ->; [|done].
  unfold FlushAsync.
  change (w_pending w) with (bk_pending (books w)).
  change (flushed (w_log w)) with (bk_flushed (books w)).
  change (applied (w_log w)) with (bk_applied (books w)).
  change (w_issued w) with (bk_issued (books w)).
  change (w_stop w) with (bk_stop (books w)).
  rewrite <- Hb.
  set (w1 := tick cfg w) in *. clearbody w1.
  eexists. split; [done|].
  pose proof HT as [Hc Ho Hi Hn Hbk Hout (u & Hs & Hf & Hsl & Hr & ->)].
  assert (queued (record (EvFlushAsync (w_issued w1) (w_pending w1))
            (set_issued (S (w_issued w1))
              (set_inflight (w_inflight w1 ++ [(w_issued w1, w_pending w1)])
                (set_pending [] w1)))) = queued w1) as Hq.
  { unfold queued. simpl. rewrite Hf. simpl. by rewrite !app_nil_r. }
  split_and!.
  - split.
    + split; simpl.
      * rewrite Hout, Hf. simpl. done.
      * split; [|done]. destruct (w_issued w1) as [|N] eqn:HN; [done|].
        specialize (Hs N). rewrite decide_True in Hs by (split; [lia|done]).
        unfold seen in Hs.
        destruct (filter _ (observed (w_log w1))) as [|x l] eqn:Hfl; [done|].
        assert (x ∈ filter (λ src, src = ByFlush N) (observed (w_log w1))) as Hx
          by (rewrite Hfl; left).
        apply list_elem_of_filter in Hx as [-> Hx]. done.
      * rewrite Hi. symmetry. exact (seq_S (w_issued w1) 0).
      * rewrite length_app, Hn. simpl. lia.
      * rewrite concat_app. simpl. rewrite !app_nil_r. done.
      * rewrite Hout, Hf. done.
      * exists (Some (w_issued w1)). split.
        -- intros i. rewrite seen_cons_other by done. rewrite Hs.
           destruct (decide ((i < w_issued w1)%nat ∧ None ≠ Some i)) as [[? ?]|n].
           ++ rewrite decide_True; [done|]. split; [lia|]. intros [=]. lia.
           ++ rewrite decide_False; [done|]. intros [? Hne]. apply n. split; [|done].
              assert (i ≠ w_issued w1) by congruence. lia.
        -- simpl. rewrite Hf. simpl. eauto 10.
    + intros g. by eapply DInv_ext; [..|apply HD]; try done; apply HD.
  - done.
  - intros g. rewrite <- Hl by done. by apply lview_ext.
Qed.

Lemma TInv_deliver_Out w : TInv Out w → TInv Ready (deliver cfg w).
Proof.
  intros HT. destruct (TInv_deliver cfg Out w HT) as (ph' & [->|[_ ->]] & HT'); [|done].
  exfalso. destruct HT as [_ _ _ _ _ _ (u & _ & j & b & Hf & _)].
  destruct HT' as [_ _ _ _ _ _ (u' & _ & j' & b' & Hf' & _)].
  unfold deliver in Hf'. rewrite Hf in Hf'. done.
Qed.

Lemma seen_wait k st h i :
  seen i (EvWait k st :: h) =
    if decide (resolver h = Some (ByFlush i)) then S (seen i h) else seen i h.
Proof.
  unfold seen. simpl. destruct (resolver h) as [src|] eqn:Hr.
  - rewrite filter_cons. destruct (decide (src = ByFlush i)) as [->|Hne].
    + by rewrite decide_True.
    + rewrite decide_False; [done|]. congruence.
  - by rewrite decide_False.
Qed.

(** [Wait] on a resolved signal. *)
Lemma await_Ready fuel k w :
  Inv G Ready w →
  ∃ st w', await cfg fuel k w = Ret st w' ∧ Inv G Waited w' ∧
    books w' = books w ∧ (G → st = OK ∧ lview w' = lview w) ∧
    waits (w_log w') = waits (w_log w) ++ [(k, st)].
Proof.
  intros [HT HD].
  pose proof HT as [_ _ _ _ Hbk _ (u & Hs & Hf & Hsl & Hu)].
  exists (sync_s (w_sync w)), (record (EvWait k (sync_s (w_sync w))) w).
  split_and!.
  - destruct fuel; simpl; by rewrite decide_True.
  - split.
    + eapply TInv_neutral; try done; try exact I.
      exists None. split; [|done].
      intros i. rewrite seen_wait, Hs. destruct u as [j|].
      * destruct Hu as [-> Hj]. destruct (decide (i = j)) as [->|Hne].
        -- rewrite decide_True by done. rewrite decide_False by (by intros [_ ?]).
           rewrite decide_True; [done|]. split; [lia|done].
        -- rewrite decide_False by congruence.
           destruct (decide ((i < w_issued w)%nat ∧ Some j ≠ Some i)) as [[? ?]|n].
           ++ by rewrite decide_True.
           ++ rewrite decide_False; [done|]. intros [? _]. apply n. split; [done|congruence].
      * rewrite Hu. by rewrite decide_False.
    + intros g. by eapply DInv_ext; [..|apply HD]; try done; apply HD.
  - done.
  - intros g. split; [by apply HD|done].
  - done.
Qed.

Lemma await_step fuel k w :
  sync_l (w_sync w) ≠ 0%nat → w_inflight w ≠ [] →
  await cfg (S fuel) k w = await cfg fuel (S k) (deliver cfg w).
Proof.
  intros Hl Hf. simpl. destruct (decide (sync_l (w_sync w) = 0%nat)); [done|].
  by destruct (w_inflight w).
Qed.

(** [last_s->Wait()] of a writer that resolved the signal itself or has a
    flush outstanding. *)
Lemma Wait_spec ph w :
  writable ph → Inv G ph w →
  ∃ st w', Wait cfg w = Ret st w' ∧ Inv G Waited w' ∧
    books w' = books w ∧ (G → st = OK ∧ lview w' = lview w).
Proof.
  intros Hph Hw. destruct (Inv_tick _ _ Hw) as (ph' & Ha & [HT HD] & Hb & Hl).
  apply (after_writable _ _ Ha) in Hph.
  unfold Wait. set (w1 := tick cfg w) in *. clearbody w1.
  destruct Hph as [-> | ->].
  - destruct (await_Ready (length (w_inflight w1)) 0 w1) as (st & w' & E & Hw' & Hb' & Hl' & _);
      [done|].
    exists st, w'. split_and!; try done; [congruence|].
    intros g. destruct (Hl' g) as [-> ->]. auto.
  - pose proof HT as [_ _ _ _ _ _ (u & _ & j & b & Hf & Hsl & _)].
    rewrite Hf. change (length [(j, b)]) with 1%nat.
    rewrite await_step by (rewrite ?Hf, ?Hsl; done).
    destruct (await_Ready 0 1 (deliver cfg w1)) as (st & w' & E & Hw' & Hb' & Hl' & _).
    { split; [by apply TInv_deliver_Out|]. intros g. by apply DInv_deliver; auto. }
    exists st, w'. split_and!; try done.
    + rewrite Hb', books_deliver. done.
    + intros g. destruct (Hl' g) as [-> ->]. split; [done|].
      rewrite <- Hl by done. by apply DInv_deliver; auto.
Qed.

Lemma Inv_set_stop ph b w : Inv G ph w → Inv G ph (set_stop b w).
Proof.
  intros [HT HD]. split; [by eapply TInv_ext; [..|apply HT]|].
  intros g. by eapply DInv_ext; [..|apply HD]; try done; apply HD.
Qed.

End Steps.

(** ** Reasoning about writer code *)

Section Triples.
Context (cfg : Config) (G : Prop) (HG : G → transport_ok cfg).



Lemma triple_bind {A B} P (c : M A) Q (f : A → M B) R :
  triple G P c Q → (∀ a, triple G (Q a) (f a) R) → triple G P (c ≫= f) R.
Proof.
  intros Hc Hf w Hw. specialize (Hc w Hw). unfold mbind, M_bind.
  destruct (c w) as [a w'| |]; try done. by apply Hf.
Qed.

Lemma triple_ret {A} (P : World → Prop) (a : A) (Q : A → World → Prop) :
  (∀ w, P w → Q a w) → triple G P (mret a) Q.
Proof. intros H w Hw. by apply H. Qed.

Lemma triple_conseq {A} (P P' : World → Prop) (c : M A) (Q Q' : A → World → Prop) :
  (∀ w, P' w → P w) → (∀ a w, Q a w → Q' a w) →
  triple G P c Q → triple G P' c Q'.
Proof.
  intros HP HQ Hc w Hw. specialize (Hc w (HP w Hw)).
  destruct (c w); auto.
Qed.

Lemma triple_exists {A X} (P : X → World → Prop) (c : M A) Q :
  (∀ x, triple G (P x) c Q) → triple G (λ w, ∃ x, P x w) c Q.
Proof. intros H w [x Hw]. by apply (H x). Qed.

Lemma triple_pure {A} (φ : Prop) (P : World → Prop) (c : M A) Q :
  (φ → triple G P c Q) → triple G (λ w, φ ∧ P w) c Q.
Proof. intros H w [Hφ Hw]. by apply H. Qed.

Lemma triple_of_spec {A} (P : World → Prop) (c : M A) (Q : A → World → Prop) :
  (∀ w, P w → ∃ a w', c w = Ret a w' ∧ Q a w') → triple G P c Q.
Proof. intros H w Hw. by destruct (H w Hw) as (a & w' & -> & ?). Qed.

Lemma for_keys_triple (I : nat → World → Prop) body k0 n :
  (∀ i, (i < n)%nat → triple G (I i) (body (k0 + Z.of_nat i)) (λ _, I (S i))) →
  triple G (I 0%nat) (for_keys body k0 n) (λ _, I n).
Proof.
  revert I k0. induction n as [|n IH]; intros I k0 Hbody; simpl.
  { by apply triple_ret. }
  apply (triple_bind _ _ (λ _, I 1%nat)).
  - specialize (Hbody 0%nat ltac:(lia)). by rewrite Z.add_0_r in Hbody.
  - intros _. apply (IH (λ i, I (S i))). intros i Hi.
    specialize (Hbody (S i) ltac:(lia)).
    by replace (k0 + 1 + Z.of_nat i) with (k0 + Z.of_nat (S i)) by lia.
Qed.

(** The steps on pinned books. *)
Lemma Run_triple B V :
  triple G (state G (eq Idle) B V) (Run cfg OK) (λ _, state G (eq Ready) B V).
Proof.
  apply triple_of_spec. intros w (ph & ? & Hw & Hb & Hl); subst ph.
  destruct (Run_spec cfg G HG w Hw) as (w' & E & Hw' & Hb' & Hl').
  exists (), w'. split; [done|]. exists Ready. split_and!; try done; [congruence|].
  intros g. rewrite Hl'; auto.
Qed.

Lemma Reset_triple B V :
  triple G (state G (eq Waited) B V) (Reset cfg) (λ _, state G (eq Idle) B V).
Proof.
  apply triple_of_spec. intros w (ph & ? & Hw & Hb & Hl); subst ph.
  destruct (Reset_spec cfg G HG w Hw) as (w' & E & Hw' & Hb' & Hl').
  exists (), w'. split; [done|]. exists Idle. split_and!; try done; [congruence|].
  intros g. rewrite Hl'; auto.
Qed.

Lemma FlushAsync_triple B V :
  triple G (state G (eq Idle) B V) (FlushAsync cfg)
    (λ _, state G writable (flush_books B) V).
Proof.
  apply triple_of_spec. intros w (ph & ? & Hw & Hb & Hl); subst ph.
  destruct (FlushAsync_spec cfg G HG w Hw) as (w' & E & Hw' & Hb' & Hl').
  exists (), w'. split; [done|]. exists Out. split_and!; try done.
  - by right.
  - rewrite Hb', <- Hb. done.
  - intros g. rewrite Hl'; auto.
Qed.

Lemma Wait_triple B V :
  triple G (state G writable B V) (Wait cfg)
    (λ st w', (G → st = OK) ∧ state G (eq Waited) B V w').
Proof.
  apply triple_of_spec. intros w (ph & Hph & Hw & Hb & Hl).
  destruct (Wait_spec cfg G HG ph w Hph Hw) as (st & w' & E & Hw' & Hb' & Hl').
  exists st, w'. split; [done|]. split; [intros g; by apply Hl'|].
  exists Waited. split_and!; try done; [congruence|].
  intros g. destruct (Hl' g) as [_ ->]. auto.
Qed.

Lemma Apply_triple B V m :
  apply_check schema_ m = OK → (G → (view_write m V).2 = OK) →
  triple G (state G writable B V) (Apply cfg m)
    (λ st w', st = OK ∧ state G writable (apply_books m B) (view_write m V).1 w').
Proof.
  intros Hm Hv. apply triple_of_spec. intros w (ph & Hph & Hw & Hb & Hl).
  destruct (Apply_spec cfg G HG ph w m Hph Hw Hm) as (ph' & w' & E & Hph' & Hw' & Hb' & Hl').
  { intros g. rewrite Hl by done. auto. }
  exists OK, w'. split; [done|]. split; [done|].
  exists ph'. split_and!; try done.
  - rewrite Hb', <- Hb. done.
  - intros g. rewrite Hl', Hl by done. done.
Qed.



(** [ASSERT_OK(e)] / [CHECK_OK(e)] where [e] is [OK] on a clean run and
    leaves a writer that obeys the protocol otherwise. *)
Lemma ASSERT_OK_triple P (c : M Status) (Q : World → Prop) :
  triple G P c (λ st w', (G → st = OK) ∧
                         (if ok st then Q w' else ∃ ph, TInv ph w')) →
  triple G P (ASSERT_OK c) (λ _, Q).
Proof.
  intros Hc. unfold ASSERT_OK. eapply triple_bind; [exact Hc|].
  intros st w [Hst Hw]. simpl in *. destruct (ok st) eqn:E; [done|].
  split; [done|]. intros g. rewrite Hst in E by done. done.
Qed.

Lemma state_TInv Φ B V w : state G Φ B V w → ∃ ph, TInv ph w.
Proof. intros (ph & _ & [? _] & _). eauto. Qed.

(** [WaitForLastBatchAndFlush] *)
Lemma WaitForLastBatchAndFlush_triple B V key :
  triple G (state G writable B V) (WaitForLastBatchAndFlush cfg key)
    (λ st w', (G → st = OK) ∧
       (if ok st then state G writable (trigger_books cfg key B) V w'
        else ∃ ph, TInv ph w')).
Proof.
  unfold WaitForLastBatchAndFlush, trigger_books.
  destruct (decide (Z.rem key (kSessionBatchSize cfg) = 0)) as [_|_].
  2:{ by apply triple_ret. }
  eapply triple_bind; [apply Wait_triple|].
  intros st. destruct (ok st) eqn:E.
  - apply triple_pure. intros Hst.
    eapply triple_bind; [apply Reset_triple|]. intros [].
    eapply triple_bind; [apply FlushAsync_triple|]. intros [].
    by apply triple_ret.
  - apply triple_ret. intros w [Hst Hw]. rewrite E. split; [done|].
    by eapply state_TInv.
Qed.

Lemma ASSERT_trigger B V key :
  triple G (state G writable B V) (ASSERT_OK (WaitForLastBatchAndFlush cfg key))
    (λ _, state G writable (trigger_books cfg key B) V).
Proof. apply ASSERT_OK_triple, WaitForLastBatchAndFlush_triple. Qed.

Lemma ASSERT_Apply B V m :
  apply_check schema_ m = OK → (G → (view_write m V).2 = OK) →
  triple G (state G writable B V) (ASSERT_OK (Apply cfg m))
    (λ _, state G writable (apply_books m B) (view_write m V).1).
Proof.
  intros Hm Hv. apply ASSERT_OK_triple.
  eapply triple_conseq; [done| |by apply Apply_triple].
  intros st w' [-> Hw]. done.
Qed.

Lemma ASSERT_Wait B V :
  triple G (state G writable B V) (ASSERT_OK (Wait cfg))
    (λ _, state G (eq Waited) B V).
Proof.
  apply ASSERT_OK_triple.
  eapply triple_conseq; [done| |by apply Wait_triple].
  intros st w' [Hst Hw]. split; [done|]. destruct (ok st); [done|].
  by eapply state_TInv.
Qed.

Lemma MakeRow_made kind key val :
  MakeRow key val (empty_row schema_) =
    Pass (op_row (made kind key val)).
Proof. reflexivity. Qed.

Lemma apply_check_made kind key val : apply_check schema_ (made kind key val) = OK.
Proof. reflexivity. Qed.

End Triples.

(** ** [InsertBaseData] *)

Section Insert.
Context (cfg : Config).

Lemma preamble_bind {A} (k : M A) w :
  (CreateSession;; NewSynchronizer;; k) w = k (fresh_writer w).
Proof. reflexivity. Qed.

Lemma fresh_state G w V :
  (G → tablet_inv (w_tablet w) ∧ view (w_tablet w) = V) →
  state G (eq Idle) (fresh_books (w_stop w)) V (fresh_writer w).
Proof.
  intros Hg. exists Idle. split_and!; try done.
  - split.
    + split; simpl; try done. exists None. split; [|done]. intros i.
      unfold seen. simpl. done.
    + intros g. split; simpl; try done. by apply Hg.
  - intros g. by apply Hg.
Qed.

Lemma insert_rows_lookup i k :
  insert_rows i !! k =
    if decide (0 ≤ k < Z.of_nat i) then Some (row_of k 0) else None.
Proof.
  induction i as [|i IH].
  { simpl. rewrite lookup_empty. destruct (decide (0 ≤ k < Z.of_nat 0)); [lia|done]. }
  cbn [insert_rows]. rewrite lookup_insert, IH.
  destruct (decide (Z.of_nat i = k)), (decide (0 ≤ k < Z.of_nat i)),
    (decide (0 ≤ k < Z.of_nat (S i))); subst; try done; lia.
Qed.

Lemma view_write_insert key val (v : gmap Z Row) :
  v !! key = None →
  view_write (made OpInsert key val) v = (<[key := row_of key val]> v, OK).
Proof. intros Hv. unfold view_write. simpl. by rewrite Hv. Qed.

Lemma rem_self K : Z.rem K K = 0.
Proof. destruct (decide (K = 0)) as [->|?]; [done|]. by apply Z.rem_same. Qed.

Lemma trigger_books_self B :
  trigger_books cfg (kSessionBatchSize cfg) B = flush_books B.
Proof. unfold trigger_books. by rewrite decide_True by apply rem_self. Qed.

(** [InsertBaseData] once the session and the signal are created and
    [MakeRow] has filled the rows. *)
Lemma InsertBaseData_eq w :
  InsertBaseData cfg w =
    (Run cfg OK;;
     for_keys (insert_body cfg) 0 (Z.to_nat (FLAGS_row_count cfg));;
     ASSERT_OK (WaitForLastBatchAndFlush cfg (kSessionBatchSize cfg));;
     ASSERT_OK (Wait cfg)) (fresh_writer w).
Proof. unfold InsertBaseData. rewrite preamble_bind. reflexivity. Qed.

Lemma InsertBaseData_triple w0 :
  triple (clean_insert cfg w0) (eq w0) (InsertBaseData cfg)
    (λ _, state (clean_insert cfg w0) (eq Waited)
       (flush_books (insert_books cfg (w_stop w0) (Z.to_nat (FLAGS_row_count cfg))))
       (insert_rows (Z.to_nat (FLAGS_row_count cfg)))).
Proof.
  set (G := clean_insert cfg w0).
  assert (G → transport_ok cfg) as HG by (by intros [? _]).
  assert (triple G
    (state G (eq Idle) (insert_books cfg (w_stop w0) 0) (insert_rows 0))
    (Run cfg OK;;
     for_keys (insert_body cfg) 0 (Z.to_nat (FLAGS_row_count cfg));;
     ASSERT_OK (WaitForLastBatchAndFlush cfg (kSessionBatchSize cfg));;
     ASSERT_OK (Wait cfg))
    (λ _, state G (eq Waited)
       (flush_books (insert_books cfg (w_stop w0) (Z.to_nat (FLAGS_row_count cfg))))
       (insert_rows (Z.to_nat (FLAGS_row_count cfg))))) as Hrest; last first.
  { intros w <-. rewrite InsertBaseData_eq.
    apply (Hrest (fresh_writer w0)).
    apply fresh_state. by intros (_ & ? & ?). }
  eapply triple_bind; [by apply Run_triple|]. intros [].
  apply (triple_bind G _ _ (λ _, state G writable
    (insert_books cfg (w_stop w0) (Z.to_nat (FLAGS_row_count cfg)))
    (insert_rows (Z.to_nat (FLAGS_row_count cfg))))).
  { eapply triple_conseq; [| |apply (for_keys_triple G
      (λ i, state G writable (insert_books cfg (w_stop w0) i) (insert_rows i)))].
    - intros w (ph & <- & H). exists Ready. split; [by left|done].
    - intros [] w H. exact H.
    - intros i Hi. rewrite Z.add_0_l. unfold insert_body.
      eapply triple_bind.
      + apply ASSERT_Apply; [done|apply apply_check_made|].
        intros _. rewrite view_write_insert; [done|].
        rewrite insert_rows_lookup. destruct (decide _); [lia|done].
      + intros []. rewrite view_write_insert.
        2:{ rewrite insert_rows_lookup. destruct (decide _); [lia|done]. }
        by apply ASSERT_trigger. }
  intros []. eapply triple_bind; [by apply ASSERT_trigger|]. intros [].
  rewrite trigger_books_self. by apply ASSERT_Wait.
Qed.

End Insert.

(** ** From the invariant to the properties of a history *)

Lemma calm_one_outstanding h : calm h → one_outstanding h.
Proof.
  intros Hc h1. revert h Hc. induction h1 as [|e h1 IH]; intros h Hc h2 ->.
  - simpl. destruct h2 as [|e t]; [simpl; lia|]. by destruct Hc.
  - destruct Hc as [_ Hc]. by eapply IH.
Qed.

Lemma orderly_waited_before_next h : orderly h → waited_before_next h.
Proof.
  intros Ho h1. revert h Ho. induction h1 as [|e h1 IH]; intros h Ho N b h2 ->.
  - by destruct Ho.
  - destruct Ho as [_ Ho]. by eapply IH.
Qed.

Lemma TInv_protocol ph w :
  TInv ph w →
  one_outstanding (w_log w) ∧ waited_before_next (w_log w) ∧ numbered (w_log w).
Proof.
  intros [Hc Ho Hi Hn _ _ _]. split_and!.
  - by apply calm_one_outstanding.
  - by apply orderly_waited_before_next.
  - unfold numbered. by rewrite Hi, Hn.
Qed.

(** In a writer that has nothing outstanding and nothing unobserved, every
    flush was observed by exactly one [Wait]. *)
Lemma TInv_all_seen ph w :
  ph = Idle ∨ ph = Waited → TInv ph w →
  w_inflight w = [] ∧ ∀ i, (i < w_issued w)%nat → seen i (w_log w) = 1%nat.
Proof.
  intros Hph [_ _ _ _ _ _ (u & Hs & Hp)].
  assert (w_inflight w = [] ∧ u = None) as [Hf ->].
  { destruct Hph as [-> | ->]; simpl in Hp.
    - by destruct Hp as (? & _ & _ & ?).
    - by destruct Hp as (? & _ & ?). }
  split; [done|]. intros i Hi. rewrite Hs. by rewrite decide_True.
Qed.

(** ** Scanning the table the insert loop leaves *)

Lemma Sorted_seqZ m n : Sorted Z.le (seqZ m n).
Proof.
  destruct (decide (0 ≤ n)) as [Hn|Hn]; [|rewrite seqZ_nil by lia; constructor].
  rewrite <- (Z2Nat.id n) by done. generalize (Z.to_nat n). clear n Hn.
  intros k. revert m. induction k as [|k IH]; intros m.
  { rewrite seqZ_nil by lia. constructor. }
  rewrite seqZ_cons by lia. constructor.
  - replace (Z.pred (Z.of_nat (S k))) with (Z.of_nat k) by lia. apply IH.
  - replace (Z.pred (Z.of_nat (S k))) with (Z.of_nat k) by lia.
    destruct k as [|k]; [rewrite seqZ_nil by lia; constructor|].
    rewrite seqZ_cons by lia. constructor. lia.
Qed.

Lemma scan_keys_range t n :
  (∀ k, is_Some (view t !! k) ↔ 0 ≤ k < n) → scan_keys t = seqZ 0 n.
Proof.
  intros Hk. unfold scan_keys. apply (Sorted_unique Z.le).
  - apply Sorted_merge_sort. apply _.
  - apply Sorted_seqZ.
  - rewrite merge_sort_Permutation. apply NoDup_Permutation.
    + apply NoDup_elements.
    + apply NoDup_seqZ.
    + intros k. rewrite elem_of_elements, elem_of_dom, Hk, elem_of_seqZ. lia.
Qed.

Lemma scan_rows_insert_rows t n :
  view t = insert_rows n →
  scan_rows t = (λ k, row_of k 0) <$> seqZ 0 (Z.of_nat n).
Proof.
  intros Hv. unfold scan_rows. rewrite (scan_keys_range t (Z.of_nat n)).
  2:{ intros k. rewrite Hv, insert_rows_lookup.
      destruct (decide (0 ≤ k < Z.of_nat n)) as [H|H].
      - split; [done|]. intros _. by eexists.
      - split; [|done]. by intros [? ?]. }
  rewrite Hv. clear Hv t.
  assert (∀ l, Forall (λ k, 0 ≤ k < Z.of_nat n) l →
    omap (λ k, insert_rows n !! k) l = (λ k, row_of k 0) <$> l) as H.
  { induction l as [|k l IH]; intros Hl; [done|].
    apply Forall_cons in Hl as [Hk Hl]. cbn [omap list_omap fmap list_fmap].
    rewrite insert_rows_lookup, decide_True by done.
    f_equal. by apply IH. }
  apply H. apply Forall_seqZ. lia.
Qed.

(** ** The books of the insert loop *)

Section InsertBooks.
Context (cfg : Config) (stop : nat).
Local Abbreviation K := (kSessionBatchSize cfg).
Local Abbreviation ins := (λ k, made OpInsert k 0).

Lemma div_eq a b q r : 0 ≤ r < b → a = b * q + r → a / b = q.
Proof. intros. symmetry. apply (Z.div_unique a b q r); [by left|done]. Qed.

Lemma mod_eq a b q r : 0 ≤ r < b → a = b * q + r → a mod b = r.
Proof. intros. symmetry. apply (Z.mod_unique a b q r); [by left|done]. Qed.

Lemma rem_trigger i :
  0 < K → 0 ≤ i →
  (Z.rem i K = 0 → triggers cfg (i + 1) = triggers cfg i + 1 ∧ i = triggers cfg i * K) ∧
  (Z.rem i K ≠ 0 → triggers cfg (i + 1) = triggers cfg i).
Proof.
  intros HK Hi. rewrite Z.rem_mod_nonneg by lia. unfold triggers.
  pose proof (Z.div_mod i K ltac:(lia)) as Hdm.
  pose proof (Z.mod_pos_bound i K HK) as Hb.
  split; intros H.
  - rewrite (div_eq (i + K - 1) K (i / K) (K - 1)) by lia.
    rewrite (div_eq (i + 1 + K - 1) K (i / K + 1) 0) by lia. lia.
  - rewrite (div_eq (i + K - 1) K (i / K + 1) (i mod K - 1)) by lia.
    rewrite (div_eq (i + 1 + K - 1) K (i / K + 1) (i mod K)) by lia. done.
Qed.

Lemma triggers_0 : 0 < K → triggers cfg 0 = 0.
Proof. intros HK. unfold triggers. apply Z.div_small. lia. Qed.

Lemma triggers_nonneg i : 0 < K → 0 ≤ i → 0 ≤ triggers cfg i.
Proof. intros. unfold triggers. apply Z.div_pos; lia. Qed.

Lemma insert_books_applied i :
  bk_applied (insert_books cfg stop i) = ins <$> seqZ 0 (Z.of_nat i).
Proof.
  induction i as [|i IH]; [done|].
  cbn [insert_books]. unfold trigger_books.
  rewrite seqZ_S, fmap_app. simpl.
  destruct (decide _); simpl; by rewrite IH.
Qed.



(** The shape of the batches: batch [q] ends with key [q * K], the first has
    one mutation and the others [K]; what is queued after key [i - 1] are the
    keys since the last trigger. *)
Lemma insert_books_shape i :
  0 < K →
  length (bk_flushed (insert_books cfg stop i)) = Z.to_nat (triggers cfg (Z.of_nat i)) ∧
  bk_issued (insert_books cfg stop i) = Z.to_nat (triggers cfg (Z.of_nat i)) ∧
  (∀ q b, bk_flushed (insert_books cfg stop i) !! q = Some b →
     last b = Some (ins (Z.of_nat q * K)) ∧
     length b = if decide (q = 0%nat) then 1%nat else Z.to_nat K) ∧
  Z.of_nat (length (bk_pending (insert_books cfg stop i))) =
    (if decide (i = 0%nat) then 0 else (Z.of_nat i - 1) mod K).
Proof.
  intros HK. induction i as [|i (IHl & IHi & IHb & IHp)].
  { change (Z.of_nat 0) with 0. rewrite triggers_0 by done. split_and!; try done. }
  cbn [insert_books]. set (B := insert_books cfg stop i) in *.
  destruct (rem_trigger (Z.of_nat i) HK ltac:(lia)) as [Hyes Hno].
  pose proof (triggers_nonneg (Z.of_nat i) HK ltac:(lia)) as Hnn.
  replace (Z.of_nat (S i)) with (Z.of_nat i + 1) by lia.
  rewrite decide_False by lia.
  replace (Z.of_nat i + 1 - 1) with (Z.of_nat i) by lia.
  unfold trigger_books. destruct (decide (Z.rem (Z.of_nat i) K = 0)) as [E|E].
  - destruct (Hyes E) as [-> Hi]. simpl.
    rewrite Z.rem_mod_nonneg in E by lia. rewrite E.
    split_and!.
    + rewrite length_app, IHl. simpl. lia.
    + rewrite IHi. lia.
    + intros q b Hq. apply lookup_app_Some in Hq as [Hq|[Hlen Hq]].
      { by apply IHb. }
      apply list_lookup_singleton_Some in Hq as [Hq <-].
      assert (q = Z.to_nat (triggers cfg (Z.of_nat i))) as -> by lia.
      split.
      * rewrite last_snoc. do 2 f_equal. lia.
      * rewrite length_app. simpl.
        destruct (decide (Z.to_nat (triggers cfg (Z.of_nat i)) = 0%nat)) as [Hz|Hz].
        -- assert (triggers cfg (Z.of_nat i) = 0) as Hz' by lia.
           rewrite Hz' in Hi. rewrite decide_True in IHp by lia. lia.
        -- rewrite decide_False in IHp by lia.
           rewrite (mod_eq (Z.of_nat i - 1) K (triggers cfg (Z.of_nat i) - 1) (K - 1)) in IHp by lia.
           lia.
    + done.
  - rewrite (Hno E). simpl. split_and!; try done.
    rewrite length_app. simpl.
    rewrite Z.rem_mod_nonneg in E by lia.
    destruct (decide (i = 0%nat)) as [->|Hne]; [done|].
    pose proof (Z.div_mod (Z.of_nat i - 1) K ltac:(lia)).
    pose proof (Z.mod_pos_bound (Z.of_nat i - 1) K HK).
    assert ((Z.of_nat i - 1) mod K + 1 < K).
    { destruct (decide ((Z.of_nat i - 1) mod K + 1 = K)) as [Heq|]; [|lia].
      exfalso. apply E.
      apply (mod_eq _ _ ((Z.of_nat i - 1) / K + 1) 0); lia. }
    rewrite (mod_eq (Z.of_nat i) K ((Z.of_nat i - 1) / K) ((Z.of_nat i - 1) mod K + 1)) by lia.
    lia.
Qed.

End InsertBooks.

(** ** Runs of [InsertBaseData] *)

Lemma empty_tablet_inv : tablet_inv empty_tablet.
Proof.
  split; simpl.
  - intros k. left. apply lookup_empty.
  - intros du kc []%elem_of_nil.
  - constructor.
  - constructor.
Qed.

Lemma created_clean cfg stop :
  transport_ok cfg → clean_insert cfg (created stop).
Proof.
  intros Ht. split_and!; [done|apply empty_tablet_inv|].
  apply map_eq. intros k. rewrite lookup_view. simpl. by rewrite !lookup_empty.
Qed.

Lemma quiet_transport_ok K n : transport_ok (quiet K n).
Proof. by intros i. Qed.

Lemma busy_transport_ok K n : transport_ok (busy K n).
Proof. by intros i. Qed.

Lemma busy_served K n : served (busy K n).
Proof.
  intros i. exists (1 + i * 3)%nat. split; [lia|].
  change (Some ((1 + i * 3) mod 3)%nat ≠ Some 0%nat).
  rewrite Nat.Div0.mod_add. by intros [=].
Qed.

Lemma seqZ_to_nat m n : seqZ m (Z.of_nat (Z.to_nat n)) = seqZ m n.
Proof. unfold seqZ. by rewrite Nat2Z.id. Qed.

(** Whatever the environment does, the writer of [InsertBaseData] obeys the
    protocol, and it never blocks. *)
Lemma InsertBaseData_safe cfg w0 :
  ∃ ph, TInv ph (final (InsertBaseData cfg w0)) ∧
        ∀ w', InsertBaseData cfg w0 ≠ Hang w'.
Proof.
  pose proof (InsertBaseData_triple cfg w0 w0 eq_refl) as H.
  destruct (InsertBaseData cfg w0) as [[] w'|st w'|w']; simpl; [| |done].
  - destruct H as (ph & _ & [HT _] & _). eauto.
  - destruct H as [[ph HT] _]. eauto.
Qed.

(** On a clean run it returns, with the books of the loop, the pipeline
    drained and the rows of all keys in the tablet. *)
Lemma InsertBaseData_clean cfg w0 :
  clean_insert cfg w0 →
  ∃ w', InsertBaseData cfg w0 = Ret () w' ∧ TInv Waited w' ∧
    tablet_inv (w_tablet w') ∧
    books w' = flush_books (insert_books cfg (w_stop w0)
                              (Z.to_nat (FLAGS_row_count cfg))) ∧
    view (w_tablet w') = insert_rows (Z.to_nat (FLAGS_row_count cfg)).
Proof.
  intros g. pose proof (InsertBaseData_triple cfg w0 w0 eq_refl) as H.
  destruct (InsertBaseData cfg w0) as [[] w'|st w'|w']; simpl; [|by destruct H|done].
  destruct H as (ph & <- & [HT HD] & Hb & Hl).
  exists w'. split_and!; try done.
  - by apply HD.
  - rewrite <- Hl by done. unfold lview, queued.
    pose proof HT as [_ _ _ _ _ _ (u & _ & -> & _)].
    assert (w_pending w' = []) as ->; [|done].
    change (w_pending w') with (bk_pending (books w')). by rewrite Hb.
Qed.

(** ** [UpdateRows] *)

Section Update.
Context (cfg : Config) (G : Prop) (v0 : gmap Z Row).
Context (HG : G → transport_ok cfg).
Context (Hrows : G → ∀ k, 0 ≤ k < FLAGS_row_count cfg →
                       ∃ r, v0 !! k = Some r ∧ length r = 3%nat).

Lemma stop_triple Φ B V :
  triple G (state G Φ B V) stop_latch_running
    (λ b w', match bk_stop B with
             | O => b = false ∧ state G Φ B V w'
             | S s => b = true ∧ state G Φ (stop_books s B) V w'
             end).
Proof.
  apply triple_of_spec. intros w (ph & Hph & Hw & Hb & Hl).
  unfold stop_latch_running.
  assert (w_stop w = bk_stop B) as Hs by (by rewrite <- Hb).
  rewrite <- Hs. destruct (w_stop w) as [|s] eqn:E.
  - exists false, w. split; [done|]. split; [done|]. by exists ph.
  - exists true, (set_stop s w). split; [done|]. split; [done|].
    exists ph. split_and!; try done.
    + by apply Inv_set_stop.
    + rewrite <- Hb. done.
Qed.

Lemma vals_snoc k ms key val :
  vals k (ms ++ [made OpUpdate key val]) =
    vals k ms ++ (if decide (key = k) then [val] else []).
Proof.
  unfold vals. rewrite omap_app. f_equal. simpl.
  by destruct (decide (key = k)).
Qed.

Lemma view_write_update key val (v : gmap Z Row) r :
  v !! key = Some r → length r = 3%nat →
  view_write (made OpUpdate key val) v = (<[key := row_of key val]> v, OK).
Proof.
  intros Hv Hr. unfold view_write. simpl. rewrite Hv.
  destruct r as [|a [|b [|c [|]]]]; simpl in Hr; try done.
Qed.

Lemma upd_inv_stop it j B V s :
  upd_inv G v0 it j B V → upd_inv G v0 it j (stop_books s B) V.
Proof. by intros []. Qed.

Lemma upd_inv_row it j B V k :
  G → upd_inv G v0 it j B V → 0 ≤ k < FLAGS_row_count cfg →
  ∃ r, V !! k = Some r ∧ length r = 3%nat.
Proof.
  intros g [Hv _ _ _ _] Hk. rewrite Hv by done.
  destruct (last _) as [v|]; [by eexists|]. by apply Hrows.
Qed.

Lemma StronglySorted_snoc (l : list Z) x :
  StronglySorted Z.lt l → Forall (λ y, y < x) l → StronglySorted Z.lt (l ++ [x]).
Proof.
  intros Hl Hx. apply StronglySorted_app_2; [|done|repeat constructor].
  intros y z Hy ->%list_elem_of_singleton.
  by apply (proj1 (Forall_forall _ _) Hx).
Qed.

(** Applying the update of key [j] in pass [it]. *)
Lemma upd_inv_apply it j B V :
  1 ≤ it → 0 ≤ j < FLAGS_row_count cfg →
  upd_inv G v0 it j B V →
  upd_inv G v0 it (j + 1) (apply_books (made OpUpdate j it) B)
    (view_write (made OpUpdate j it) V).1.
Proof.
  intros Hit Hj HI. pose proof HI as [Hv Hs Hb Hf Hp]. split; simpl.
  - intros g k.
    destruct (upd_inv_row it j B V j g HI Hj) as (r & Hr & Hlen).
    rewrite (view_write_update j it V r Hr Hlen). simpl.
    rewrite vals_snoc, lookup_insert.
    destruct (decide (j = k)) as [->|Hne].
    + by rewrite last_snoc.
    + rewrite app_nil_r. by apply Hv.
  - intros k. rewrite vals_snoc. destruct (decide (j = k)) as [->|Hne].
    + apply StronglySorted_snoc; [done|].
      eapply Forall_impl; [apply Hb|]. simpl. lia.
    + by rewrite app_nil_r.
  - intros k. rewrite vals_snoc. apply Forall_app. split.
    + eapply Forall_impl; [apply Hb|]. simpl. lia.
    + destruct (decide (j = k)) as [->|Hne]; [|done].
      apply Forall_singleton. lia.
  - done.
  - intros k. rewrite vals_snoc. destruct (Hp k) as [Hlen Hnil].
    destruct (decide (j = k)) as [->|Hne].
    + rewrite Hnil by lia. simpl. split; [lia|]. lia.
    + rewrite app_nil_r. split; [done|]. intros ?. apply Hnil. lia.
Qed.

Lemma upd_inv_flush it j B V :
  upd_inv G v0 it j B V → upd_inv G v0 it j (flush_books B) V.
Proof.
  intros [Hv Hs Hb Hf Hp]. split; simpl; try done.
  - intros k. apply Forall_app. split; [done|].
    apply Forall_singleton. apply Hp.
  - intros k. split; [simpl; lia|done].
Qed.

Lemma upd_inv_trigger it j key B V :
  upd_inv G v0 it j B V → upd_inv G v0 it j (trigger_books cfg key B) V.
Proof.
  intros HI. unfold trigger_books. destruct (decide _); [|done].
  by apply upd_inv_flush.
Qed.

Lemma upd_inv_next it j B V :
  bk_pending B = [] → upd_inv G v0 it j B V → upd_inv G v0 (it + 1) 0 B V.
Proof.
  intros Hpe [Hv Hs Hb Hf Hp]. split; try done.
  - intros k. eapply Forall_impl; [apply Hb|]. simpl. lia.
  - intros k. rewrite Hpe. split; [simpl; lia|done].
Qed.

Lemma upd_inv_init s : upd_inv G v0 1 0 (fresh_books s) v0.
Proof.
  split; simpl; [done|by constructor..|].
  intros k. split; [simpl; lia|done].
Qed.

Lemma bk_stop_trigger key B : bk_stop (trigger_books cfg key B) = bk_stop B.
Proof. unfold trigger_books. by destruct (decide _). Qed.

Lemma CHECK_OK_eq c : CHECK_OK c = ASSERT_OK c.
Proof. reflexivity. Qed.

Lemma state_weaken (Φ Φ' : Phase → Prop) B V w :
  (∀ ph, Φ ph → Φ' ph) → state G Φ B V w → state G Φ' B V w.
Proof. intros H (ph & Hph & Hw). exists ph. split; [by apply H|done]. Qed.

(** The inner loop. *)
Lemma update_pass_triple f it c j :
  1 ≤ it → 0 ≤ j → j + Z.of_nat c ≤ Z.max (FLAGS_row_count cfg) j →
  triple G
    (λ w, ∃ B V, (upd_inv G v0 it j B V ∧ (bk_stop B ≤ f)%nat) ∧
                 state G writable B V w)
    (update_pass cfg it j c)
    (λ _ w', ∃ j' B V, (upd_inv G v0 it j' B V ∧ (bk_stop B ≤ f)%nat) ∧
                       state G writable B V w').
Proof.
  intros Hit. revert j. induction c as [|c IH]; intros j Hj Hn.
  { apply triple_ret. intros w (B & V & H). by exists j, B, V. }
  apply triple_exists. intros B. apply triple_exists. intros V.
  apply triple_pure. intros [HI Hf].
  change (update_pass cfg it j (S c)) with
    (running ← stop_latch_running;
     if running : bool then
       CHECK_OK (Apply cfg (made OpUpdate j it));;
       CHECK_OK (WaitForLastBatchAndFlush cfg j);;
       update_pass cfg it (j + 1) c
     else mret ()).
  eapply triple_bind; [apply stop_triple|].
  intros b. destruct (bk_stop B) as [|s] eqn:Es.
  - apply triple_pure. intros ->. apply triple_ret.
    intros w Hw. exists j, B, V. split; [|done]. split; [done|lia].
  - apply triple_pure. intros ->. rewrite !CHECK_OK_eq.
    eapply triple_bind.
    { apply ASSERT_Apply; [done|apply apply_check_made|].
      intros g. destruct (upd_inv_row it j B V j g HI) as (r & Hr & Hlen); [lia|].
      by rewrite (view_write_update j it V r Hr Hlen). }
    intros []. eapply triple_bind; [by apply ASSERT_trigger|].
    intros []. eapply triple_conseq; [| |apply (IH (j + 1))]; try lia.
    + intros w Hw. eexists _, _. split; [|exact Hw]. split.
      * apply upd_inv_trigger, upd_inv_apply; try done; try lia.
        by apply upd_inv_stop.
      * rewrite bk_stop_trigger. simpl. lia.
    + done.
Qed.

(** The outer loop. *)
Lemma update_loop_triple fuel it :
  1 ≤ it →
  triple G
    (λ w, ∃ B V, (upd_inv G v0 it 0 B V ∧ bk_pending B = [] ∧
                  (bk_stop B ≤ fuel)%nat) ∧
                 state G (eq Idle) B V w)
    (update_loop cfg fuel it)
    (λ _ w', ∃ it' j' B V, (upd_inv G v0 it' j' B V ∧ bk_pending B = [] ∧
                            bk_stop B = 0%nat) ∧
                           state G (eq Idle) B V w').
Proof.
  revert it. induction fuel as [|fuel IH]; intros it Hit;
    apply triple_exists; intros B; apply triple_exists; intros V;
    apply triple_pure; intros (HI & Hpe & Hf).
  - change (update_loop cfg 0 it) with
      (running ← stop_latch_running; if running : bool then hang else mret ()).
    eapply triple_bind; [apply stop_triple|].
    intros b. destruct (bk_stop B) as [|s] eqn:Es; [|lia].
    apply triple_pure. intros ->. apply triple_ret.
    intros w Hw. by exists it, 0, B, V.
  - change (update_loop cfg (S fuel) it) with
      (running ← stop_latch_running;
       if running : bool then
         Run cfg OK;;
         update_pass cfg it 0 (Z.to_nat (FLAGS_row_count cfg));;
         CHECK_OK (WaitForLastBatchAndFlush cfg (kSessionBatchSize cfg));;
         CHECK_OK (Wait cfg);;
         Reset cfg;;
         update_loop cfg fuel (it + 1)
       else mret ()).
    eapply triple_bind; [apply stop_triple|].
    intros b. destruct (bk_stop B) as [|s] eqn:Es.
    { apply triple_pure. intros ->. apply triple_ret.
      intros w Hw. by exists it, 0, B, V. }
    apply triple_pure. intros ->. rewrite !CHECK_OK_eq.
    eapply triple_bind; [by apply Run_triple|]. intros [].
    eapply triple_bind.
    { eapply triple_conseq;
        [| |apply (update_pass_triple fuel it (Z.to_nat (FLAGS_row_count cfg)) 0)];
        try lia.
      - intros w Hw. exists (stop_books s B), V. split.
        + split; [by apply upd_inv_stop|simpl; lia].
        + eapply state_weaken; [|exact Hw]. intros ph <-. by left.
      - intros a w Hw. exact Hw. }
    intros []. apply triple_exists. intros j'.
    apply triple_exists. intros B'. apply triple_exists. intros V'.
    apply triple_pure. intros [HI' Hf']. rewrite ?CHECK_OK_eq.
    eapply triple_bind; [by apply ASSERT_trigger|]. intros [].
    rewrite trigger_books_self.
    eapply triple_bind; [by apply ASSERT_Wait|]. intros [].
    eapply triple_bind; [by apply Reset_triple|]. intros [].
    eapply triple_conseq; [| |apply (IH (it + 1))]; try lia.
    + intros w Hw. exists (flush_books B'), V'. split; [|done].
      split_and!; [|done|done].
      eapply upd_inv_next; [|by apply upd_inv_flush]. done.
    + done.
Qed.

End Update.

(** [UpdateRows] on a table that holds the rows. *)
Lemma UpdateRows_triple cfg w0 :
  triple (clean_update cfg w0) (eq w0) (UpdateRows cfg)
    (λ _ w', ∃ it j B V,
       (upd_inv (clean_update cfg w0) (view (w_tablet w0)) it j B V ∧
        bk_pending B = [] ∧ bk_stop B = 0%nat) ∧
       state (clean_update cfg w0) (eq Idle) B V w').
Proof.
  set (G := clean_update cfg w0). set (v0 := view (w_tablet w0)).
  assert (G → transport_ok cfg) as HG by (by intros [? _]).
  assert (G → ∀ k, 0 ≤ k < FLAGS_row_count cfg →
            ∃ r, v0 !! k = Some r ∧ length r = 3%nat) as Hrows
    by (by intros (_ & _ & ?)).
  intros w <-. unfold UpdateRows. rewrite preamble_bind.
  apply (update_loop_triple cfg G v0 HG Hrows (w_stop w0) 1 ltac:(lia)).
  exists (fresh_books (w_stop w0)), v0. split.
  - split_and!; [apply upd_inv_init|done|simpl; lia].
  - apply fresh_state. by intros (_ & ? & _).
Qed.

(** ** Runs of [UpdateRows] *)

Lemma UpdateRows_safe cfg w0 :
  ∃ ph, TInv ph (final (UpdateRows cfg w0)) ∧
        ∀ w', UpdateRows cfg w0 ≠ Hang w'.
Proof.
  pose proof (UpdateRows_triple cfg w0 w0 eq_refl) as H.
  destruct (UpdateRows cfg w0) as [[] w'|st w'|w']; simpl; [| |done].
  - destruct H as (it & j & B & V & _ & ph & _ & [HT _] & _). eauto.
  - destruct H as [[ph HT] _]. eauto.
Qed.

(** On a clean run the update thread ends, in the idle phase with nothing
    queued, and the tablet reads the last value applied to each key. *)
Lemma UpdateRows_clean cfg w0 :
  clean_update cfg w0 →
  ∃ w' it j, UpdateRows cfg w0 = Ret () w' ∧ TInv Idle w' ∧
    w_pending w' = [] ∧ w_stop w' = 0%nat ∧ tablet_inv (w_tablet w') ∧
    upd_inv True (view (w_tablet w0)) it j (books w') (view (w_tablet w')).
Proof.
  intros g. pose proof (UpdateRows_triple cfg w0 w0 eq_refl) as H.
  destruct (UpdateRows cfg w0) as [[] w'|st w'|w']; simpl; [|by destruct H|done].
  destruct H as (it & j & B & V & (HI & Hpe & Hst) & ph & <- & [HT HD] & Hb & Hl).
  assert (w_pending w' = []) as Hpe'.
  { change (w_pending w') with (bk_pending (books w')). by rewrite Hb. }
  assert (view (w_tablet w') = V) as Hv.
  { rewrite <- Hl by done. unfold lview, queued.
    pose proof HT as [_ _ _ _ _ _ (u & _ & -> & _)]. by rewrite Hpe'. }
  exists w', it, j. split_and!; try done.
  - change (w_stop w') with (bk_stop (books w')). by rewrite Hb.
  - by apply HD.
  - rewrite Hb, Hv. destruct HI as [H1 H2 H3 H4 H5]. split; auto.
Qed.

Lemma elem_of_scan_rows t k r : view t !! k = Some r → r ∈ scan_rows t.
Proof.
  intros Hk. unfold scan_rows. apply list_elem_of_omap. exists k. split; [|done].
  unfold scan_keys. rewrite merge_sort_Permutation.
  apply elem_of_elements, elem_of_dom. by eexists.
Qed.

Lemma populated_clean cfg n stop :
  transport_ok cfg → FLAGS_row_count cfg ≤ n →
  clean_update cfg (populated n stop).
Proof.
  intros Ht Hn.
  destruct (InsertBaseData_clean (quiet 1000 n) (created 0))
    as (w' & E & _ & Htb & _ & Hv).
  { apply created_clean, quiet_transport_ok. }
  unfold populated. rewrite E. simpl in *.
  split_and!; [done|done|].
  intros k Hk. exists (row_of k 0). split; [|done].
  change (w_tablet (set_stop stop w')) with (w_tablet w').
  rewrite Hv, insert_rows_lookup.
  destruct (decide _); [done|lia].
Qed.

(** ** The history only grows *)

Section Extends.
Context (cfg : Config).

Lemma extends_ret {A} (a : A) : extends (mret a : M A).
Proof. intros w. by exists []. Qed.

Lemma extends_fail {A} st : extends (fail (A:=A) st).
Proof. intros w. by exists []. Qed.

Lemma extends_bind {A B} (c : M A) (f : A → M B) :
  extends c → (∀ a, extends (f a)) → extends (c ≫= f).
Proof.
  intros Hc Hf w. destruct (Hc w) as [n1 H1]. unfold mbind, M_bind.
  destruct (c w) as [a w'|st w'|w']; simpl in *; eauto.
  destruct (Hf a w') as [n2 H2]. exists (n2 ++ n1).
  by rewrite H2, H1, app_assoc.
Qed.

Lemma log_deliver w : ∃ new, w_log (deliver cfg w) = new ++ w_log w.
Proof.
  unfold deliver. destruct (w_inflight w) as [|[j b] rest]; [by exists []|].
  by eexists [_].
Qed.

Lemma log_deliver_n n w : ∃ new, w_log (deliver_n cfg n w) = new ++ w_log w.
Proof.
  revert w. induction n as [|n IH]; intros w; simpl; [by exists []|].
  destruct (log_deliver w) as [n1 H1]. destruct (IH (deliver cfg w)) as [n2 H2].
  exists (n2 ++ n1). by rewrite H2, H1, app_assoc.
Qed.

Lemma log_tick w : ∃ new, w_log (tick cfg w) = new ++ w_log w.
Proof.
  unfold tick. destruct (log_deliver_n (env_acks cfg (w_clock w))
    (set_clock (S (w_clock w))
       (set_tablet (run_maintenance (env_maintenance cfg (w_clock w)) (w_tablet w)) w)))
    as [new H].
  exists new. by rewrite H.
Qed.



Lemma extends_Reset : extends (Reset cfg).
Proof.
  intros w. destruct (log_tick w) as [n H]. exists (EvReset :: n).
  simpl. by rewrite H.
Qed.

Lemma extends_FlushAsync : extends (FlushAsync cfg).
Proof.
  intros w. destruct (log_tick w) as [n H]. eexists (_ :: n).
  simpl. by rewrite H.
Qed.

Lemma extends_Apply m : extends (Apply cfg m).
Proof.
  intros w. destruct (log_tick w) as [n H]. unfold Apply.
  destruct (ok (apply_check schema_ m)); simpl.
  - exists (EvApply m :: n). by rewrite H.
  - by exists n.
Qed.

Lemma log_await fuel k w :
  ∃ new, w_log (final (await cfg fuel k w)) = new ++ w_log w.
Proof.
  revert k w. induction fuel as [|fuel IH]; intros k w; simpl.
  - destruct (decide _); simpl; [by eexists [_]|by exists []].
  - destruct (decide _); simpl; [by eexists [_]|].
    destruct (w_inflight w) eqn:E; simpl; [by exists []|].
    destruct (IH (S k) (deliver cfg w)) as [n2 H2].
    destruct (log_deliver w) as [n1 H1].
    exists (n2 ++ n1). by rewrite H2, H1, app_assoc.
Qed.

Lemma extends_Wait : extends (Wait cfg).
Proof.
  intros w. unfold Wait. destruct (log_tick w) as [n1 H1].
  destruct (log_await (length (w_inflight (tick cfg w))) 0 (tick cfg w)) as [n2 H2].
  exists (n2 ++ n1). by rewrite H2, H1, app_assoc.
Qed.

Lemma extends_ASSERT_OK c : extends c → extends (ASSERT_OK c).
Proof.
  intros Hc. apply extends_bind; [done|]. intros st.
  destruct (ok st); [apply extends_ret|apply extends_fail].
Qed.

Lemma extends_WaitForLastBatchAndFlush key :
  extends (WaitForLastBatchAndFlush cfg key).
Proof.
  unfold WaitForLastBatchAndFlush. destruct (decide _); [|apply extends_ret].
  apply extends_bind; [apply extends_Wait|]. intros st.
  destruct (ok st); [|apply extends_ret].
  apply extends_bind; [apply extends_Reset|]. intros _.
  apply extends_bind; [apply extends_FlushAsync|]. intros _. apply extends_ret.
Qed.

Lemma extends_for_keys body k n :
  (∀ key, extends (body key)) → extends (for_keys body k n).
Proof.
  intros Hb. revert k. induction n as [|n IH]; intros k; simpl.
  - apply extends_ret.
  - apply extends_bind; [apply Hb|]. intros _. apply IH.
Qed.

Lemma log_bind_grows {A B} (c : M A) (f : A → M B) w :
  (∀ a, extends (f a)) →
  ∃ new, w_log (final ((c ≫= f) w)) = new ++ w_log (final (c w)).
Proof.
  intros Hf. unfold mbind, M_bind.
  destruct (c w) as [a w'|st w'|w']; simpl; [apply Hf|by exists []..].
Qed.

Lemma run_bind {A B} (c : M A) (f : A → M B) w a w' :
  c w = Ret a w' → (c ≫= f) w = f a w'.
Proof. unfold mbind, M_bind. by intros ->. Qed.

Lemma extends_insert_body key : extends (insert_body cfg key).
Proof.
  apply extends_bind; [apply extends_ASSERT_OK, extends_Apply|].
  intros _. apply extends_ASSERT_OK, extends_WaitForLastBatchAndFlush.
Qed.

Lemma waits_app h1 h2 : waits (h1 ++ h2) = waits h2 ++ waits h1.
Proof.
  induction h1 as [|e h1 IH]; simpl; [by rewrite app_nil_r|].
  destruct e; try done. by rewrite IH, app_assoc.
Qed.

(** A tick leaves a writer with nothing outstanding as it is. *)
Lemma tick_idle w :
  w_inflight w = [] →
  w_log (tick cfg w) = w_log w ∧ w_sync (tick cfg w) = w_sync w ∧
  w_inflight (tick cfg w) = [] ∧ w_pending (tick cfg w) = w_pending w.
Proof. intros Hf. unfold tick. by rewrite deliver_n_idle. Qed.

End Extends.

(** ** The scanner *)

Section Scanner.
Context (cfg : Config).

Lemma deliver_n_time n w :
  w_clock (deliver_n cfg n w) = w_clock w ∧
  w_stop (deliver_n cfg n w) = w_stop w.
Proof.
  revert w. induction n as [|n IH]; intros w; simpl; [done|].
  destruct (IH (deliver cfg w)) as [-> ->].
  unfold deliver. by destruct (w_inflight w) as [|[id batch] rest].
Qed.

Lemma tick_time w :
  w_clock (tick cfg w) = S (w_clock w) ∧ w_stop (tick cfg w) = w_stop w.
Proof. unfold tick. by destruct (deliver_n_time (env_acks cfg (w_clock w))
  (set_clock (S (w_clock w))
     (set_tablet (run_maintenance (env_maintenance cfg (w_clock w)) (w_tablet w)) w)))
  as [-> ->]. Qed.

Lemma HasMoreRows_true sc :
  HasMoreRows sc = true ↔ sc_state sc = ScanOpen ∧ sc_rows sc ≠ [].
Proof.
  unfold HasMoreRows. rewrite andb_true_iff, !bool_decide_eq_true. done.
Qed.

Lemma HasMoreRows_exhausted sc :
  sc_rows sc = [] → HasMoreRows sc = false.
Proof.
  intros E. unfold HasMoreRows. rewrite E.
  by destruct (bool_decide (sc_state sc = ScanOpen)).
Qed.

(** The three ways a turn of the drain loop goes. *)
Lemma drain_done fuel sc rows w :
  HasMoreRows sc = false → drain cfg fuel sc rows w = Ret (sc, rows) w.
Proof. intros H. destruct fuel; simpl; by rewrite H. Qed.

Lemma drain_fetch fuel sc rows w n :
  HasMoreRows sc = true → env_scan cfg (w_clock w) = Some n →
  drain cfg (S fuel) sc rows w =
    drain cfg fuel
      {| sc_state := ScanOpen; sc_rows := drop n (sc_rows sc);
         sc_fetches := S (sc_fetches sc);
         sc_returned := sc_returned sc ++ take n (sc_rows sc) |}
      (take n (sc_rows sc)) (tick cfg w).
Proof.
  intros H E. cbn [drain]. rewrite H.
  apply HasMoreRows_true in H as [Hs _].
  unfold mbind at 1, M_bind at 1, NextBatch. by rewrite Hs, E.
Qed.

Lemma drain_error fuel sc rows w :
  HasMoreRows sc = true → env_scan cfg (w_clock w) = None →
  drain cfg (S fuel) sc rows w = Fail ScanError (tick cfg w).
Proof.
  intros H E. cbn [drain]. rewrite H.
  apply HasMoreRows_true in H as [Hs _].
  unfold mbind at 1, M_bind at 1, NextBatch. by rewrite Hs, E.
Qed.

(** However the loop ends, and for whatever number of fetches it is
    followed. *)
Lemma drain_outcome fuel sc rows w :
  sc_state sc = ScanOpen →
  match drain cfg fuel sc rows w with
  | Ret (sc', rows') w' =>
      sc_state sc' = ScanOpen ∧ sc_rows sc' = [] ∧
      sc_returned sc' = sc_returned sc ++ sc_rows sc ∧
      w_stop w' = w_stop w
  | Fail st w' =>
      st = ScanError ∧ w_stop w' = w_stop w ∧
      ∃ j, (w_clock w ≤ j)%nat ∧ env_scan cfg j = None
  | Hang w' =>
      HasMoreRows sc = true ∧ w_clock w' = (fuel + w_clock w)%nat
  end.
Proof.
  revert sc rows w. induction fuel as [|fuel IH]; intros sc rows w Hs.
  - destruct (HasMoreRows sc) eqn:H.
    + simpl. rewrite H. done.
    + rewrite drain_done by done.
      unfold HasMoreRows in H. rewrite Hs in H. simpl in H.
      apply bool_decide_eq_false in H. apply dec_stable in H.
      rewrite H. by rewrite app_nil_r.
  - destruct (HasMoreRows sc) eqn:H.
    2:{ rewrite drain_done by done.
        unfold HasMoreRows in H. rewrite Hs in H. simpl in H.
        apply bool_decide_eq_false in H. apply dec_stable in H.
        rewrite H. by rewrite app_nil_r. }
    destruct (tick_time w) as [Hc Hst].
    destruct (env_scan cfg (w_clock w)) as [n|] eqn:E.
    + rewrite (drain_fetch fuel sc rows w n H E).
      set (sc1 := {| sc_state := ScanOpen; sc_rows := _; sc_fetches := _;
                     sc_returned := _ |}).
      specialize (IH sc1 (take n (sc_rows sc)) (tick cfg w) eq_refl).
      destruct (drain cfg fuel sc1 (take n (sc_rows sc)) (tick cfg w))
        as [[sc' rows'] w'|st w'|w'].
      * destruct IH as (? & ? & Hr & ?). split_and!; try done; [|congruence].
        rewrite Hr. simpl. by rewrite <- app_assoc, take_drop.
      * destruct IH as (? & ? & j & Hj & Ej). split_and!; try done; [congruence|].
        exists j. split; [lia|done].
      * destruct IH as [_ IH]. split; [done|]. rewrite IH, Hc. lia.
    + rewrite (drain_error fuel sc rows w H E). split_and!; try done.
      by exists (w_clock w).
Qed.

(** With a server that keeps answering the loop ends: induction on the rows
    left and, within, on the time until the next answer. *)
Lemma drain_ends_within m d sc rows w :
  served cfg → sc_state sc = ScanOpen → (length (sc_rows sc) ≤ m)%nat →
  (∃ j, (w_clock w ≤ j ≤ w_clock w + d)%nat ∧ env_scan cfg j ≠ Some 0%nat) →
  ∃ n o, (∀ fuel, (n ≤ fuel)%nat → drain cfg fuel sc rows w = o) ∧
         match o with Hang _ => False | _ => True end.
Proof.
  intros Hserved. revert d sc rows w.
  induction m as [|m IHm]; intros d sc rows w Hs Hlen Hj.
  { exists 0%nat, (Ret (sc, rows) w). split; [|done]. intros fuel _.
    apply drain_done, HasMoreRows_exhausted.
    by destruct (sc_rows sc); [|simpl in Hlen; lia]. }
  revert sc rows w Hs Hlen Hj.
  induction d as [|d IHd]; intros sc rows w Hs Hlen (j & Hj & Ej);
    (destruct (HasMoreRows sc) eqn:H;
     [|exists 0%nat, (Ret (sc, rows) w); split; [|done];
       intros fuel _; by apply drain_done]);
    destruct (tick_time w) as [Hc _];
    (destruct (env_scan cfg (w_clock w)) as [[|k]|] eqn:E;
     [|
      (* rows came: fewer are left *)
      destruct (Hserved (w_clock (tick cfg w))) as (j' & Hj' & Ej');
      destruct (IHm (j' - w_clock (tick cfg w))%nat
         {| sc_state := ScanOpen; sc_rows := drop (S k) (sc_rows sc);
            sc_fetches := S (sc_fetches sc);
            sc_returned := sc_returned sc ++ take (S k) (sc_rows sc) |}
         (take (S k) (sc_rows sc)) (tick cfg w) eq_refl)
        as (n & o & Hn & Ho);
      [simpl; rewrite length_drop; lia
      |exists j'; split; [lia|done]
      |exists (S n), o; split; [|done];
       intros [|fuel] Hf; [lia|];
       rewrite (drain_fetch fuel sc rows w (S k) H E); apply Hn; lia]
     |
      (* the request failed *)
      exists 1%nat, (Fail ScanError (tick cfg w)); split; [|done];
      intros [|fuel] Hf; [lia|]; by apply drain_error]).
  - (* no row, and this was the time of the answer *)
    assert (j = w_clock w) as -> by lia. congruence.
  - (* no row: the answer is nearer *)
    destruct (IHd
       {| sc_state := ScanOpen; sc_rows := drop 0 (sc_rows sc);
          sc_fetches := S (sc_fetches sc);
          sc_returned := sc_returned sc ++ take 0 (sc_rows sc) |}
       (take 0 (sc_rows sc)) (tick cfg w) eq_refl)
      as (n & o & Hn & Ho).
    + simpl. rewrite length_drop. lia.
    + exists j. split; [|done].
      assert (j ≠ w_clock w) by congruence. lia.
    + exists (S n), o. split; [|done].
      intros [|fuel] Hf; [lia|].
      rewrite (drain_fetch fuel sc rows w 0 H E). apply Hn. lia.
Qed.

Lemma drain_ends sc rows w :
  served cfg → sc_state sc = ScanOpen →
  ∃ n o, (∀ fuel, (n ≤ fuel)%nat → drain cfg fuel sc rows w = o) ∧
         match o with Hang _ => False | _ => True end.
Proof.
  intros Hserved Hs. destruct (Hserved (w_clock w)) as (j & Hj & Ej).
  apply (drain_ends_within (length (sc_rows sc)) (j - w_clock w));
    [done..|]. exists j. split; [lia|done].
Qed.

(** With a server that never has a row ready it does not. *)
Lemma drain_starved fuel sc rows w :
  (∀ i, env_scan cfg i = Some 0%nat) → HasMoreRows sc = true →
  ∃ w', drain cfg fuel sc rows w = Hang w'.
Proof.
  intros Hno. revert sc rows w.
  induction fuel as [|fuel IH]; intros sc rows w H.
  - exists w. simpl. by rewrite H.
  - rewrite (drain_fetch fuel sc rows w 0 H (Hno _)). apply IH.
    apply HasMoreRows_true in H as [_ Hr]. by apply HasMoreRows_true.
Qed.

(** [ScanRows]: one scan for each read of the latch that sees it up. *)
Lemma scan_loop_ends scans w :
  served cfg → (w_stop w ≤ scans)%nat →
  ∃ n o, (∀ fuel, (n ≤ fuel)%nat → scan_loop cfg fuel scans w = o) ∧
    match o with
    | Ret _ w' => w_stop w' = 0%nat
    | Fail st _ => st = ScanError ∧ ∃ j, env_scan cfg j = None
    | Hang _ => False
    end.
Proof.
  intros Hserved. revert w.
  induction scans as [|scans IH]; intros w Hle.
  { exists 0%nat, (Ret () w). split; [|lia]. intros fuel _.
    simpl. unfold mbind, M_bind, stop_latch_running.
    by destruct (w_stop w); [|lia]. }
  destruct (w_stop w) as [|b] eqn:Eb.
  { exists 0%nat, (Ret () w). split; [|done]. intros fuel _.
    cbn [scan_loop]. unfold mbind at 1, M_bind at 1, stop_latch_running.
    by rewrite Eb. }
  set (w1 := set_stop b w).
  assert (∀ fuel, scan_loop cfg fuel (S scans) w =
    (r ← Open cfg NewScanner; CHECK_OK (mret r.1);;
     drain cfg fuel r.2 [];; scan_loop cfg fuel scans) w1) as Hstep.
  { intros fuel. cbn [scan_loop].
    unfold mbind at 1, M_bind at 1, stop_latch_running. by rewrite Eb. }
  destruct (tick_time w1) as [Hc Hst].
  destruct (env_scan cfg (w_clock w1)) as [k|] eqn:E.
  2:{ exists 0%nat, (Fail ScanError (tick cfg w1)). split.
      - intros fuel _. rewrite Hstep.
        unfold mbind at 1, M_bind at 1, Open. by rewrite E.
      - split; [done|]. by eexists. }
  set (sc := {| sc_state := ScanOpen; sc_rows := scan_rows (w_tablet (tick cfg w1));
                sc_fetches := 0; sc_returned := [] |}).
  assert (∀ fuel, scan_loop cfg fuel (S scans) w =
    (drain cfg fuel sc [];; scan_loop cfg fuel scans) (tick cfg w1)) as Hopen.
  { intros fuel. rewrite Hstep.
    unfold mbind at 1, M_bind at 1, Open. by rewrite E. }
  destruct (drain_ends sc [] (tick cfg w1) Hserved eq_refl) as (n1 & o1 & Hn1 & Ho1).
  pose proof (drain_outcome n1 sc [] (tick cfg w1) eq_refl) as Hout.
  rewrite (Hn1 n1 (le_n _)) in Hout.
  destruct o1 as [[sc' rows'] w3|st w3|w3]; [| |done].
  - destruct Hout as (_ & _ & _ & Hs3).
    destruct (IH w3) as (n2 & o2 & Hn2 & Ho2).
    { rewrite Hs3, Hst. simpl. lia. }
    exists (n1 `max` n2)%nat, o2. split; [|done].
    intros fuel Hf. rewrite Hopen.
    unfold mbind at 1, M_bind at 1. rewrite Hn1 by lia. apply Hn2. lia.
  - destruct Hout as (-> & _ & j & _ & Ej).
    exists n1, (Fail ScanError w3). split.
    + intros fuel Hf. rewrite Hopen.
      unfold mbind at 1, M_bind at 1. by rewrite Hn1.
    + split; [done|]. by exists j.
Qed.

Lemma scan_loop_starved fuel scans w :
  (∀ i, env_scan cfg i = Some 0%nat) →
  (0 < w_stop w ≤ scans)%nat → scan_rows (w_tablet (tick cfg (set_stop (pred (w_stop w)) w))) ≠ [] →
  ∃ w', scan_loop cfg fuel scans w = Hang w'.
Proof.
  intros Hno Hle Hrows.
  destruct scans as [|scans]; [lia|].
  destruct (w_stop w) as [|b] eqn:Eb; [lia|]. simpl in Hrows.
  cbn [scan_loop]. unfold mbind at 1, M_bind at 1, stop_latch_running.
  rewrite Eb. unfold mbind at 1, M_bind at 1, Open. rewrite Hno. simpl.
  unfold CHECK_OK. unfold mbind at 1 2, M_bind at 1 2. simpl.
  edestruct (drain_starved fuel) as [w' ->]; [done| |by eexists].
  by apply HasMoreRows_true.
Qed.

End Scanner.

(** ** The asynchronous initialiser *)

Module AsyncInitFacts.
Import AsyncInit.

Lemma cell_resolve v pc s :
  cell (resolve v pc s) = match cell s with Pending => v | c => c end.
Proof.
  unfold resolve. destruct (cell s) eqn:E; simpl; try done.
  unfold cell. simpl. by rewrite lookup_insert_eq.
Qed.

Lemma wf_start b : wf (start b).
Proof. split; simpl; try done; intros ? []%elem_of_nil. Qed.

Lemma wf_resolve v s :
  terminal v = true → wf s → task s ≠ Exited → wf (resolve v Exited s).
Proof.
  intros Hv [H1 H2 H3 H4 H5 H6 H7 H8 H9] Ht.
  pose proof (cell_resolve v Exited s) as Hc.
  specialize (H6 Ht). rewrite H6 in Hc, H5.
  unfold resolve in *. rewrite H6 in *. simpl in *.
  split; simpl; try done.
  - by rewrite Hc, Hv, H5.
  - by rewrite Hc.
  - intros cv Hcv. by destruct (H8 cv Hcv).
Qed.

Lemma wf_goto pc n s : pc ≠ Exited → wf s → task s ≠ Exited → wf (goto pc n s).
Proof.
  intros Hpc [H1 H2 H3 H4 H5 H6 H7 H8 H9] Ht.
  split; simpl; try done. intros _. by apply H6.
Qed.

Lemma step_wf l s s' : wf s → step l s = Some s' → wf s'.
Proof.
  intros Hs. destruct l as [o|c|c|c|]; simpl.
  - unfold InitClient_step. destruct (task s) eqn:Et; [| |done].
    + destruct (stopping_ (obj s)); intros [= <-].
      * apply wf_resolve; [done|done|congruence].
      * apply wf_goto; [done|done|congruence].
    + destruct o; intros [= <-].
      * apply wf_resolve; [done|done|congruence].
      * apply wf_goto; [done|done|congruence].
      * apply wf_resolve; [done|done|congruence].
  - intros [= <-]. by destruct Hs.
  - unfold client_return. destruct (bool_decide _); [|done].
    destruct Hs as [H1 H2 H3 H4 H5 H6 H7 H8 H9].
    assert (default Pending (heap s !! client_future_ (obj s)) = cell s) as ->.
    { unfold cell. by rewrite H3, H4. }
    destruct (cell s) eqn:Ec; [done|..]; intros [= <-];
      (split; simpl; try done;
       [unfold cell in *; simpl; by rewrite Ec in *..|]);
      intros cv [->|Hcv]%elem_of_cons; simpl; unfold cell in *; simpl;
      rewrite ?Ec; auto; destruct (H8 cv Hcv) as [-> ?]; by rewrite Ec.
  - intros [= <-]. destruct Hs as [H1 H2 H3 H4 H5 H6 H7 H8 H9].
    split; simpl; try done.
    intros cf [->|Hcf]%elem_of_cons; [done|by apply H9].
  - intros [= <-]. by destruct Hs.
Qed.

Lemma run_wf ls s s' : wf s → run ls s = Some s' → wf s'.
Proof.
  revert s. induction ls as [|l ls IH]; intros s Hs; simpl.
  - by intros [= <-].
  - destruct (step l s) as [s1|] eqn:E; [|done].
    apply IH. by eapply step_wf.
Qed.

Lemma reachable_wf b s : reachable b s → wf s.
Proof. intros [ls Hls]. eapply run_wf; [apply wf_start|done]. Qed.

(** The shared state is assigned once. *)
Lemma step_cell l s s' :
  step l s = Some s' → terminal (cell s) = true → cell s' = cell s.
Proof.
  destruct l as [o|c|c|c|]; simpl.
  - unfold InitClient_step. destruct (task s); [| |done].
    + destruct (stopping_ (obj s)); intros [= <-] Ht; [|done].
      rewrite cell_resolve. by destruct (cell s).
    + destruct o; intros [= <-] Ht; rewrite ?cell_resolve; try done;
        by destruct (cell s).
  - by intros [= <-].
  - unfold client_return. destruct (bool_decide _); [|done].
    destruct (default _ _); [done|..]; by intros [= <-].
  - by intros [= <-].
  - by intros [= <-].
Qed.

Lemma run_cell ls s s' :
  run ls s = Some s' → terminal (cell s) = true → cell s' = cell s.
Proof.
  revert s. induction ls as [|l ls IH]; intros s; simpl.
  - by intros [= <-].
  - destruct (step l s) as [s1|] eqn:E; [|done]. intros Hr Ht.
    pose proof (step_cell l s s1 E Ht) as Hc.
    rewrite <- Hc. apply IH; [done|]. by rewrite Hc.
Qed.

(** There is one shared state, the one of the promise. *)
Lemma step_heap l s s' :
  wf s → dom (heap s) = {[ 0%nat ]} → step l s = Some s' →
  dom (heap s') = {[ 0%nat ]}.
Proof.
  intros [_ _ H3 _ _ _ _ _ _] Hd.
  assert (∀ v pc, dom (heap (resolve v pc s)) = {[ 0%nat ]}) as Hres.
  { intros v pc. unfold resolve. destruct (cell s); simpl; try done.
    rewrite dom_insert_L, H3, Hd. set_solver. }
  destruct l as [o|c|c|c|]; simpl.
  - unfold InitClient_step. destruct (task s); [| |done].
    + destruct (stopping_ (obj s)); intros [= <-]; [apply Hres|done].
    + destruct o; intros [= <-]; [apply Hres|done|apply Hres].
  - by intros [= <-].
  - unfold client_return. destruct (bool_decide _); [|done].
    destruct (default _ _); [done|..]; by intros [= <-].
  - by intros [= <-].
  - by intros [= <-].
Qed.

Lemma run_heap ls s s' :
  wf s → dom (heap s) = {[ 0%nat ]} → run ls s = Some s' →
  dom (heap s') = {[ 0%nat ]}.
Proof.
  revert s. induction ls as [|l ls IH]; intros s Hs Hd; simpl.
  - by intros [= <-].
  - destruct (step l s) as [s1|] eqn:E; [|done].
    apply IH; [by eapply step_wf|by eapply step_heap].
Qed.

(** Only the background task makes attempts and resolves the shared
    state. *)
Lemma step_by_task l s s' :
  step l s = Some s' →
  cell s' ≠ cell s ∨ attempts s' ≠ attempts s ∨ resolutions s' ≠ resolutions s →
  ∃ o, l = LTask o.
Proof.
  destruct l as [o|c|c|c|]; simpl; [by eexists|..].
  - intros [= <-]. simpl. unfold cell. simpl. tauto.
  - unfold client_return. destruct (bool_decide _); [|done].
    destruct (default _ _); [done|..]; intros [= <-]; unfold cell; simpl;
      tauto.
  - intros [= <-]. unfold cell. simpl. tauto.
  - intros [= <-]. unfold cell. simpl. tauto.
Qed.

(** What the callers do is of no consequence for the task: a run and the
    same run without the steps of the callers end with the same task,
    shared state and counts. *)
Lemma same_task_refl s : same_task s s.
Proof. by split_and!. Qed.

Lemma step_same_task l s s' t :
  same_task s t → step l s = Some s' →
  if background l then ∃ t', step l t = Some t' ∧ same_task s' t'
  else same_task s' t.
Proof.
  intros (Ho & Hh & Ht & Hsp & Ha & Hr).
  assert (cell s = cell t) as Hc by (unfold cell; by rewrite Ho, Hh).
  assert (∀ v pc, same_task (resolve v pc s) (resolve v pc t)) as Hres.
  { intros v pc. unfold resolve. rewrite <- Hc.
    destruct (cell s); split_and!; simpl; congruence. }
  assert (∀ pc n, same_task (goto pc n s) (goto pc n t)) as Hgo.
  { intros pc n. split_and!; simpl; congruence. }
  destruct l as [o|c|c|c|]; simpl.
  - unfold InitClient_step. rewrite <- Ht, <- Ho.
    destruct (task s); [| |done].
    + destruct (stopping_ (obj s)); intros [= <-]; eexists; split; done.
    + destruct o; intros [= <-]; eexists; split; done.
  - intros [= <-]. by split_and!.
  - unfold client_return. destruct (bool_decide _); [|done].
    destruct (default _ _); [done|..]; intros [= <-]; by split_and!.
  - intros [= <-]. by split_and!.
  - intros [= <-]. eexists. split; [done|].
    split_and!; simpl; congruence.
Qed.

Lemma run_same_task ls s s' t :
  same_task s t → run ls s = Some s' →
  ∃ t', run (filter (λ l, background l = true) ls) t = Some t' ∧
        same_task s' t'.
Proof.
  revert s t. induction ls as [|l ls IH]; intros s t Hst; simpl.
  - intros [= <-]. by exists t.
  - destruct (step l s) as [s1|] eqn:E; [|done]. intros Hrun.
    pose proof (step_same_task l s s1 t Hst E) as H.
    destruct (background l) eqn:Eb.
    + destruct H as (t1 & Et & H1).
      rewrite filter_cons_True by done. simpl. rewrite Et. by eapply IH.
    + rewrite filter_cons_False by (by rewrite Eb). by eapply IH.
Qed.

End AsyncInitFacts.

(** * The specified properties *)

(** C3, as amended.  Inserting keys [0 .. N-1] through the manual-flush
    session with the wait-then-flush discipline, the batch size [K] dividing
    [N], causes exactly [N / K + 1] flushes: [N / K] in the loop, the first of
    them when key 0 has been applied, and one after the loop.  Each is waited
    on before the next is issued and all are observed before the function
    returns.  A scan afterwards returns exactly the [N] keys, in order, with
    their inserted values. *)
Theorem InsertBaseData_flush_count cfg w0 :
  clean_insert cfg w0 →
  0 < kSessionBatchSize cfg → 0 ≤ FLAGS_row_count cfg →
  (kSessionBatchSize cfg | FLAGS_row_count cfg) →
  ∃ w', InsertBaseData cfg w0 = Ret () w' ∧
    length (flushed (w_log w')) =
      Z.to_nat (FLAGS_row_count cfg / kSessionBatchSize cfg + 1) ∧
    one_outstanding (w_log w') ∧ waited_before_next (w_log w') ∧
    numbered (w_log w') ∧
    (∀ i, (i < length (flushed (w_log w')))%nat → seen i (w_log w') = 1%nat) ∧
    scan_rows (w_tablet w') =
      (λ k, row_of k 0) <$> seqZ 0 (FLAGS_row_count cfg).
Proof.
  intros g HK Hn [q Hq].
  destruct (InsertBaseData_clean cfg w0 g) as (w' & E & HT & Htb & Hb & Hv).
  exists w'. split; [done|].
  destruct (TInv_protocol _ _ HT) as (H1 & H2 & H3).
  destruct (TInv_all_seen Waited w' (or_intror eq_refl) HT) as [_ Hs].
  pose proof HT as [_ _ _ Hc _ _ _].
  assert (w_issued w' = Z.to_nat (FLAGS_row_count cfg / kSessionBatchSize cfg + 1)) as Hi.
  { change (w_issued w') with (bk_issued (books w')). rewrite Hb. simpl.
    destruct (insert_books_shape cfg (w_stop w0) (Z.to_nat (FLAGS_row_count cfg)) HK)
      as (_ & -> & _).
    rewrite Z2Nat.id by done. unfold triggers.
    rewrite (div_eq (FLAGS_row_count cfg + kSessionBatchSize cfg - 1)
               (kSessionBatchSize cfg) q (kSessionBatchSize cfg - 1)) by lia.
    rewrite (div_eq (FLAGS_row_count cfg) (kSessionBatchSize cfg) q 0) by lia.
    assert (0 ≤ q) by nia. lia. }
  split_and!; try done.
  - by rewrite Hc.
  - intros i Hi'. apply Hs. lia.
  - rewrite (scan_rows_insert_rows _ _ Hv). by rewrite seqZ_to_nat.
Qed.

(** The instance of the end-to-end scenario: 1000 keys, batches of 100,
    11 flushes, 1000 rows scanned. *)
Lemma InsertBaseData_flush_count_witness :
  ∃ w', InsertBaseData (busy 100 1000) (created 0) = Ret () w' ∧
    length (flushed (w_log w')) = 11%nat ∧
    one_outstanding (w_log w') ∧ waited_before_next (w_log w') ∧
    numbered (w_log w') ∧
    (∀ i, (i < length (flushed (w_log w')))%nat → seen i (w_log w') = 1%nat) ∧
    scan_rows (w_tablet w') = (λ k, row_of k 0) <$> seqZ 0 1000.
Proof.
  apply (InsertBaseData_flush_count (busy 100 1000) (created 0)).
  - apply created_clean, busy_transport_ok.
  - reflexivity.
  - discriminate.
  - exists 10. reflexivity.
Defined.

(** C3 as stated fails: with 1000 keys and batches of 100 the session is
    flushed 11 times, not 10; with the constants of the test, 2000 keys and
    batches of 1000, 3 times, not 2. *)
Lemma InsertBaseData_flush_count_counterexample :
  length (flushed (w_log (final (InsertBaseData (quiet 100 1000) (created 0)))))
    = 11%nat ∧
  Z.of_nat (length (flushed (w_log (final
      (InsertBaseData (quiet 100 1000) (created 0)))))) ≠ 1000 / 100 ∧
  Z.of_nat (length (flushed (w_log (final
      (InsertBaseData test_defaults (created 0)))))) ≠ 2000 / 1000.
Proof. vm_compute. split_and!; [reflexivity|discriminate..]. Qed.

(** C9.  In the insert loop the flush is triggered by the key just applied
    being a multiple of the batch size: batch number [q] of the loop ends
    with key [q * K]; the first holds the one mutation of key 0, every later
    one holds [K] mutations, and the batch flushed after the loop is what
    remains of the keys [0 .. N-1]. *)
Theorem InsertBaseData_batches cfg w0 :
  clean_insert cfg w0 → 0 < kSessionBatchSize cfg →
  ∃ w' in_loop rest, InsertBaseData cfg w0 = Ret () w' ∧
    flushed (w_log w') = in_loop ++ [rest] ∧
    length in_loop = Z.to_nat (triggers cfg (Z.max 0 (FLAGS_row_count cfg))) ∧
    (0 < FLAGS_row_count cfg → in_loop !! 0%nat = Some [made OpInsert 0 0]) ∧
    (∀ q b, in_loop !! q = Some b →
       last b = Some (made OpInsert (Z.of_nat q * kSessionBatchSize cfg) 0) ∧
       length b = if decide (q = 0%nat) then 1%nat
                  else Z.to_nat (kSessionBatchSize cfg)) ∧
    concat in_loop ++ rest =
      (λ k, made OpInsert k 0) <$> seqZ 0 (FLAGS_row_count cfg) ∧
    applied (w_log w') =
      (λ k, made OpInsert k 0) <$> seqZ 0 (FLAGS_row_count cfg).
Proof.
  intros g HK.
  destruct (InsertBaseData_clean cfg w0 g) as (w' & E & HT & Htb & Hb & Hv).
  set (n := Z.to_nat (FLAGS_row_count cfg)) in *.
  set (B := insert_books cfg (w_stop w0) n) in *.
  exists w', (bk_flushed B), (bk_pending B). split; [done|].
  destruct (insert_books_shape cfg (w_stop w0) n HK) as (Hl & Hi & Hbatch & Hp).
  fold B in Hl, Hi, Hbatch, Hp.
  assert (flushed (w_log w') = bk_flushed B ++ [bk_pending B]) as Hf.
  { change (flushed (w_log w')) with (bk_flushed (books w')). by rewrite Hb. }
  assert (applied (w_log w') =
            (λ k, made OpInsert k 0) <$> seqZ 0 (FLAGS_row_count cfg)) as Ha.
  { change (applied (w_log w')) with (bk_applied (books w')). rewrite Hb. simpl.
    unfold B. rewrite insert_books_applied. unfold n. by rewrite seqZ_to_nat. }
  assert (Z.of_nat n = Z.max 0 (FLAGS_row_count cfg)) as Hn by lia.
  split_and!; try done.
  - by rewrite Hl, Hn.
  - intros Hpos.
    assert (0 < triggers cfg (Z.of_nat n)) as Ht.
    { unfold triggers. apply Z.div_str_pos. lia. }
    destruct (bk_flushed B) as [|b F] eqn:EF; [simpl in Hl; lia|].
    destruct (Hbatch 0%nat b eq_refl) as [Hlast Hlen]. simpl in *.
    destruct b as [|m [|m' b]]; simpl in *; try done. by simplify_eq.
  - pose proof HT as [_ _ _ _ Hbk _ _]. rewrite Ha, Hf in Hbk.
    assert (w_pending w' = []) as Hpe.
    { change (w_pending w') with (bk_pending (books w')). by rewrite Hb. }
    rewrite Hpe, app_nil_r, concat_app in Hbk. simpl in Hbk.
    by rewrite app_nil_r in Hbk.
Qed.

(** A run with 7 keys and batches of 3: the batches hold the keys 0, then
    1 2 3, then 4 5 6, and the last flush is empty. *)
Lemma InsertBaseData_batches_witness :
  ∃ w' in_loop rest, InsertBaseData (busy 3 7) (created 0) = Ret () w' ∧
    flushed (w_log w') = in_loop ++ [rest] ∧
    length in_loop = 3%nat ∧
    (0 < 7 → in_loop !! 0%nat = Some [made OpInsert 0 0]) ∧
    (∀ q b, in_loop !! q = Some b →
       last b = Some (made OpInsert (Z.of_nat q * 3) 0) ∧
       length b = if decide (q = 0%nat) then 1%nat else 3%nat) ∧
    concat in_loop ++ rest = (λ k, made OpInsert k 0) <$> seqZ 0 7 ∧
    applied (w_log w') = (λ k, made OpInsert k 0) <$> seqZ 0 7.
Proof.
  apply (InsertBaseData_batches (busy 3 7) (created 0)).
  - apply created_clean, busy_transport_ok.
  - reflexivity.
Defined.

(** C1.  In every run of a write loop, the insert of the base data or the
    update passes, whatever the flush executor, the transport and the tablet
    do and whether the run returns or stops on a failed check: at every
    moment at most one flush of the session is outstanding; the flushes are
    numbered as issued, and when flush [N + 1] is issued by [FlushAsync] a
    [Wait] on the synchronizer has returned on the completion of flush [N];
    the loop never blocks in a [Wait]. *)
Theorem one_flush_outstanding cfg w0 :
  (one_outstanding (w_log (final (InsertBaseData cfg w0))) ∧
   waited_before_next (w_log (final (InsertBaseData cfg w0))) ∧
   numbered (w_log (final (InsertBaseData cfg w0))) ∧
   ∀ w', InsertBaseData cfg w0 ≠ Hang w') ∧
  (one_outstanding (w_log (final (UpdateRows cfg w0))) ∧
   waited_before_next (w_log (final (UpdateRows cfg w0))) ∧
   numbered (w_log (final (UpdateRows cfg w0))) ∧
   ∀ w', UpdateRows cfg w0 ≠ Hang w').
Proof.
  split.
  - destruct (InsertBaseData_safe cfg w0) as (ph & HT & Hh).
    destruct (TInv_protocol _ _ HT) as (? & ? & ?). done.
  - destruct (UpdateRows_safe cfg w0) as (ph & HT & Hh).
    destruct (TInv_protocol _ _ HT) as (? & ? & ?). done.
Qed.

(** C2.  On a table that holds the rows, the update thread applies to each
    key a sequence of updates whose values, the pass numbers, grow strictly,
    no two of them in one flushed batch; when it has ended, a scan reads for
    the key the row of the last, hence highest, value applied, in all three
    columns, and the row it had before if no update was applied to it.  The
    Delta Units the scan merges, oldest first, are in the order of their
    sequence numbers. *)
Theorem UpdateRows_last_writer_wins cfg w0 :
  clean_update cfg w0 →
  ∃ w', UpdateRows cfg w0 = Ret () w' ∧
    StronglySorted lt (du_seq <$> deltas (w_tablet w')) ∧
    ∀ k,
      StronglySorted Z.lt (vals k (applied (w_log w'))) ∧
      Forall (λ b, (length (vals k b) ≤ 1)%nat) (flushed (w_log w')) ∧
      (∀ v, last (vals k (applied (w_log w'))) = Some v →
         view (w_tablet w') !! k = Some (row_of k v) ∧
         row_of k v ∈ scan_rows (w_tablet w') ∧
         Forall (λ v', v' ≤ v) (vals k (applied (w_log w')))) ∧
      (vals k (applied (w_log w')) = [] →
         view (w_tablet w') !! k = view (w_tablet w0) !! k).
Proof.
  intros g.
  destruct (UpdateRows_clean cfg w0 g) as (w' & it & j & E & HT & Hpe & Hst & Htb & HI).
  exists w'. split; [done|]. split; [by destruct Htb|]. intros k.
  destruct HI as [Hv Hs Hb Hf Hp]. simpl in *.
  split_and!.
  - apply Hs.
  - apply Hf.
  - intros v Hlast. specialize (Hv I k). rewrite Hlast in Hv. split_and!.
    + done.
    + by eapply elem_of_scan_rows.
    + specialize (Hs k).
      destruct (vals k (applied (w_log w'))) as [|x l] using rev_ind; [done|].
      rewrite last_snoc in Hlast. simplify_eq.
      apply Forall_app. split; [|by apply Forall_singleton].
      apply Forall_forall. intros y Hy.
      eapply StronglySorted_app_1_elem_of in Hs; [|exact Hy|by left]. lia.
  - intros Hnil. specialize (Hv I k). by rewrite Hnil in Hv.
Qed.

(** The instance of the end-to-end scenario: five passes over 50 rows; key
    42 gets the values 1 to 5 and the scan reads 5 in its int64 column. *)
Lemma UpdateRows_last_writer_wins_witness :
  ∃ w', UpdateRows (busy 7 50) (populated 50 255) = Ret () w' ∧
    vals 42 (applied (w_log w')) = [1; 2; 3; 4; 5] ∧
    view (w_tablet w') !! 42 =
      Some [VInt64 42; VString "TODO random string"; VInt64 5] ∧
    [VInt64 42; VString "TODO random string"; VInt64 5]
      ∈ scan_rows (w_tablet w').
Proof.
  destruct (UpdateRows_last_writer_wins (busy 7 50) (populated 50 255))
    as (w' & E & _ & H).
  { apply populated_clean; [apply busy_transport_ok|simpl; lia]. }
  exists w'. split; [exact E|].
  assert (vals 42 (applied (w_log w')) = [1; 2; 3; 4; 5]) as Hv.
  { replace w' with (final (UpdateRows (busy 7 50) (populated 50 255)))
      by (by rewrite E).
    vm_compute. reflexivity. }
  destruct (H 42) as (_ & _ & Hl & _). rewrite Hv in Hl.
  destruct (Hl 5 eq_refl) as (H1 & H2 & _). auto.
Defined.

(** C10.  Whenever the stop signal arrives, in the middle of a pass too, the
    update thread ends on a clean run, drained: nothing is queued in the
    session and no flush is outstanding, every update applied was submitted
    in a flush, and the completion of every flush issued was observed by
    exactly one [Wait]. *)
Theorem UpdateRows_drains cfg w0 :
  clean_update cfg w0 →
  ∃ w', UpdateRows cfg w0 = Ret () w' ∧
    w_stop w' = 0%nat ∧ w_pending w' = [] ∧ w_inflight w' = [] ∧
    concat (flushed (w_log w')) = applied (w_log w') ∧
    outstanding (w_log w') = 0%nat ∧
    (∀ i, (i < length (flushed (w_log w')))%nat → seen i (w_log w') = 1%nat) ∧
    (∀ i, (length (flushed (w_log w')) ≤ i)%nat → seen i (w_log w') = 0%nat).
Proof.
  intros g.
  destruct (UpdateRows_clean cfg w0 g) as (w' & it & j & E & HT & Hpe & Hst & Htb & HI).
  exists w'. split; [done|].
  pose proof HT as [_ _ _ Hc Hb Hout (u & Hs & Hf & _ & _ & ->)].
  split_and!; try done.
  - by rewrite Hb, Hpe, app_nil_r.
  - by rewrite Hout, Hf.
  - intros i Hi. rewrite Hs. rewrite decide_True; [done|]. split; [lia|done].
  - intros i Hi. rewrite Hs. rewrite decide_False; [done|]. lia.
Qed.

(** A run in which the stop signal arrives in the second pass, between the
    keys 1 and 2 of 5: key 1 got the values 1 and 2, key 2 the value 1 only,
    and the thread ended drained. *)
Lemma UpdateRows_drains_witness :
  ∃ w', UpdateRows (busy 3 5) (populated 5 9) = Ret () w' ∧
    vals 1 (applied (w_log w')) = [1; 2] ∧
    vals 2 (applied (w_log w')) = [1] ∧
    w_stop w' = 0%nat ∧ w_pending w' = [] ∧ w_inflight w' = [] ∧
    concat (flushed (w_log w')) = applied (w_log w') ∧
    outstanding (w_log w') = 0%nat ∧
    (∀ i, (i < length (flushed (w_log w')))%nat → seen i (w_log w') = 1%nat) ∧
    (∀ i, (length (flushed (w_log w')) ≤ i)%nat → seen i (w_log w') = 0%nat).
Proof.
  destruct (UpdateRows_drains (busy 3 5) (populated 5 9)) as (w' & E & H).
  { apply populated_clean; [apply busy_transport_ok|simpl; lia]. }
  exists w'. split; [exact E|].
  assert (w' = final (UpdateRows (busy 3 5) (populated 5 9))) as Hw
    by (by rewrite E).
  split; [rewrite Hw; vm_compute; reflexivity|].
  split; [rewrite Hw; vm_compute; reflexivity|].
  exact H.
Defined.

(** C6.  A [Wait] on a synchronizer that is already resolved returns without
    awaiting any completion, with the status the signal holds; that is the
    status it held at the call when no flush is outstanding.  In
    [InsertBaseData] the synchronizer is resolved with [OK] before the loop,
    so that whatever the environment does the first [Wait] of the run, the
    one of [WaitForLastBatchAndFlush] for key 0, awaits nothing and returns
    [OK]. *)
Theorem Wait_on_resolved cfg w :
  sync_l (w_sync w) = 0%nat →
  (∃ st w', Wait cfg w = Ret st w' ∧
     st = sync_s (w_sync (tick cfg w)) ∧
     w' = record (EvWait 0 st) (tick cfg w) ∧
     (w_inflight w = [] → st = sync_s (w_sync w))) ∧
  ∀ w0, 0 < FLAGS_row_count cfg →
    head (waits (w_log (final (InsertBaseData cfg w0)))) = Some (0%nat, OK).
Proof.
  intros Hl. split.
  - assert (sync_l (w_sync (tick cfg w)) = 0%nat) as Hl'.
    { unfold tick. generalize (env_acks cfg (w_clock w)).
      set (w1 := set_clock _ _). assert (sync_l (w_sync w1) = 0%nat) as H1 by done.
      clearbody w1. intros n. revert w1 H1.
      induction n as [|n IH]; intros w1 H1; simpl; [done|].
      apply IH. unfold deliver. destruct (w_inflight w1) as [|[j b] rest]; [done|].
      simpl. by rewrite H1. }
    eexists _, _. split_and!; [|done|done|].
    + unfold Wait. destruct (length _); simpl; by rewrite decide_True.
    + intros Hf. by destruct (tick_idle cfg w Hf) as (_ & -> & _).
  - intros w0 Hn.
    destruct (Z.to_nat (FLAGS_row_count cfg)) as [|n] eqn:En; [lia|].
    rewrite InsertBaseData_eq, En. set (w1 := fresh_writer w0).
    destruct (tick_idle cfg w1 eq_refl) as (L1 & S1 & F1 & P1).
    set (w2 := record (EvRun OK)
                 (set_sync (StatusCB OK (w_sync (tick cfg w1))) (tick cfg w1))).
    destruct (tick_idle cfg w2 F1) as (L2 & S2 & F2 & P2).
    set (w3 := record (EvApply (made OpInsert 0 0))
                 (set_pending (w_pending (tick cfg w2) ++ [made OpInsert 0 0])
                    (tick cfg w2))).
    destruct (tick_idle cfg w3 F2) as (L3 & S3 & F3 & P3).
    set (w4 := record (EvWait 0 OK) (tick cfg w3)).
    assert (w_sync (tick cfg w3) = {| sync_s := OK; sync_l := 0 |}) as Hs3.
    { rewrite S3. simpl. rewrite S2. simpl. by rewrite S1. }
    assert (w_log w4 = [EvWait 0 OK; EvApply (made OpInsert 0 0); EvRun OK]) as L4.
    { simpl. rewrite L3. simpl. rewrite L2. simpl. by rewrite L1. }
    assert (Wait cfg w3 = Ret OK w4) as HW.
    { unfold Wait. rewrite F3. simpl. by rewrite Hs3. }
    rewrite (run_bind (Run cfg OK) _ w1 () w2 eq_refl).
    destruct (log_bind_grows (for_keys (insert_body cfg) 0 (S n))
      (λ _, ASSERT_OK (WaitForLastBatchAndFlush cfg (kSessionBatchSize cfg));;
            ASSERT_OK (Wait cfg)) w2) as [n1 ->].
    { intros _. apply extends_bind.
      - apply extends_ASSERT_OK, extends_WaitForLastBatchAndFlush.
      - intros _. apply extends_ASSERT_OK, extends_Wait. }
    cbn [for_keys].
    destruct (log_bind_grows (insert_body cfg 0)
      (λ _, for_keys (insert_body cfg) (0 + 1) n) w2) as [n2 ->].
    { intros _. apply extends_for_keys, extends_insert_body. }
    unfold insert_body at 1.
    rewrite (run_bind (ASSERT_OK (Apply cfg (made OpInsert 0 0))) _ w2 () w3 eq_refl).
    unfold ASSERT_OK at 1.
    destruct (log_bind_grows (WaitForLastBatchAndFlush cfg 0)
      (λ st, if ok st then mret () else fail st) w3) as [n3 ->].
    { intros st. destruct (ok st); [apply extends_ret|apply extends_fail]. }
    unfold WaitForLastBatchAndFlush.
    change (Z.rem 0 (kSessionBatchSize cfg)) with 0.
    rewrite decide_True by done.
    rewrite (run_bind (Wait cfg) _ w3 OK w4 HW).
    change (ok OK) with true. cbv iota.
    destruct (extends_bind (Reset cfg) (λ _, FlushAsync cfg;; mret OK)
                (extends_Reset cfg)
                (λ _, extends_bind (FlushAsync cfg) (λ _, mret OK)
                        (extends_FlushAsync cfg) (λ _, extends_ret OK)) w4)
      as [n4 ->].
    rewrite L4, !waits_app. done.
Qed.

(** The first [Wait] of the test with its constants, from a world whose
    signal is resolved. *)
Lemma Wait_on_resolved_witness :
  (∃ st w', Wait test_defaults (set_sync {| sync_s := OK; sync_l := 0 |} (created 0))
              = Ret st w' ∧
     st = OK ∧ waits (w_log w') = [(0%nat, OK)]) ∧
  head (waits (w_log (final (InsertBaseData test_defaults (created 0)))))
    = Some (0%nat, OK).
Proof.
  destruct (Wait_on_resolved test_defaults
              (set_sync {| sync_s := OK; sync_l := 0 |} (created 0)) eq_refl)
    as [(st & w' & E & Hst & Hw & _) H].
  split.
  - exists st, w'. split; [exact E|]. subst w' st. split; reflexivity.
  - apply H. reflexivity.
Defined.

(** C7.  A mutation built by [MakeRow] on an insert or an update of the test
    table has all three columns set, the primary key among them, and
    [Apply] accepts it: the checks answer neither [SchemaMismatch] nor
    [InvalidPrimaryKey], in any state of the session. *)
Theorem MakeRow_always_applies (kind : OpKind) (key val : Z) :
  let op := match kind with
            | OpInsert => NewInsert schema_
            | OpUpdate => NewUpdate schema_
            end in
  ∃ row, MakeRow key val (op_row op) = Pass row ∧
    pr_cells row = [Some (VInt64 key); Some (VString "TODO random string");
                    Some (VInt64 val)] ∧
    row_key row = Some key ∧
    apply_check schema_ (with_row op row) = OK ∧
    ∀ cfg w, ∃ w', Apply cfg (with_row op row) w = Ret OK w' ∧
                   w_pending w' = w_pending (tick cfg w) ++ [with_row op row].
Proof.
  destruct kind; simpl; eexists; (split; [reflexivity|]);
    (split_and!; [reflexivity..|]); intros cfg w; eexists; split; reflexivity.
Qed.

(** C8.  The rows of an opened scanner are a finite sequence and it cannot
    be restarted.  However the drain loop of [ScanRows] ends and for
    whatever number of fetches it is followed: if it returns,
    [HasMoreRows] is false and exactly the rows of the snapshot were handed
    out, once, in order; from then on a fetch brings nothing, [HasMoreRows]
    stays false and [Open] on the same scanner is refused, and only a new
    scanner reads the rows again; if a request fails, [CHECK_OK] stops the
    loop with [ScanError].  A fetch brings what the server has ready, which
    may be nothing: the loop, and [ScanRows] with it, ends provided the
    server keeps answering. *)
Theorem drain_terminates cfg sc rows w :
  sc_state sc = ScanOpen →
  (∀ fuel,
     match drain cfg fuel sc rows w with
     | Ret (sc', rows') w' =>
         HasMoreRows sc' = false ∧ sc_rows sc' = [] ∧
         sc_returned sc' = sc_returned sc ++ sc_rows sc ∧
         (∀ w2, ∃ st sc2,
            NextBatch cfg sc' w2 = Ret (st, sc2, []) (tick cfg w2) ∧
            sc_rows sc2 = [] ∧ HasMoreRows sc2 = false) ∧
         (∀ w2, Open cfg sc' w2 = Ret (ScanError, sc') (tick cfg w2))
     | Fail st w' =>
         st = ScanError ∧ ∃ j, (w_clock w ≤ j)%nat ∧ env_scan cfg j = None
     | Hang w' =>
         HasMoreRows sc = true ∧ w_clock w' = (fuel + w_clock w)%nat
     end) ∧
  (∀ w2 n, env_scan cfg (w_clock w2) = Some n →
     ∃ sc2, Open cfg NewScanner w2 = Ret (OK, sc2) (tick cfg w2) ∧
            sc_state sc2 = ScanOpen ∧ sc_returned sc2 = [] ∧
            sc_rows sc2 = scan_rows (w_tablet (tick cfg w2))) ∧
  (served cfg →
     (∃ n o, (∀ fuel, (n ≤ fuel)%nat → drain cfg fuel sc rows w = o) ∧
             match o with Hang _ => False | _ => True end) ∧
     (∃ n o, (∀ fuel, (n ≤ fuel)%nat → ScanRows cfg fuel w = o) ∧
             match o with
             | Ret _ w' => w_stop w' = 0%nat
             | Fail st _ => st = ScanError ∧ ∃ j, env_scan cfg j = None
             | Hang _ => False
             end)).
Proof.
  intros Hs. split_and!.
  - intros fuel. pose proof (drain_outcome cfg fuel sc rows w Hs) as H.
    destruct (drain cfg fuel sc rows w) as [[sc' rows'] w'|st w'|w'].
    + destruct H as (Hs' & Hr' & Hret & _).
      split_and!; try done.
      * by apply HasMoreRows_exhausted.
      * intros w2. unfold NextBatch. rewrite Hs', Hr'.
        destruct (env_scan cfg (w_clock w2)) as [n|]; eexists _, _;
          (split; [by rewrite ?take_nil|]);
          (split; [by rewrite ?drop_nil|]);
          apply HasMoreRows_exhausted; by rewrite ?drop_nil.
      * intros w2. unfold Open. rewrite Hs'.
        by destruct (env_scan cfg (w_clock w2)).
    + destruct H as (-> & _ & H). done.
    + done.
  - intros w2 n E. unfold Open. rewrite E. simpl. by eexists.
  - intros Hserved. split.
    + by apply drain_ends.
    + unfold ScanRows.
      destruct (scan_loop_ends cfg (w_stop w) w Hserved (le_n _))
        as (n & o & Hn & Ho).
      by exists n, o.
Qed.

Import AsyncInit AsyncInitFacts.

(** C4.  In every state the initialiser can reach: one background task was
    started; there is one shared state, the one of the promise, and the
    member future, what [get_client_future] returns and every answer it
    gave are handles on it; the shared state was resolved once if it is
    terminal and never otherwise, and once terminal it keeps its value
    whatever happens; only a step of the background task resolves it or
    makes a construction attempt, and the task goes the same way with the
    callers as without them; a call of [client()], however many there are
    and before resolution too, starts no task and makes no attempt, and
    stays blocked while the state is pending; all calls that returned were
    answered with the same, terminal, value, which is also what the future
    handed out holds. *)
Theorem shared_future_single_assignment b s :
  reachable b s →
  (spawned s = 1%nat ∧
   init_client_thread_ (obj s) = init_client_thread_ (obj (start b))) ∧
  (dom (heap s) = {[ client_promise_ (obj s) ]} ∧
   client_future_ (obj s) = client_promise_ (obj s) ∧
   get_client_future (obj s) = client_promise_ (obj s) ∧
   get_client_future (obj s) = get_client_future (obj (start b)) ∧
   ∀ cf, cf ∈ future_answers s →
     cf.2 = client_promise_ (obj s) ∧
     default Pending (heap s !! cf.2) = cell s ∧
     ∀ cv, cv ∈ client_answers s → cv.2 = default Pending (heap s !! cf.2)) ∧
  (resolutions s = if terminal (cell s) then 1%nat else 0%nat) ∧
  (∀ ls s', run ls s = Some s' → terminal (cell s) = true → cell s' = cell s) ∧
  (∀ l s', step l s = Some s' →
     cell s' ≠ cell s ∨ attempts s' ≠ attempts s ∨
       resolutions s' ≠ resolutions s →
     ∃ o, l = LTask o) ∧
  (∀ ls, run ls (start b) = Some s →
     ∃ s0, run (filter (λ l, background l = true) ls) (start b) = Some s0 ∧
           same_task s s0) ∧
  (∀ c, step (LCall c) s = Some (client_call c s) ∧
        spawned (client_call c s) = spawned s ∧
        attempts (client_call c s) = attempts s ∧
        task (client_call c s) = task s ∧
        cell (client_call c s) = cell s) ∧
  (∀ c, cell s = Pending → step (LReturn c) s = None) ∧
  (∀ cv, cv ∈ client_answers s → cv.2 = cell s ∧ terminal cv.2 = true).
Proof.
  intros Hr. pose proof (reachable_wf b s Hr) as [H1 H2 H3 H4 H5 H6 H7 H8 H9].
  assert (dom (heap s) = {[ 0%nat ]}) as Hd.
  { destruct Hr as [ls Hls].
    apply (run_heap ls (start b) s (wf_start b)); [|done].
    simpl. by rewrite dom_singleton_L. }
  split_and!; try done.
  - by rewrite H3.
  - by rewrite H4, H3.
  - unfold get_client_future. by rewrite H4, H3.
  - intros cf Hcf. rewrite (H9 cf Hcf), H3. split; [done|].
    assert (default Pending (heap s !! 0%nat) = cell s) as ->
      by (unfold cell; by rewrite H3).
    split; [done|]. intros cv Hcv. by destruct (H8 cv Hcv) as [-> _].
  - intros ls s'. apply run_cell.
  - intros l s'. apply step_by_task.
  - intros ls Hls. apply (run_same_task ls (start b) s (start b));
      [apply same_task_refl|done].
  - intros c Hc. simpl. unfold client_return.
    destruct (bool_decide _); [|done].
    unfold cell in Hc. rewrite H3 in Hc. by rewrite H4, Hc.
  - intros cv Hcv. destruct (H8 cv Hcv) as [-> ?]. done.
Qed.

(** Two callers blocked before the client is built: one task, two attempts
    made by it, with the callers as without them, one resolution, both
    callers answered with client 7, and the future handed to a third thread
    is the one of the promise and holds client 7. *)
Lemma shared_future_single_assignment_witness :
  ∃ s, run two_callers (start a_builder) = Some s ∧
    spawned s = 1%nat ∧ resolutions s = 1%nat ∧ cell s = Ready 7%nat ∧
    client_answers s = [(2%nat, Ready 7%nat); (1%nat, Ready 7%nat)] ∧
    (∀ cv, cv ∈ client_answers s → cv.2 = cell s ∧ terminal cv.2 = true) ∧
    future_answers s = [(3%nat, client_promise_ (obj s))] ∧
    (∀ cf, cf ∈ future_answers s →
       cf.2 = client_promise_ (obj s) ∧
       default Pending (heap s !! cf.2) = cell s) ∧
    ∃ s0, run [LTask BuildTransient; LTask BuildTransient; LTask BuildTransient;
               LTask (BuildOk 7%nat)] (start a_builder) = Some s0 ∧
          same_task s s0.
Proof.
  eexists. split; [reflexivity|].
  destruct (shared_future_single_assignment a_builder _
              (ex_intro _ two_callers eq_refl))
    as ((Hs & _) & (_ & _ & _ & _ & Hf) & Hr & _ & _ & Hb & _ & _ & Ha).
  split; [exact Hs|]. split; [exact Hr|]. split; [reflexivity|].
  split; [reflexivity|]. split; [exact Ha|]. split; [reflexivity|].
  split.
  - intros cf Hcf. destruct (Hf cf Hcf) as (? & ? & _). by split.
  - exact (Hb two_callers eq_refl).
Defined.

(** C5.  [Shutdown()] sets the cancellation flag and changes no other member
    of the initialiser, nor anything else: the shared state, the background
    task and the blocked callers are as before.  An attempt in progress is
    not aborted and may still succeed.  The retry loop sees the flag at its
    next check point and exits, resolving the future with [Cancelled]; if
    the client was already built, the future keeps it. *)
Theorem Shutdown_sets_flag_only b s :
  reachable b s →
  (stopping_ (Shutdown (obj s)) = true ∧
   client_builder_ (Shutdown (obj s)) = client_builder_ (obj s) ∧
   client_promise_ (Shutdown (obj s)) = client_promise_ (obj s) ∧
   client_future_ (Shutdown (obj s)) = client_future_ (obj s) ∧
   init_client_thread_ (Shutdown (obj s)) = init_client_thread_ (obj s)) ∧
  (step LShutdown s = Some (Shutdown_step s) ∧
   heap (Shutdown_step s) = heap s ∧ cell (Shutdown_step s) = cell s ∧
   task (Shutdown_step s) = task s ∧ waiters (Shutdown_step s) = waiters s ∧
   spawned (Shutdown_step s) = spawned s ∧
   attempts (Shutdown_step s) = attempts s ∧
   resolutions (Shutdown_step s) = resolutions s ∧
   client_answers (Shutdown_step s) = client_answers s ∧
   future_answers (Shutdown_step s) = future_answers s) ∧
  (task s = AtCheck → ∀ o, ∃ s1,
     step (LTask o) (Shutdown_step s) = Some s1 ∧
     cell s1 = Failed Cancelled ∧ task s1 = Exited ∧
     attempts s1 = attempts s) ∧
  (task s = Building →
     (∀ c, ∃ s1, step (LTask (BuildOk c)) (Shutdown_step s) = Some s1 ∧
                 cell s1 = Ready c ∧ task s1 = Exited) ∧
     (∀ o, ∃ s1 s2,
        step (LTask BuildTransient) (Shutdown_step s) = Some s1 ∧
        cell s1 = Pending ∧ task s1 = AtCheck ∧
        step (LTask o) s1 = Some s2 ∧
        cell s2 = Failed Cancelled ∧ task s2 = Exited)) ∧
  (∀ c, cell s = Ready c →
     ∀ ls s', run ls (Shutdown_step s) = Some s' → cell s' = Ready c).
Proof.
  intros Hr. pose proof (reachable_wf b s Hr) as [H1 H2 H3 H4 H5 H6 H7 H8 H9].
  split_and!; try done.
  - intros Ht o. assert (cell s = Pending) as Hc by (apply H6; congruence).
    eexists. simpl. unfold InitClient_step. simpl. rewrite Ht.
    split; [reflexivity|].
    rewrite cell_resolve. change (cell (Shutdown_step s)) with (cell s).
    rewrite Hc. split; [done|].
    unfold resolve. change (cell (Shutdown_step s)) with (cell s).
    by rewrite Hc.
  - intros Ht. assert (cell s = Pending) as Hc by (apply H6; congruence).
    split.
    + intros c. eexists. simpl. unfold InitClient_step. simpl. rewrite Ht.
      split; [reflexivity|].
      rewrite cell_resolve. change (cell (Shutdown_step s)) with (cell s).
      rewrite Hc. split; [done|].
      unfold resolve. change (cell (Shutdown_step s)) with (cell s).
      by rewrite Hc.
    + intros o. eexists _, _. simpl. unfold InitClient_step at 1. simpl.
      rewrite Ht. split; [reflexivity|]. split; [done|]. split; [done|].
      unfold InitClient_step. simpl. split; [reflexivity|].
      rewrite cell_resolve.
      change (cell (goto AtCheck 0 (Shutdown_step s))) with (cell s).
      rewrite Hc. split; [done|].
      unfold resolve.
      change (cell (goto AtCheck 0 (Shutdown_step s))) with (cell s).
      by rewrite Hc.
  - intros c Hc ls s' Hrun.
    rewrite (run_cell ls (Shutdown_step s) s' Hrun).
    + exact Hc.
    + change (cell (Shutdown_step s)) with (cell s). by rewrite Hc.
Qed.

(** Shutdown while the first attempt is in progress with a caller blocked:
    nothing but the flag changes; the attempt fails and the loop exits at
    the check point with [Cancelled], which the caller is answered. *)
Lemma Shutdown_sets_flag_only_witness :
  ∃ s, run shut_down_early (start a_builder) = Some s ∧
    task s = Building ∧ stopping_ (obj s) = false ∧
    stopping_ (obj (Shutdown_step s)) = true ∧
    heap (Shutdown_step s) = heap s ∧ task (Shutdown_step s) = task s ∧
    ∃ s', run [LShutdown; LTask BuildTransient; LTask BuildTransient; LReturn 1%nat] s
            = Some s' ∧
          cell s' = Failed Cancelled ∧
          client_answers s' = [(1%nat, Failed Cancelled)].
Proof.
  eexists. split; [reflexivity|].
  destruct (Shutdown_sets_flag_only a_builder _
              (ex_intro _ shut_down_early eq_refl))
    as ((Hflag & _) & (_ & Hheap & _ & Htask & _) & _).
  split; [reflexivity|]. split; [reflexivity|].
  split; [exact Hflag|]. split; [exact Hheap|]. split; [exact Htask|].
  eexists. split; [reflexivity|]. split; reflexivity.
Defined.

(** An opened scanner over the seven rows [InsertBaseData] left, with a
    server that has no row ready for one fetch in three: the drain loop
    hands out the seven rows and ends, and so does [ScanRows]. *)
Lemma drain_terminates_witness :
  let w := populated 7 3 in
  let sc := {| sc_state := ScanOpen; sc_rows := scan_rows (w_tablet w);
               sc_fetches := 0; sc_returned := [] |} in
  (∃ sc' rows' w', drain (busy 3 7) 12 sc [] w = Ret (sc', rows') w' ∧
     HasMoreRows sc' = false ∧
     sc_returned sc' = (λ k, row_of k 0) <$> seqZ 0 7) ∧
  ∃ n w', ∀ fuel, (n ≤ fuel)%nat → ScanRows (busy 3 7) fuel w = Ret () w'.
Proof.
  intros w sc.
  destruct (drain_terminates (busy 3 7) sc [] w eq_refl)
    as (Hdrain & _ & Hends).
  split.
  - specialize (Hdrain 12%nat).
    destruct (drain (busy 3 7) 12 sc [] w) as [[sc' rows'] w'|st w'|w'] eqn:E.
    + destruct Hdrain as (Hm & _ & Hret & _).
      exists sc', rows', w'. split; [reflexivity|]. split; [exact Hm|].
      rewrite Hret. vm_compute. reflexivity.
    + exfalso. destruct Hdrain as (_ & j & _ & Ej). discriminate Ej.
    + exfalso. vm_compute in E. discriminate E.
  - destruct (Hends (busy_served 3 7)) as (_ & n & o & Hn & Ho).
    destruct o as [[] w'|st w'|w'].
    + by exists n, w'.
    + exfalso. destruct Ho as (_ & j & Ej). discriminate Ej.
    + destruct Ho.
Defined.

(** The same rows with a server that never has one ready: the scanner
    opens, [HasMoreRows] is true, and the drain loop is still running after
    any number of fetches; [ScanRows] does not return although the latch
    will be counted down. *)
Lemma drain_terminates_counterexample :
  let w := populated 7 3 in
  ∃ sc, Open (starved 3 7) NewScanner w = Ret (OK, sc) (tick (starved 3 7) w) ∧
    sc_state sc = ScanOpen ∧ length (sc_rows sc) = 7%nat ∧
    HasMoreRows sc = true ∧
    (∀ fuel, ∃ w', drain (starved 3 7) fuel sc [] (tick (starved 3 7) w) = Hang w') ∧
    (∀ fuel, ∃ w', ScanRows (starved 3 7) fuel w = Hang w').
Proof.
  intros w. eexists. split; [reflexivity|]. split; [reflexivity|].
  split; [by vm_compute|]. split; [by vm_compute|]. split.
  - intros fuel. apply drain_starved; [done|by vm_compute].
  - intros fuel. apply scan_loop_starved; [done|simpl; lia|by vm_compute].
Qed.

(** * Further properties of the code *)

(** ** [CurlWebPages] *)

Lemma curl_urls_spec env urls s :
  match curl_urls env urls s with
  | CurlReturned s' =>
      ∃ new, cu_log s' = cu_log s ++ new ∧ fst ∘ fst <$> new = urls ∧
             Forall page_ok new
  | CurlCheckFailed s' =>
      ∃ pre url, cu_log s' = cu_log s ++ pre ++ [(url, OK, "")] ∧
        cu_dst s' = "" ∧ Forall page_ok pre ∧
        (fst ∘ fst <$> pre) ++ [url] `prefix_of` urls
  end.
Proof.
  revert s. induction urls as [|url urls IH]; intros s; simpl.
  { exists []. by rewrite app_nil_r. }
  set (r := FetchURL env (length (cu_log s)) url (cu_dst s)).
  set (s' := {| cu_dst := r.2; cu_log := cu_log s ++ [(url, r.1, r.2)] |}).
  assert (∀ o, o = curl_urls env urls s' → page_ok (url, r.1, r.2) →
    match o with
    | CurlReturned s'0 =>
        ∃ new, cu_log s'0 = cu_log s ++ new ∧ fst ∘ fst <$> new = url :: urls ∧
               Forall page_ok new
    | CurlCheckFailed s'0 =>
        ∃ pre url0, cu_log s'0 = cu_log s ++ pre ++ [(url0, OK, "")] ∧
          cu_dst s'0 = "" ∧ Forall page_ok pre ∧
          (fst ∘ fst <$> pre) ++ [url0] `prefix_of` url :: urls
    end) as Hgo.
  { intros o -> Hok. specialize (IH s').
    destruct (curl_urls env urls s') as [s2|s2].
    - destruct IH as (new & E & Hu & Hf). exists ((url, r.1, r.2) :: new).
      split_and!.
      + rewrite E. simpl. by rewrite <- app_assoc.
      + by rewrite fmap_cons, Hu.
      + by constructor.
    - destruct IH as (pre & url0 & E & Hd & Hf & Hp).
      exists ((url, r.1, r.2) :: pre), url0. split_and!; try done.
      + rewrite E. simpl. by rewrite <- app_assoc.
      + by constructor.
      + rewrite fmap_cons. simpl. by apply prefix_cons. }
  destruct (ok r.1) eqn:Eok.
  - apply bool_decide_eq_true in Eok.
    destruct (bool_decide (0 < String.length r.2)%nat) eqn:Elen.
    + apply Hgo; [done|]. intros _ E. simpl in E.
      apply bool_decide_eq_true in Elen. rewrite E in Elen. simpl in Elen. lia.
    + apply bool_decide_eq_false in Elen.
      assert (r.2 = "") as E2.
      { destruct r.2; [done|]. simpl in Elen. lia. }
      exists [], url. simpl. rewrite Eok, E2. split_and!; try done.
      apply prefix_cons, prefix_nil.
  - apply bool_decide_eq_false in Eok. apply Hgo; [done|]. by intros ?.
Qed.

Lemma curl_urls_answered env urls s :
  answered env (cu_log s) → answered env (cu_log (curl_final (curl_urls env urls s))).
Proof.
  revert s. induction urls as [|url urls IH]; intros s Hs; simpl; [done|].
  set (r := FetchURL env (length (cu_log s)) url (cu_dst s)).
  set (s' := {| cu_dst := r.2; cu_log := cu_log s ++ [(url, r.1, r.2)] |}).
  assert (answered env (cu_log s')) as Hs'.
  { intros i e Hi. simpl in Hi. apply lookup_app_Some in Hi as [Hi|[Hlen Hi]].
    { by apply Hs. }
    apply list_lookup_singleton_Some in Hi as [Hi <-]. simpl.
    exists (cu_dst s). replace i with (length (cu_log s)) by lia.
    by destruct (FetchURL env (length (cu_log s)) url (cu_dst s)). }
  destruct (ok r.1); [destruct (bool_decide _)|]; simpl; auto.
Qed.

Lemma curl_loop_answered env urls stop s :
  answered env (cu_log s) →
  answered env (cu_log (curl_final (curl_loop env urls stop s))).
Proof.
  revert s. induction stop as [|stop IH]; intros s Hs; simpl; [done|].
  pose proof (curl_urls_answered env urls s Hs) as H.
  destruct (curl_urls env urls s) as [s'|s']; simpl in *; auto.
Qed.

Lemma curl_loop_spec env urls stop s :
  match curl_loop env urls stop s with
  | CurlReturned s' =>
      ∃ new, cu_log s' = cu_log s ++ new ∧
             fst ∘ fst <$> new = concat (replicate stop urls) ∧
             Forall page_ok new
  | CurlCheckFailed s' =>
      ∃ pre url, cu_log s' = cu_log s ++ pre ++ [(url, OK, "")] ∧
        cu_dst s' = "" ∧ Forall page_ok pre ∧
        (fst ∘ fst <$> pre) ++ [url] `prefix_of` concat (replicate stop urls)
  end.
Proof.
  revert s. induction stop as [|stop IH]; intros s; simpl.
  { exists []. by rewrite app_nil_r. }
  pose proof (curl_urls_spec env urls s) as H1.
  destruct (curl_urls env urls s) as [s1|s1].
  - destruct H1 as (n1 & E1 & U1 & F1). specialize (IH s1).
    destruct (curl_loop env urls stop s1) as [s2|s2].
    + destruct IH as (n2 & E2 & U2 & F2). exists (n1 ++ n2). split_and!.
      * by rewrite E2, E1, app_assoc.
      * by rewrite fmap_app, U1, U2.
      * by apply Forall_app.
    + destruct IH as (pre & url & E2 & Hd & F2 & P2).
      exists (n1 ++ pre), url. split_and!; try done.
      * by rewrite E2, E1, !app_assoc.
      * by apply Forall_app.
      * rewrite fmap_app, U1, <- app_assoc. by apply prefix_app.
  - destruct H1 as (pre & url & E1 & Hd & F1 & P1).
    exists pre, url. split_and!; try done.
    by apply prefix_app_r.
Qed.

(** X1.  The thread fetches the two status pages of the tablet server, the scans
    page and then the transactions page, once per read of the stop latch
    that sees it up, and never stops between the two.  A fetch that fails is
    passed over; the only way the thread aborts is a fetch that succeeds and
    leaves [dst] empty, and that one is the last fetch it makes. *)
Theorem CurlWebPages_outcome env stop :
  answered env (cu_log (curl_final (CurlWebPages env stop))) ∧
  match CurlWebPages env stop with
  | CurlReturned s =>
      fst ∘ fst <$> cu_log s =
        concat (replicate stop [bound_http_addr env +:+ "/scans";
                                bound_http_addr env +:+ "/transactions"]) ∧
      length (cu_log s) = (2 * stop)%nat ∧
      Forall page_ok (cu_log s)
  | CurlCheckFailed s =>
      ∃ pre url, cu_log s = pre ++ [(url, OK, "")] ∧ cu_dst s = "" ∧
        Forall page_ok pre ∧ (length pre < 2 * stop)%nat ∧
        (fst ∘ fst <$> pre) ++ [url] `prefix_of`
          concat (replicate stop [bound_http_addr env +:+ "/scans";
                                  bound_http_addr env +:+ "/transactions"])
  end.
Proof.
  assert (∀ n (a b : string), length (concat (replicate n [a; b])) = (2 * n)%nat)
    as Hlen.
  { intros n a b. induction n as [|n IH]; simpl; [done|]. rewrite IH. lia. }
  split.
  { apply curl_loop_answered. by intros i e Hi. }
  unfold CurlWebPages.
  pose proof (curl_loop_spec env (curl_pages (bound_http_addr env)) stop
                {| cu_dst := ""; cu_log := [] |}) as H.
  destruct (curl_loop _ _ _ _) as [s|s]; simpl in H.
  - destruct H as (new & -> & Hu & Hf). split_and!; try done.
    rewrite <- (length_fmap (fst ∘ fst)), Hu. apply Hlen.
  - destruct H as (pre & url & -> & Hd & Hf & Hp).
    exists pre, url. split_and!; try done.
    apply prefix_length in Hp.
    rewrite length_app, length_fmap in Hp. simpl in Hp.
    unfold curl_pages in Hp. rewrite Hlen in Hp. lia.
Qed.

(** X2.  Against a web server that answers no successful fetch with an empty
    page, be it one that fails every fetch, the thread returns once the
    latch is counted down, whatever the number of reads that see it up,
    having fetched the scans page and the transactions page that many
    times, in turn. *)
Theorem CurlWebPages_returns env stop :
  serves_pages env →
  ∃ s, CurlWebPages env stop = CurlReturned s ∧
    fst ∘ fst <$> cu_log s =
      concat (replicate stop [bound_http_addr env +:+ "/scans";
                              bound_http_addr env +:+ "/transactions"]).
Proof.
  intros Hsrv.
  pose proof (curl_loop_answered env (curl_pages (bound_http_addr env)) stop
                {| cu_dst := ""; cu_log := [] |}) as Ha.
  pose proof (curl_loop_spec env (curl_pages (bound_http_addr env)) stop
                {| cu_dst := ""; cu_log := [] |}) as H.
  unfold CurlWebPages.
  destruct (curl_loop _ _ _ _) as [s|s]; simpl in H, Ha.
  - destruct H as (new & E & Hu & Hf). exists s. split; [done|]. by rewrite E.
  - exfalso. destruct H as (pre & url & E & _).
    destruct (Ha ltac:(by intros i e Hi) (length pre) (url, OK, "")) as [old Hold].
    { rewrite E. simpl. by rewrite lookup_app_r, Nat.sub_diag by lia. }
    simpl in Hold. apply (Hsrv (length pre) url old); by rewrite Hold.
Qed.

(** Two passes against a server whose every third fetch fails: four
    fetches, the third of them failed, and the thread returns. *)
Lemma CurlWebPages_returns_witness :
  ∃ s, CurlWebPages flaky_server 2 = CurlReturned s ∧
    fst ∘ fst <$> cu_log s =
      ["127.0.0.1:9000/scans"; "127.0.0.1:9000/transactions";
       "127.0.0.1:9000/scans"; "127.0.0.1:9000/transactions"].
Proof.
  apply (CurlWebPages_returns flaky_server 2).
  intros i url old. unfold flaky_server. cbn [FetchURL].
  destruct (i mod 3 =? 2)%nat; simpl; [intros [=]|intros _ [=]].
Defined.

(** Three passes against a server that answers the fifth fetch with an empty
    page: the thread aborts on it, in the middle of the third pass. *)
Lemma CurlWebPages_aborts :
  ∃ s, CurlWebPages empty_page_server 3 = CurlCheckFailed s ∧
    length (cu_log s) = 5%nat ∧
    last (cu_log s) = Some ("127.0.0.1:9000/scans", OK, "").
Proof. eexists. split; [reflexivity|]. split; reflexivity. Qed.

(** ** What a step of the writer leaves untouched *)

Section Frames.
Context (cfg : Config).

Lemma await_outcome fuel k w :
  (length (w_inflight w) ≤ fuel)%nat →
  match await cfg fuel k w with
  | Ret st w' =>
      ∃ n k', w' = record (EvWait k' st) (deliver_n cfg n w) ∧
        sync_l (w_sync (deliver_n cfg n w)) = 0%nat ∧
        st = sync_s (w_sync (deliver_n cfg n w))
  | Fail _ _ => False
  | Hang w' =>
      ∃ n, w' = deliver_n cfg n w ∧ w_inflight w' = [] ∧
           sync_l (w_sync w') ≠ 0%nat
  end.
Proof.
  revert k w. induction fuel as [|fuel IH]; intros k w Hlen.
  - simpl. destruct (decide (sync_l (w_sync w) = 0%nat)) as [E|E].
    + by exists 0%nat, k.
    + exists 0%nat. split_and!; try done.
      destruct (w_inflight w); [done|simpl in Hlen; lia].
  - simpl. destruct (decide (sync_l (w_sync w) = 0%nat)) as [E|E].
    { by exists 0%nat, k. }
    destruct (w_inflight w) as [|[j b] rest] eqn:Ef.
    { by exists 0%nat. }
    specialize (IH (S k) (deliver cfg w)).
    assert (length (w_inflight (deliver cfg w)) ≤ fuel)%nat as Hlen'.
    { unfold deliver. rewrite Ef. simpl in *. lia. }
    specialize (IH Hlen').
    destruct (await cfg fuel (S k) (deliver cfg w)) as [st w'|st w'|w'].
    + destruct IH as (n & k' & H). by exists (S n), k'.
    + done.
    + destruct IH as (n & H). by exists (S n).
Qed.

Lemma Wait_outcome w :
  match Wait cfg w with
  | Ret st w' =>
      ∃ n k', w' = record (EvWait k' st) (deliver_n cfg n (tick cfg w)) ∧
        sync_l (w_sync w') = 0%nat ∧ st = sync_s (w_sync w')
  | Fail _ _ => False
  | Hang w' =>
      ∃ n, w' = deliver_n cfg n (tick cfg w) ∧ w_inflight w' = [] ∧
           sync_l (w_sync w') ≠ 0%nat
  end.
Proof.
  unfold Wait.
  pose proof (await_outcome (length (w_inflight (tick cfg w))) 0 (tick cfg w)
                (le_n _)) as H.
  destruct (await _ _ _ _) as [st w'|st w'|w']; [|done..].
  destruct H as (n & k' & -> & Hl & Hs). by exists n, k'.
Qed.

End Frames.

(** X3.  [WaitForLastBatchAndFlush] in any state of the session and of the
    signal.  For a key that is no multiple of the batch size it does nothing
    and answers [OK].  For a multiple it waits on the signal.  If the wait
    answers an error, that error is returned and nothing is flushed: the
    mutations stay queued, and the signal stays resolved with the error.
    If the wait answers [OK], everything queued is flushed as one batch, the
    newest outstanding, and the queue is empty.  The function never aborts;
    it blocks for ever only on an armed signal with no flush outstanding. *)
Theorem WaitForLastBatchAndFlush_contract cfg key w :
  match WaitForLastBatchAndFlush cfg key w with
  | Ret st w' =>
      if decide (Z.rem key (kSessionBatchSize cfg) = 0) then
        if ok st then
          books w' = flush_books (books w) ∧
          last (w_inflight w') = Some (w_issued w, w_pending w)
        else
          books w' = books w ∧
          sync_l (w_sync w') = 0%nat ∧ sync_s (w_sync w') = st
      else st = OK ∧ w' = w
  | Fail _ _ => False
  | Hang w' =>
      Z.rem key (kSessionBatchSize cfg) = 0 ∧ books w' = books w ∧
      w_inflight w' = [] ∧ sync_l (w_sync w') ≠ 0%nat
  end.
Proof.
  unfold WaitForLastBatchAndFlush.
  destruct (decide (Z.rem key (kSessionBatchSize cfg) = 0)) as [Hk|Hk].
  2:{ done. }
  unfold mbind at 1, M_bind at 1.
  pose proof (Wait_outcome cfg w) as H.
  destruct (Wait cfg w) as [st w1|st w1|w1]; [|done|].
  - destruct H as (n & k' & -> & Hl & Hs).
    set (w1 := deliver_n cfg n (tick cfg w)) in *.
    assert (books w1 = books w) as Hb.
    { unfold w1. by rewrite books_deliver_n, books_tick. }
    destruct (ok st) eqn:Eok.
    + unfold mbind, M_bind, Reset, FlushAsync. simpl.
      set (w2 := tick cfg (record (EvWait k' st) w1)).
      set (w3 := tick cfg (record EvReset _)).
      assert (books w2 = books w) as Hb2
        by (unfold w2; rewrite books_tick; exact Hb).
      assert (books w3 = books w) as Hb3
        by (unfold w3; rewrite books_tick; exact Hb2).
      clearbody w3. clear Hb Hb2. unfold books, flush_books in *. simpl.
      injection Hb3 as E1 E2 E3 E4 E5.
      rewrite last_snoc. rewrite E1, E2, E3, E4, E5. done.
    + simpl. rewrite Eok. split_and!; try done.
  - destruct H as (n & -> & Hf & Hl). split_and!; try done.
    by rewrite books_deliver_n, books_tick.
Qed.

(** ** Runs that may fail *)

Section Hoare.
Context (cfg : Config).

Lemma hoare_bind {A B} P (c : M A) Q (f : A → M B) R F :
  hoare P c Q F → (∀ a, hoare (Q a) (f a) R F) → hoare P (c ≫= f) R F.
Proof.
  intros Hc Hf w Hw. specialize (Hc w Hw). unfold mbind, M_bind.
  destruct (c w) as [a w'| |]; try done. by apply Hf.
Qed.

Lemma hoare_ret {A} (P : World → Prop) (a : A) (Q : A → World → Prop) F :
  (∀ w, P w → Q a w) → hoare P (mret a) Q F.
Proof. intros H w Hw. by apply H. Qed.

Lemma hoare_conseq {A} (P P' : World → Prop) (c : M A)
    (Q Q' : A → World → Prop) (F F' : Status → World → Prop) :
  (∀ w, P' w → P w) → (∀ a w, Q a w → Q' a w) → (∀ st w, F st w → F' st w) →
  hoare P c Q F → hoare P' c Q' F'.
Proof.
  intros HP HQ HF Hc w Hw. specialize (Hc w (HP w Hw)).
  destruct (c w); auto.
Qed.

Lemma hoare_exists {A X} (P : X → World → Prop) (c : M A) Q F :
  (∀ x, hoare (P x) c Q F) → hoare (λ w, ∃ x, P x w) c Q F.
Proof. intros H w [x Hw]. by apply (H x). Qed.

Lemma hoare_pure {A} (φ : Prop) (P : World → Prop) (c : M A) Q F :
  (φ → hoare P c Q F) → hoare (λ w, φ ∧ P w) c Q F.
Proof. intros H w [Hφ Hw]. by apply H. Qed.

Lemma hoare_for_keys (I : nat → World → Prop) F body k0 n :
  (∀ i, (i < n)%nat → hoare (I i) (body (k0 + Z.of_nat i)) (λ _, I (S i)) F) →
  hoare (I 0%nat) (for_keys body k0 n) (λ _, I n) F.
Proof.
  revert I k0. induction n as [|n IH]; intros I k0 Hbody; simpl.
  { by apply hoare_ret. }
  apply (hoare_bind _ _ (λ _, I 1%nat)).
  - specialize (Hbody 0%nat ltac:(lia)). by rewrite Z.add_0_r in Hbody.
  - intros _. apply (IH (λ i, I (S i))). intros i Hi.
    specialize (Hbody (S i) ltac:(lia)).
    by replace (k0 + 1 + Z.of_nat i) with (k0 + Z.of_nat (S i)) by lia.
Qed.

Lemma hoare_ASSERT_OK P (c : M Status) (Q : World → Prop) F :
  hoare P c (λ st w', if ok st then Q w' else F st w') F →
  hoare P (ASSERT_OK c) (λ _, Q) F.
Proof.
  intros Hc. unfold ASSERT_OK. eapply hoare_bind; [exact Hc|].
  intros st w Hw. simpl in *. by destruct (ok st).
Qed.

(** *** What the writer has applied *)

Lemma flush_status_serve id b t : flush_status (serve cfg id b t).2.
Proof.
  unfold serve, write_batch. destruct (env_transport cfg id).
  - destruct (write_all t [] true b) as [[t' pend] []]; simpl.
    + by left.
    + right. by left.
  - right. by right.
Qed.

Lemma tracks_deliver φ w : tracks φ w → tracks φ (deliver cfg w).
Proof.
  intros [H1 H2]. unfold deliver.
  destruct (w_inflight w) as [|[j b] rest]; [done|].
  split; [done|]. apply flush_status_serve.
Qed.

Lemma tracks_deliver_n φ n w : tracks φ w → tracks φ (deliver_n cfg n w).
Proof.
  revert w. induction n as [|n IH]; intros w Hw; simpl; [done|].
  by apply IH, tracks_deliver.
Qed.

Lemma tracks_tick φ w : tracks φ w → tracks φ (tick cfg w).
Proof. intros [H1 H2]. unfold tick. by apply tracks_deliver_n. Qed.

Lemma tracks_Run φ F :
  hoare (tracks φ) (Run cfg OK) (λ _, tracks φ) F.
Proof.
  intros w Hw. apply tracks_tick in Hw as [H1 H2]. simpl.
  split; [done|]. by left.
Qed.

Lemma tracks_Reset φ F :
  hoare (tracks φ) (Reset cfg) (λ _, tracks φ) F.
Proof. intros w Hw. by apply tracks_tick in Hw as [H1 H2]. Qed.

Lemma tracks_FlushAsync φ F :
  hoare (tracks φ) (FlushAsync cfg) (λ _, tracks φ) F.
Proof. intros w Hw. by apply tracks_tick in Hw as [H1 H2]. Qed.

Lemma tracks_Wait φ F :
  hoare (tracks φ) (Wait cfg) (λ st w', tracks φ w' ∧ flush_status st) F.
Proof.
  intros w Hw. pose proof (Wait_outcome cfg w) as H.
  destruct (Wait cfg w) as [st w'|st w'|w']; [|done..].
  destruct H as (n & k' & -> & Hl & ->).
  apply tracks_tick, (tracks_deliver_n _ n) in Hw as [H1 H2]. done.
Qed.

Lemma tracks_Apply φ m F :
  apply_check schema_ m = OK →
  hoare (tracks (λ a s, φ (a ++ [m]) s)) (Apply cfg m)
    (λ st w', st = OK ∧ tracks φ w') F.
Proof.
  intros Hm w Hw. apply tracks_tick in Hw as [H1 H2].
  unfold Apply. rewrite Hm. simpl. done.
Qed.

Lemma tracks_stop φ F :
  hoare (tracks φ) stop_latch_running
    (λ b w', if b : bool then tracks (λ a s, φ a (S s)) w'
             else tracks (λ a s, φ a s ∧ s = 0%nat) w') F.
Proof.
  intros w [H1 H2]. unfold stop_latch_running.
  destruct (w_stop w) as [|s] eqn:E; simpl.
  - split; [|done]. by rewrite E.
  - done.
Qed.

Lemma tracks_WaitForLastBatchAndFlush φ key F :
  hoare (tracks φ) (WaitForLastBatchAndFlush cfg key)
    (λ st w', tracks φ w' ∧ flush_status st) F.
Proof.
  unfold WaitForLastBatchAndFlush. destruct (decide _).
  2:{ apply hoare_ret. intros w Hw. split; [done|by left]. }
  eapply hoare_bind; [apply tracks_Wait|].
  intros st. destruct (ok st) eqn:E.
  - apply (hoare_conseq (tracks φ) _ _ (λ st w', tracks φ w' ∧ flush_status st)
             _ F F); [by intros w [? _]|done|done|].
    eapply hoare_bind; [apply tracks_Reset|]. intros [].
    eapply hoare_bind; [apply tracks_FlushAsync|]. intros [].
    apply hoare_ret. intros w Hw. split; [done|by left].
  - apply hoare_ret. by intros w [? ?].
Qed.

Lemma not_ok_failure st : flush_status st → ok st = false → flush_failure st.
Proof.
  intros [->|[->| ->]] H; [by vm_compute in H|by left|by right].
Qed.

Lemma tracks_ASSERT_trigger φ key :
  hoare (tracks φ) (ASSERT_OK (WaitForLastBatchAndFlush cfg key))
    (λ _, tracks φ) (λ st w', tracks φ w' ∧ flush_failure st).
Proof.
  apply hoare_ASSERT_OK.
  eapply hoare_conseq; [| | |apply tracks_WaitForLastBatchAndFlush];
    [done| |intros st w H; exact H].
  intros st w [Hw Hst]. simpl. destruct (ok st) eqn:E; [done|].
  split; [done|]. by apply not_ok_failure.
Qed.

Lemma tracks_ASSERT_Wait φ :
  hoare (tracks φ) (ASSERT_OK (Wait cfg))
    (λ _, tracks φ) (λ st w', tracks φ w' ∧ flush_failure st).
Proof.
  apply hoare_ASSERT_OK.
  eapply hoare_conseq; [| | |apply tracks_Wait];
    [done| |intros st w H; exact H].
  intros st w [Hw Hst]. simpl. destruct (ok st) eqn:E; [done|].
  split; [done|]. by apply not_ok_failure.
Qed.

Lemma tracks_ASSERT_Apply φ m F :
  apply_check schema_ m = OK →
  hoare (tracks (λ a s, φ (a ++ [m]) s)) (ASSERT_OK (Apply cfg m))
    (λ _, tracks φ) F.
Proof.
  intros Hm. apply hoare_ASSERT_OK.
  eapply hoare_conseq; [| | |by apply tracks_Apply];
    [done| |intros st w H; exact H].
  by intros st w [-> ?].
Qed.

End Hoare.

(** ** What the write loops apply, in every run *)

Section Applied.
Context (cfg : Config).

Lemma InsertBaseData_tracks w0 :
  hoare (eq w0) (InsertBaseData cfg)
    (λ _, tracks (inserts_to (Z.to_nat (FLAGS_row_count cfg))))
    (λ st w', (∃ i, (i ≤ Z.to_nat (FLAGS_row_count cfg))%nat ∧
                    tracks (inserts_to i) w') ∧ flush_failure st).
Proof.
  set (n := Z.to_nat (FLAGS_row_count cfg)).
  set (F := λ (st : Status) w', (∃ i, (i ≤ n)%nat ∧ tracks (inserts_to i) w') ∧
                                flush_failure st).
  intros w <-. rewrite InsertBaseData_eq. fold n.
  assert (hoare (tracks (inserts_to 0))
    (Run cfg OK;;
     for_keys (insert_body cfg) 0 n;;
     ASSERT_OK (WaitForLastBatchAndFlush cfg (kSessionBatchSize cfg));;
     ASSERT_OK (Wait cfg))
    (λ _, tracks (inserts_to n)) F) as H.
  2:{ apply H. split; [done|by left]. }
  eapply hoare_bind; [apply tracks_Run|]. intros [].
  eapply hoare_bind.
  { apply (hoare_for_keys (λ i, tracks (inserts_to i)) F). intros i Hi.
    rewrite Z.add_0_l. unfold insert_body.
    eapply hoare_bind.
    - eapply hoare_conseq; [| | |apply (tracks_ASSERT_Apply cfg (inserts_to (S i))
                                          (made OpInsert (Z.of_nat i) 0) F)];
        [|done|done|done].
      intros w' [Ha Hs]. split; [|done]. unfold inserts_to in *.
      rewrite Ha. by rewrite seqZ_S, fmap_app.
    - intros []. eapply hoare_conseq; [| | |apply tracks_ASSERT_trigger];
        [done|done|].
      intros st w' [Hw Hst]. split; [|done]. exists (S i). split; [lia|done]. }
  intros []. eapply hoare_bind.
  { eapply hoare_conseq; [| | |apply tracks_ASSERT_trigger]; [done|done|].
    intros st w' [Hw Hst]. split; [|done]. by exists n. }
  intros []. eapply hoare_conseq; [| | |apply tracks_ASSERT_Wait]; [done|done|].
  intros st w' [Hw Hst]. split; [|done]. by exists n.
Qed.

Lemma update_pass_tracks s0 it c j :
  1 ≤ it → 0 ≤ j → j + Z.of_nat c ≤ Z.max (FLAGS_row_count cfg) j →
  hoare (tracks (in_pass cfg s0 it)) (update_pass cfg it j c)
    (λ _, tracks (in_pass cfg s0 it))
    (λ st w', tracks (in_pass cfg s0 it) w' ∧ flush_failure st).
Proof.
  intros Hit. revert j. induction c as [|c IH]; intros j Hj Hn.
  { by apply hoare_ret. }
  change (update_pass cfg it j (S c)) with
    (running ← stop_latch_running;
     if running : bool then
       CHECK_OK (Apply cfg (made OpUpdate j it));;
       CHECK_OK (WaitForLastBatchAndFlush cfg j);;
       update_pass cfg it (j + 1) c
     else mret ()).
  eapply hoare_bind; [apply tracks_stop|].
  intros [].
  - rewrite !CHECK_OK_eq. eapply hoare_bind.
    { eapply hoare_conseq; [| | |apply (tracks_ASSERT_Apply cfg (in_pass cfg s0 it)
                                          (made OpUpdate j it))];
        [|done|intros st w H; exact H|done].
      intros w [(H0 & Ha & Hs) Hst]. split; [|done]. split_and!; [done| |].
      - apply Forall_app. split; [done|]. apply Forall_singleton.
        exists j, it. split_and!; try done; lia.
      - rewrite length_app. simpl. lia. }
    intros []. eapply hoare_bind; [apply tracks_ASSERT_trigger|].
    intros []. apply IH; lia.
  - apply hoare_ret. intros w [[H _] Hst]. done.
Qed.

Lemma in_pass_next s0 it a s :
  in_pass cfg s0 (it - 1) a (S s) → in_pass cfg s0 it a s.
Proof.
  intros (H0 & Ha & Hs). split_and!; [lia| |lia].
  eapply Forall_impl; [exact Ha|].
  intros m (k & v & -> & Hk & Hv). exists k, v. split_and!; try done; lia.
Qed.

Lemma update_loop_tracks s0 fuel it :
  1 ≤ it →
  hoare (tracks (in_pass cfg s0 (it - 1))) (update_loop cfg fuel it)
    (λ _ w', ∃ it', tracks (in_pass cfg s0 it') w' ∧ w_stop w' = 0%nat)
    (λ st w', (∃ it', tracks (in_pass cfg s0 it') w') ∧ flush_failure st).
Proof.
  revert it. induction fuel as [|fuel IH]; intros it Hit.
  - change (update_loop cfg 0 it) with
      (running ← stop_latch_running; if running : bool then hang else mret ()).
    eapply hoare_bind; [apply tracks_stop|].
    intros []; [by intros w Hw|].
    apply hoare_ret. intros w [[H E] Hst]. by exists (it - 1).
  - change (update_loop cfg (S fuel) it) with
      (running ← stop_latch_running;
       if running : bool then
         Run cfg OK;;
         update_pass cfg it 0 (Z.to_nat (FLAGS_row_count cfg));;
         CHECK_OK (WaitForLastBatchAndFlush cfg (kSessionBatchSize cfg));;
         CHECK_OK (Wait cfg);;
         Reset cfg;;
         update_loop cfg fuel (it + 1)
       else mret ()).
    eapply hoare_bind; [apply tracks_stop|].
    intros [].
    2:{ apply hoare_ret. intros w [[H E] Hst]. by exists (it - 1). }
    rewrite !CHECK_OK_eq.
    apply (hoare_conseq (tracks (in_pass cfg s0 it)) _ _
             (λ _ w', ∃ it', tracks (in_pass cfg s0 it') w' ∧ w_stop w' = 0%nat) _
             (λ st w', (∃ it', tracks (in_pass cfg s0 it') w') ∧ flush_failure st) _);
      [|done|done|].
    { intros w [H Hst]. split; [|done]. by apply in_pass_next. }
    eapply hoare_bind; [apply tracks_Run|]. intros [].
    eapply hoare_bind.
    { eapply hoare_conseq; [| | |apply (update_pass_tracks s0 it _ 0)];
        [done|done| |done|done|lia].
      intros st w [Hw Hst]. split; [by exists it|done]. }
    intros []. eapply hoare_bind.
    { eapply hoare_conseq; [| | |apply tracks_ASSERT_trigger]; [done|done|].
      intros st w [Hw Hst]. split; [by exists it|done]. }
    intros []. eapply hoare_bind.
    { eapply hoare_conseq; [| | |apply tracks_ASSERT_Wait]; [done|done|].
      intros st w [Hw Hst]. split; [by exists it|done]. }
    intros []. eapply hoare_bind; [apply tracks_Reset|]. intros [].
    eapply hoare_conseq; [| | |apply (IH (it + 1))]; [|done|done|lia].
    intros w Hw. by replace (it + 1 - 1) with it by lia.
Qed.

Lemma UpdateRows_tracks w0 :
  hoare (eq w0) (UpdateRows cfg)
    (λ _ w', ∃ it', tracks (in_pass cfg (w_stop w0) it') w' ∧ w_stop w' = 0%nat)
    (λ st w', (∃ it', tracks (in_pass cfg (w_stop w0) it') w') ∧
              flush_failure st).
Proof.
  intros w <-. unfold UpdateRows. rewrite preamble_bind.
  apply (update_loop_tracks (w_stop w0) (w_stop w0) 1 ltac:(lia)).
  split; [|by left]. split_and!; [done|apply Forall_nil_2|simpl; lia].
Qed.

End Applied.

Lemma UpdateRows_in_pass cfg w0 :
  ∃ it, in_pass cfg (w_stop w0) it
          (applied (w_log (final (UpdateRows cfg w0))))
          (w_stop (final (UpdateRows cfg w0))) ∧
    match UpdateRows cfg w0 with
    | Ret _ w' => w_stop w' = 0%nat
    | Fail st _ => flush_failure st
    | Hang _ => False
    end.
Proof.
  pose proof (UpdateRows_tracks cfg w0 w0 eq_refl) as H.
  destruct (UpdateRows_safe cfg w0) as (_ & _ & Hh).
  destruct (UpdateRows cfg w0) as [[] w'|st w'|w']; simpl in *.
  - destruct H as (it & [H _] & Hs). by exists it.
  - destruct H as [(it & [H _]) Hst]. by exists it.
  - by destruct (Hh w').
Qed.

(** X4.  In every run of [InsertBaseData], whatever the environment does and
    whether the run returns or stops on a failed check, the mutations
    applied to the session are the inserts of the keys [0], [1], ... in
    this order, each once, with the value 0: all the keys below
    [FLAGS_row_count] when the function returns, the first few of them when
    it fails.  It fails only on the result of a flush, [ApplyError] or
    [FlushError]: the rows it makes are never refused by [Apply]. *)
Theorem InsertBaseData_prefix cfg w0 :
  ∃ m, 0 ≤ m ≤ Z.max 0 (FLAGS_row_count cfg) ∧
    applied (w_log (final (InsertBaseData cfg w0))) =
      (λ k, made OpInsert k 0) <$> seqZ 0 m ∧
    match InsertBaseData cfg w0 with
    | Ret _ _ => m = Z.max 0 (FLAGS_row_count cfg)
    | Fail st _ => st = ApplyError ∨ st = FlushError
    | Hang _ => False
    end.
Proof.
  pose proof (InsertBaseData_tracks cfg w0 w0 eq_refl) as H.
  destruct (InsertBaseData_safe cfg w0) as (_ & _ & Hh).
  destruct (InsertBaseData cfg w0) as [[] w'|st w'|w']; simpl in *.
  - destruct H as [H _]. exists (Z.of_nat (Z.to_nat (FLAGS_row_count cfg))).
    split; [lia|]. split; [exact H|lia].
  - destruct H as [(i & Hi & [H _]) Hst]. exists (Z.of_nat i).
    split; [lia|]. split; [exact H|exact Hst].
  - by destruct (Hh w').
Qed.

(** X5.  In every run of [UpdateRows] the mutations applied are updates of keys
    of the table, [0 ≤ key < FLAGS_row_count], with the number of a pass as
    value; none is an insert.  The stop latch is read before every pass and
    before every single update: a run that finds it up [s] times applies
    fewer than [s] updates and numbers its passes up to [s] at most, and with
    the latch already down it applies nothing.  The thread returns only
    once it has seen the latch down, and fails only on the result of a
    flush. *)
Theorem UpdateRows_applies cfg w0 :
  Forall (λ m, ∃ k v, m = made OpUpdate k v ∧
                      0 ≤ k < FLAGS_row_count cfg ∧ 1 ≤ v ≤ Z.of_nat (w_stop w0))
    (applied (w_log (final (UpdateRows cfg w0)))) ∧
  (length (applied (w_log (final (UpdateRows cfg w0)))) +
     w_stop (final (UpdateRows cfg w0)) ≤ w_stop w0)%nat ∧
  (applied (w_log (final (UpdateRows cfg w0))) = [] ∨
   (length (applied (w_log (final (UpdateRows cfg w0)))) < w_stop w0)%nat) ∧
  match UpdateRows cfg w0 with
  | Ret _ w' => w_stop w' = 0%nat
  | Fail st _ => st = ApplyError ∨ st = FlushError
  | Hang _ => False
  end.
Proof.
  destruct (UpdateRows_in_pass cfg w0) as (it & (H0 & Ha & Hs) & Ho).
  split_and!.
  - eapply Forall_impl; [exact Ha|].
    intros m (k & v & -> & Hk & Hv). exists k, v. split_and!; try done; lia.
  - lia.
  - destruct (applied (w_log (final (UpdateRows cfg w0)))) as [|m a]; [by left|].
    right. apply Forall_cons in Ha as [(k & v & _ & _ & Hv) _].
    simpl in *. lia.
  - exact Ho.
Qed.

(** ** The base data, then the updates, then a scan *)

Lemma scan_rows_range t n (f : Z → Row) :
  (∀ k, view t !! k = if decide (0 ≤ k < n) then Some (f k) else None) →
  scan_keys t = seqZ 0 n ∧ scan_rows t = f <$> seqZ 0 n.
Proof.
  intros Hv.
  assert (scan_keys t = seqZ 0 n) as Hk.
  { apply scan_keys_range. intros k. rewrite Hv.
    destruct (decide (0 ≤ k < n)) as [H|H].
    - split; [done|]. intros _. by eexists.
    - split; [|done]. by intros [? ?]. }
  split; [done|]. unfold scan_rows. rewrite Hk.
  assert (∀ l, Forall (λ k, 0 ≤ k < n) l →
    omap (λ k, view t !! k) l = f <$> l) as H.
  { induction l as [|k l IH]; intros Hl; [done|].
    apply Forall_cons in Hl as [Hk' Hl]. cbn [omap list_omap fmap list_fmap].
    rewrite Hv, decide_True by done.
    f_equal. by apply IH. }
  apply H. apply Forall_seqZ. lia.
Qed.

Lemma vals_out_of_range cfg it a k :
  Forall (pass_update cfg it) a → ¬ (0 ≤ k < FLAGS_row_count cfg) →
  vals k a = [].
Proof.
  intros Ha Hk. induction Ha as [|m a (k' & v & -> & Hk' & _) _ IH]; [done|].
  unfold vals in *. simpl. rewrite decide_False by lia. exact IH.
Qed.

(** [InsertBaseData] leaves the table [UpdateRows] needs. *)
Lemma inserted_clean cfg w0 w1 b :
  clean_insert cfg w0 → InsertBaseData cfg w0 = Ret () w1 →
  clean_update cfg (set_stop b w1) ∧
  view (w_tablet w1) = insert_rows (Z.to_nat (FLAGS_row_count cfg)).
Proof.
  intros g E.
  destruct (InsertBaseData_clean cfg w0 g) as (w' & E' & _ & Htb & _ & Hv).
  rewrite E in E'. simplify_eq. split; [|done].
  split_and!; [by destruct g|done|].
  intros k Hk. exists (row_of k 0). split; [|done].
  change (w_tablet (set_stop b w')) with (w_tablet w').
  rewrite Hv, insert_rows_lookup. destruct (decide _); [done|lia].
Qed.

(** X6.  The sequence of [TestAll], with the scan made when the update thread
    has ended.  On a table just created and with a transport that loses no
    flush, [InsertBaseData] returns, and [UpdateRows] started on what it
    leaves returns too, however long the stop latch stays up.  The updates
    neither add nor remove a key: a scan then reads exactly the keys
    [0 .. FLAGS_row_count - 1], in this order, each with the string of
    [MakeRow] and, in its int64 column, the number of the last pass that
    updated the key, or the 0 of the insert if none did. *)
Theorem insert_update_scan cfg w0 b :
  clean_insert cfg w0 →
  ∃ w1 w2, InsertBaseData cfg w0 = Ret () w1 ∧
    UpdateRows cfg (set_stop b w1) = Ret () w2 ∧
    scan_keys (w_tablet w2) = seqZ 0 (FLAGS_row_count cfg) ∧
    scan_rows (w_tablet w2) =
      (λ k, row_of k (default 0 (last (vals k (applied (w_log w2))))))
        <$> seqZ 0 (FLAGS_row_count cfg).
Proof.
  intros g.
  destruct (InsertBaseData_clean cfg w0 g) as (w1 & E1 & _).
  destruct (inserted_clean cfg w0 w1 b g E1) as [g2 Hv1].
  destruct (UpdateRows_clean cfg (set_stop b w1) g2)
    as (w2 & it & j & E2 & _ & _ & _ & _ & [Hview _ _ _ _]).
  destruct (UpdateRows_in_pass cfg (set_stop b w1)) as (it' & (_ & Ha & _) & _).
  rewrite E2 in Ha. simpl in Ha, Hview.
  exists w1, w2. split; [done|]. split; [done|].
  apply scan_rows_range. intros k. rewrite (Hview I k), Hv1, insert_rows_lookup.
  destruct (decide (0 ≤ k < FLAGS_row_count cfg)) as [Hk|Hk].
  - rewrite decide_True by lia. by destruct (last _).
  - rewrite (vals_out_of_range cfg it' _ k Ha Hk). simpl.
    rewrite decide_False by lia. done.
Qed.

(** Five rows, batches of three, a busy environment, and a stop latch that
    nine reads see up: the second pass is cut short after the keys 0 and 1,
    and the scan reads five rows with the values 2 2 1 1 1. *)
Lemma insert_update_scan_witness :
  ∃ w1 w2, InsertBaseData (busy 3 5) (created 0) = Ret () w1 ∧
    UpdateRows (busy 3 5) (set_stop 9 w1) = Ret () w2 ∧
    scan_keys (w_tablet w2) = [0; 1; 2; 3; 4] ∧
    scan_rows (w_tablet w2) =
      [ row_of 0 2; row_of 1 2; row_of 2 1; row_of 3 1; row_of 4 1 ].
Proof.
  destruct (insert_update_scan (busy 3 5) (created 0) 9)
    as (w1 & w2 & E1 & E2 & Hk & Hr).
  { apply created_clean, busy_transport_ok. }
  exists w1, w2. split; [exact E1|]. split; [exact E2|]. split; [exact Hk|].
  rewrite Hr.
  assert (w1 = final (InsertBaseData (busy 3 5) (created 0))) as H1
    by (by rewrite E1).
  assert (w2 = final (UpdateRows (busy 3 5) (set_stop 9 w1))) as H2
    by (by rewrite E2).
  rewrite H2, H1. vm_compute. reflexivity.
Defined.

(** ** A first flush that cannot succeed *)

Section Doomed.
Context (cfg : Config) (Bad : Tablet → Prop) (b : list Mutation) (stE : Status).
Context (Hmaint : ∀ ops t, Bad t → Bad (run_maintenance ops t)).
Context (Hserve : ∀ t, Bad t → (serve cfg 0 b t).2 = stE ∧ Bad (serve cfg 0 b t).1).
Context (HstE : ok stE = false).

Local Abbreviation Fd := (λ (st : Status) w', st = stE ∧ doomed Bad b stE w').

Lemma before_flush_tick l p s w :
  before_flush Bad l p s w → before_flush Bad l p s (tick cfg w).
Proof.
  intros (H1 & H2 & H3 & H4 & H5 & H6 & H7). unfold tick.
  rewrite deliver_n_idle by done. split_and!; try done. by apply Hmaint.
Qed.

Lemma before_flush_Run p s F :
  hoare (before_flush Bad 1 p s) (Run cfg OK) (λ _, before_flush Bad 0 p s) F.
Proof.
  intros w Hw. apply before_flush_tick in Hw as (H1 & H2 & H3 & H4 & H5 & H6 & H7).
  simpl. split_and!; try done. by rewrite H4.
Qed.

Lemma before_flush_Apply l p s m F :
  apply_check schema_ m = OK →
  hoare (before_flush Bad l p s) (ASSERT_OK (Apply cfg m))
    (λ _, before_flush Bad l (p ++ [m]) s) F.
Proof.
  intros Hm w Hw.
  apply before_flush_tick in Hw as (H1 & H2 & H3 & H4 & H5 & H6 & H7).
  unfold ASSERT_OK, mbind, M_bind, Apply. rewrite Hm. simpl.
  split_and!; try done. by rewrite H5.
Qed.

Lemma before_flush_stop l p s F :
  hoare (before_flush Bad l p s) stop_latch_running
    (λ r w', match s with
             | O => r = false ∧ before_flush Bad l p 0 w'
             | S s' => r = true ∧ before_flush Bad l p s' w'
             end) F.
Proof.
  intros w (H1 & H2 & H3 & H4 & H5 & H6 & H7). unfold stop_latch_running.
  rewrite H6. destruct s as [|s']; simpl; (split; [done|by split_and!]).
Qed.

(** The first flush. *)
Lemma first_flush s key F :
  Z.rem key (kSessionBatchSize cfg) = 0 →
  hoare (before_flush Bad 0 b s) (ASSERT_OK (WaitForLastBatchAndFlush cfg key))
    (λ _, doomed Bad b stE) F.
Proof.
  intros Hk w Hw.
  pose proof (before_flush_tick _ _ _ _ Hw) as (H1 & H2 & H3 & H4 & H5 & H6 & H7).
  unfold ASSERT_OK, WaitForLastBatchAndFlush. rewrite decide_True by done.
  unfold mbind at 1 2, M_bind at 1 2, Wait. rewrite H3. simpl.
  rewrite H4. simpl.
  set (w1 := record (EvWait 0 OK) (tick cfg w)).
  assert (before_flush Bad 0 b s w1) as Hw1 by (by split_and!).
  clearbody w1. clear H1 H2 H3 H4 H5 H6 H7 Hw w.
  unfold mbind, M_bind, Reset, FlushAsync.
  pose proof (before_flush_tick _ _ _ _ Hw1) as (H1 & H2 & H3 & H4 & H5 & H6 & H7).
  set (w2 := record EvReset _).
  assert (before_flush Bad 1 b s w2) as Hw2.
  { unfold w2. split_and!; try done. simpl. by rewrite H4. }
  clearbody w2. clear H1 H2 H3 H4 H5 H6 H7 Hw1 w1.
  pose proof (before_flush_tick _ _ _ _ Hw2) as (H1 & H2 & H3 & H4 & H5 & H6 & H7).
  simpl. rewrite H1, H3, H5. split_and!; try done.
  - simpl. by rewrite H2.
  - left. simpl. by rewrite H4.
Qed.

Lemma doomed_deliver w : doomed Bad b stE w → doomed Bad b stE (deliver cfg w).
Proof.
  intros (H1 & H2 & H3 & [[H4 H5]|(H4 & H5 & H6)]); unfold deliver; rewrite H4.
  - destruct (Hserve _ H3) as [Hs Hb]. simpl. split_and!; try done.
    right. simpl. by rewrite H5.
  - split_and!; try done. by right.
Qed.

Lemma doomed_deliver_n n w :
  doomed Bad b stE w → doomed Bad b stE (deliver_n cfg n w).
Proof.
  revert w. induction n as [|n IH]; intros w Hw; simpl; [done|].
  by apply IH, doomed_deliver.
Qed.

Lemma doomed_tick w : doomed Bad b stE w → doomed Bad b stE (tick cfg w).
Proof.
  intros (H1 & H2 & H3 & H4). unfold tick. apply doomed_deliver_n.
  split_and!; try done. by apply Hmaint.
Qed.

Lemma doomed_Apply m F :
  apply_check schema_ m = OK →
  hoare (doomed Bad b stE) (ASSERT_OK (Apply cfg m)) (λ _, doomed Bad b stE) F.
Proof.
  intros Hm w Hw. apply doomed_tick in Hw as (H1 & H2 & H3 & H4).
  unfold ASSERT_OK, mbind, M_bind, Apply. rewrite Hm. simpl.
  by split_and!.
Qed.

Lemma doomed_stop F :
  hoare (doomed Bad b stE) stop_latch_running (λ _, doomed Bad b stE) F.
Proof.
  intros w Hw. unfold stop_latch_running. by destruct (w_stop w).
Qed.

Lemma doomed_Wait F :
  hoare (doomed Bad b stE) (Wait cfg) (λ st w', st = stE ∧ doomed Bad b stE w') F.
Proof.
  intros w Hw. pose proof (Wait_outcome cfg w) as H.
  destruct (Wait cfg w) as [st w'|st w'|w']; [|done..].
  destruct H as (n & k' & -> & Hl & ->).
  apply doomed_tick, (doomed_deliver_n n) in Hw.
  destruct Hw as (H1 & H2 & H3 & [[H4 H5]|(H4 & H5 & H6)]).
  - simpl in Hl. congruence.
  - split; [done|]. split_and!; try done. by right.
Qed.

Lemma doomed_ASSERT_Wait :
  hoare (doomed Bad b stE) (ASSERT_OK (Wait cfg)) (λ _ _, False) Fd.
Proof.
  apply hoare_ASSERT_OK.
  eapply hoare_conseq; [| | |apply (doomed_Wait Fd)];
    [done| |intros st w H; exact H].
  intros st w [-> Hw]. by rewrite HstE.
Qed.

Lemma doomed_trigger key :
  hoare (doomed Bad b stE) (ASSERT_OK (WaitForLastBatchAndFlush cfg key))
    (λ _ w', doomed Bad b stE w' ∧ Z.rem key (kSessionBatchSize cfg) ≠ 0) Fd.
Proof.
  apply hoare_ASSERT_OK. unfold WaitForLastBatchAndFlush.
  destruct (decide _) as [Hk|Hk]; [|by apply hoare_ret].
  eapply hoare_bind; [apply (doomed_Wait Fd)|].
  intros st w [-> Hw]. rewrite HstE. simpl. by rewrite HstE.
Qed.

Lemma doomed_last_trigger {A} (rest : M A) R :
  hoare (doomed Bad b stE)
    (ASSERT_OK (WaitForLastBatchAndFlush cfg (kSessionBatchSize cfg));; rest) R Fd.
Proof.
  eapply hoare_bind; [apply doomed_trigger|].
  intros [] w [_ Hk]. destruct Hk. apply rem_self.
Qed.

Lemma doomed_for_keys k n :
  hoare (doomed Bad b stE) (for_keys (insert_body cfg) k n)
    (λ _, doomed Bad b stE) Fd.
Proof.
  apply (hoare_for_keys (λ _, doomed Bad b stE)). intros i _.
  unfold insert_body. eapply hoare_bind.
  - apply doomed_Apply, apply_check_made.
  - intros []. eapply hoare_conseq; [| | |apply doomed_trigger];
      [done| |intros st w H; exact H].
    by intros [] w [? _].
Qed.

Lemma doomed_update_pass it j c :
  hoare (doomed Bad b stE) (update_pass cfg it j c) (λ _, doomed Bad b stE) Fd.
Proof.
  revert j. induction c as [|c IH]; intros j.
  { by apply hoare_ret. }
  change (update_pass cfg it j (S c)) with
    (running ← stop_latch_running;
     if running : bool then
       CHECK_OK (Apply cfg (made OpUpdate j it));;
       CHECK_OK (WaitForLastBatchAndFlush cfg j);;
       update_pass cfg it (j + 1) c
     else mret ()).
  eapply hoare_bind; [apply doomed_stop|].
  intros []; [|by apply hoare_ret].
  rewrite !CHECK_OK_eq. eapply hoare_bind.
  { apply doomed_Apply, apply_check_made. }
  intros []. apply (hoare_bind _ _ (λ _, doomed Bad b stE)); [|intros _; apply IH].
  eapply hoare_conseq; [| | |apply doomed_trigger];
    [done| |intros st w H; exact H].
  by intros [] w [? _].
Qed.

(** [InsertBaseData] when the first flush cannot succeed. *)
Lemma InsertBaseData_doomed w0 :
  b = (if decide (0 < FLAGS_row_count cfg) then [made OpInsert 0 0] else []) →
  Bad (w_tablet w0) →
  hoare (eq w0) (InsertBaseData cfg) (λ _ _, False) Fd.
Proof.
  intros Hb HBad w <-. rewrite InsertBaseData_eq.
  assert (hoare (before_flush Bad 1 [] (w_stop w0))
    (Run cfg OK;;
     for_keys (insert_body cfg) 0 (Z.to_nat (FLAGS_row_count cfg));;
     ASSERT_OK (WaitForLastBatchAndFlush cfg (kSessionBatchSize cfg));;
     ASSERT_OK (Wait cfg)) (λ _ _, False) Fd) as H;
    [|apply H; by split_and!].
  clear HBad.
  eapply hoare_bind; [apply before_flush_Run|]. intros [].
  destruct (decide (0 < FLAGS_row_count cfg)) as [Hn|Hn].
  - destruct (Z.to_nat (FLAGS_row_count cfg)) as [|n] eqn:En; [lia|].
    cbn [for_keys].
    apply (hoare_bind _ _ (λ _, doomed Bad b stE)); [|intros _; apply doomed_last_trigger].
    apply (hoare_bind _ _ (λ _, doomed Bad b stE)); [|intros _; apply doomed_for_keys].
    unfold insert_body. eapply hoare_bind.
    + apply before_flush_Apply, apply_check_made.
    + intros []. eapply hoare_conseq; [| | |apply (first_flush (w_stop w0) 0)];
        [|done|intros st w H; exact H|done].
      intros w Hw. rewrite Hb. exact Hw.
  - replace (Z.to_nat (FLAGS_row_count cfg)) with 0%nat by lia. cbn [for_keys].
    apply (hoare_bind _ _ (λ _, before_flush Bad 0 [] (w_stop w0)));
      [by apply hoare_ret|]; intros _.
    apply (hoare_bind _ _ (λ _, doomed Bad b stE)); [|intros _; apply doomed_ASSERT_Wait].
    eapply hoare_conseq; [| | |apply (first_flush (w_stop w0)), rem_self];
      [|done|intros st w H; exact H].
    intros w Hw. rewrite Hb. exact Hw.
Qed.

(** [UpdateRows] when the first flush cannot succeed. *)
Lemma UpdateRows_doomed w0 s :
  w_stop w0 = S s →
  b = (if decide (0 < FLAGS_row_count cfg ∧ s ≠ 0%nat)
       then [made OpUpdate 0 1] else []) →
  Bad (w_tablet w0) →
  hoare (eq w0) (UpdateRows cfg) (λ _ _, False) Fd.
Proof.
  intros Hs Hb HBad w <-. unfold UpdateRows. rewrite preamble_bind, Hs.
  assert (hoare (before_flush Bad 1 [] (S s)) (update_loop cfg (S s) 1)
            (λ _ _, False) Fd) as H; [|apply H; by split_and!].
  clear HBad Hs.
  change (update_loop cfg (S s) 1) with
    (running ← stop_latch_running;
     if running : bool then
       Run cfg OK;;
       update_pass cfg 1 0 (Z.to_nat (FLAGS_row_count cfg));;
       CHECK_OK (WaitForLastBatchAndFlush cfg (kSessionBatchSize cfg));;
       CHECK_OK (Wait cfg);;
       Reset cfg;;
       update_loop cfg s (1 + 1)
     else mret ()).
  eapply hoare_bind; [apply before_flush_stop|]. intros r.
  apply hoare_pure. intros ->.
  eapply hoare_bind; [apply before_flush_Run|]. intros [].
  rewrite !CHECK_OK_eq.
  destruct (decide (0 < FLAGS_row_count cfg ∧ s ≠ 0%nat)) as [[Hn Hs]|Hn].
  - destruct (Z.to_nat (FLAGS_row_count cfg)) as [|n] eqn:En; [lia|].
    destruct s as [|s']; [done|].
    apply (hoare_bind _ _ (λ _, doomed Bad b stE)); [|intros _; apply doomed_last_trigger].
    change (update_pass cfg 1 0 (S n)) with
      (running ← stop_latch_running;
       if running : bool then
         CHECK_OK (Apply cfg (made OpUpdate 0 1));;
         CHECK_OK (WaitForLastBatchAndFlush cfg 0);;
         update_pass cfg 1 (0 + 1) n
       else mret ()).
    eapply hoare_bind; [apply before_flush_stop|]. intros r.
    apply hoare_pure. intros ->. rewrite !CHECK_OK_eq.
    eapply hoare_bind; [apply before_flush_Apply, apply_check_made|].
    intros []. apply (hoare_bind _ _ (λ _, doomed Bad b stE)); [|intros _; apply doomed_update_pass].
    eapply hoare_conseq; [| | |apply (first_flush s' 0)];
      [|done|intros st w H; exact H|done].
    intros w Hw. rewrite Hb. exact Hw.
  - apply (hoare_bind _ _ (λ _ w', ∃ s', before_flush Bad 0 [] s' w')).
    + destruct (Z.to_nat (FLAGS_row_count cfg)) as [|n] eqn:En.
      { apply hoare_ret. intros w Hw. by exists s. }
      destruct s as [|s']; [|lia].
      change (update_pass cfg 1 0 (S n)) with
        (running ← stop_latch_running;
         if running : bool then
           CHECK_OK (Apply cfg (made OpUpdate 0 1));;
           CHECK_OK (WaitForLastBatchAndFlush cfg 0);;
           update_pass cfg 1 (0 + 1) n
         else mret ()).
      eapply hoare_bind; [apply before_flush_stop|]. intros r.
      apply hoare_pure. intros ->. apply hoare_ret. intros w Hw. by exists 0%nat.
    + intros []. apply hoare_exists. intros s'.
      eapply hoare_bind.
      * eapply hoare_conseq; [| | |apply (first_flush s'), rem_self];
          [|done|intros st w H; exact H].
        intros w Hw. rewrite Hb. exact Hw.
      * intros []. eapply hoare_bind; [apply doomed_ASSERT_Wait|].
        intros [] w [].
Qed.

End Doomed.

Lemma reads_maintenance v ops t : reads v t → reads v (run_maintenance ops t).
Proof.
  intros [Hi Hv]. destruct (run_maintenance_spec ops t Hi) as [? ?].
  split; congruence.
Qed.

(** An insert of a key the table holds is refused, and so is an update of a
    key it does not hold; the tablet stays as it is. *)
Lemma write_batch_duplicate t key val :
  is_Some (view t !! key) →
  write_batch t [made OpInsert key val] = (t, ApplyError).
Proof.
  rewrite lookup_view. intros Hk. unfold write_batch. simpl.
  unfold write_one. simpl.
  destruct (memstore t !! key) as [r|] eqn:Em; [done|].
  destruct (base t !! key) as [r|] eqn:Eb; [done|].
  by destruct Hk.
Qed.

Lemma write_batch_missing t key val :
  view t !! key = None →
  write_batch t [made OpUpdate key val] = (t, ApplyError).
Proof.
  rewrite lookup_view. intros Hk. unfold write_batch. simpl.
  unfold write_one. simpl.
  destruct (memstore t !! key) as [r|] eqn:Em; [done|].
  destruct (base t !! key) as [r|] eqn:Eb; [done|]. done.
Qed.

Lemma serve_lost cfg b t :
  env_transport cfg 0 = false → serve cfg 0 b t = (t, FlushError).
Proof. unfold serve. by intros ->. Qed.

(** X7.  If the transport loses the first flush of a writer, the writer learns
    it at its next [Wait] and stops there with [FlushError]: no second flush
    is issued, what was applied after the first flush stays queued, and the
    table reads as before.  [InsertBaseData] fails so whatever the number of
    rows, its one flush holding the insert of key 0 or, with no row to
    insert, nothing; [UpdateRows] fails so unless it finds the stop latch
    down at once. *)
Theorem first_flush_lost cfg w0 :
  env_transport cfg 0 = false →
  (∃ w', InsertBaseData cfg w0 = Fail FlushError w' ∧
     flushed (w_log w') =
       [if decide (0 < FLAGS_row_count cfg) then [made OpInsert 0 0] else []] ∧
     (tablet_inv (w_tablet w0) → view (w_tablet w') = view (w_tablet w0))) ∧
  (w_stop w0 ≠ 0%nat →
   ∃ w', UpdateRows cfg w0 = Fail FlushError w' ∧
     length (flushed (w_log w')) = 1%nat ∧
     (tablet_inv (w_tablet w0) → view (w_tablet w') = view (w_tablet w0))).
Proof.
  intros Hlost.
  set (Bad := λ t, tablet_inv (w_tablet w0) → reads (view (w_tablet w0)) t).
  assert (∀ ops t, Bad t → Bad (run_maintenance ops t)) as Hmaint.
  { intros ops t Ht Hi. by apply reads_maintenance, Ht. }
  assert (∀ b t, Bad t → (serve cfg 0 b t).2 = FlushError ∧ Bad (serve cfg 0 b t).1)
    as Hserve.
  { intros b t Ht. by rewrite serve_lost. }
  assert (Bad (w_tablet w0)) as HBad by (by intros ?).
  split.
  - pose proof (InsertBaseData_doomed cfg Bad _ FlushError Hmaint (Hserve _)
                  eq_refl w0 eq_refl HBad w0 eq_refl) as H.
    destruct (InsertBaseData_safe cfg w0) as (_ & _ & Hh).
    destruct (InsertBaseData cfg w0) as [[] w'|st w'|w']; simpl in *.
    + done.
    + destruct H as [-> (H1 & H2 & H3 & _)]. exists w'. split_and!; try done.
      intros Hi. by apply H3.
    + by destruct (Hh w').
  - intros Hs. destruct (w_stop w0) as [|s] eqn:Es; [done|].
    pose proof (UpdateRows_doomed cfg Bad _ FlushError Hmaint (Hserve _)
                  eq_refl w0 s Es eq_refl HBad w0 eq_refl) as H.
    destruct (UpdateRows_safe cfg w0) as (_ & _ & Hh).
    destruct (UpdateRows cfg w0) as [[] w'|st w'|w']; simpl in *.
    + done.
    + destruct H as [-> (H1 & H2 & H3 & _)]. exists w'. split_and!; try done.
      * by rewrite H2.
      * intros Hi. by apply H3.
    + by destruct (Hh w').
Qed.

(** Seven rows in batches of three, four reads of the stop latch, and a
    transport that loses flush 0. *)
Lemma first_flush_lost_witness :
  (∃ w', InsertBaseData (lossy 3 7) (created 4) = Fail FlushError w' ∧
     flushed (w_log w') = [[made OpInsert 0 0]] ∧
     view (w_tablet w') = ∅) ∧
  (∃ w', UpdateRows (lossy 3 7) (created 4) = Fail FlushError w' ∧
     length (flushed (w_log w')) = 1%nat).
Proof.
  destruct (first_flush_lost (lossy 3 7) (created 4) eq_refl)
    as [(w1 & E1 & F1 & V1) H2].
  destruct (H2 ltac:(done)) as (w2 & E2 & F2 & _).
  split.
  - exists w1. split; [exact E1|]. split; [exact F1|].
    rewrite V1 by apply empty_tablet_inv.
    apply (created_clean (quiet 3 7) 4), quiet_transport_ok.
  - exists w2. split; [exact E2|exact F2].
Defined.

(** X8.  [InsertBaseData] on a table that holds key 0 already, as when it is run
    a second time: the first flush holds the insert of key 0 alone, the
    tablet refuses it, and the function fails at its next [Wait], with
    [ApplyError], or [FlushError] if the flush was lost.  No second flush is
    issued and the table reads as before. *)
Theorem InsertBaseData_duplicate cfg w0 :
  0 < FLAGS_row_count cfg →
  tablet_inv (w_tablet w0) → is_Some (view (w_tablet w0) !! 0) →
  ∃ st w', InsertBaseData cfg w0 = Fail st w' ∧
    st = (if env_transport cfg 0 then ApplyError else FlushError) ∧
    flushed (w_log w') = [[made OpInsert 0 0]] ∧
    view (w_tablet w') = view (w_tablet w0).
Proof.
  intros Hn Hi Hk.
  set (stE := if env_transport cfg 0 then ApplyError else FlushError).
  set (Bad := reads (view (w_tablet w0))).
  assert (∀ t, Bad t → (serve cfg 0 [made OpInsert 0 0] t).2 = stE ∧
                       Bad (serve cfg 0 [made OpInsert 0 0] t).1) as Hserve.
  { intros t [Ht Hv]. unfold serve, stE. destruct (env_transport cfg 0); [|done].
    rewrite write_batch_duplicate; [done|]. by rewrite Hv. }
  assert (ok stE = false) as HstE by (unfold stE; by destruct (env_transport cfg 0)).
  pose proof (InsertBaseData_doomed cfg Bad [made OpInsert 0 0] stE
                (reads_maintenance _) Hserve HstE w0) as H.
  rewrite decide_True in H by done.
  specialize (H eq_refl (conj Hi eq_refl) w0 eq_refl).
  destruct (InsertBaseData_safe cfg w0) as (_ & _ & Hh).
  destruct (InsertBaseData cfg w0) as [[] w'|st w'|w']; simpl in *.
  - done.
  - destruct H as [-> (H1 & H2 & [H3 H4] & _)]. by exists stE, w'.
  - by destruct (Hh w').
Qed.

(** [InsertBaseData] run a second time on the seven rows it inserted. *)
Lemma InsertBaseData_duplicate_witness :
  ∃ w', InsertBaseData (busy 3 7) (populated 7 0) = Fail ApplyError w' ∧
    flushed (w_log w') = [[made OpInsert 0 0]] ∧
    scan_rows (w_tablet w') = (λ k, row_of k 0) <$> seqZ 0 7.
Proof.
  destruct (populated_clean (busy 3 7) 7 0 (busy_transport_ok 3 7) ltac:(simpl; lia))
    as (_ & Hi & Hrows).
  destruct (InsertBaseData_duplicate (busy 3 7) (populated 7 0))
    as (st & w' & E & -> & Hf & Hv).
  - reflexivity.
  - exact Hi.
  - destruct (Hrows 0 ltac:(simpl; lia)) as (r & -> & _). by eexists.
  - exists w'. split; [exact E|]. split; [exact Hf|].
    unfold scan_rows, scan_keys. rewrite Hv. vm_compute. reflexivity.
Defined.

(** X9.  [UpdateRows] on a table that does not hold key 0, as when it is started
    before the base data is inserted, with the stop latch up long enough
    for one update: the first flush holds the update of key 0 alone, the
    tablet refuses it, and the thread stops at its next [Wait], with
    [ApplyError], or [FlushError] if the flush was lost.  The table reads as
    before. *)
Theorem UpdateRows_missing_row cfg w0 :
  0 < FLAGS_row_count cfg → (2 ≤ w_stop w0)%nat →
  tablet_inv (w_tablet w0) → view (w_tablet w0) !! 0 = None →
  ∃ st w', UpdateRows cfg w0 = Fail st w' ∧
    st = (if env_transport cfg 0 then ApplyError else FlushError) ∧
    flushed (w_log w') = [[made OpUpdate 0 1]] ∧
    view (w_tablet w') = view (w_tablet w0).
Proof.
  intros Hn Hs Hi Hk.
  set (stE := if env_transport cfg 0 then ApplyError else FlushError).
  set (Bad := reads (view (w_tablet w0))).
  assert (∀ t, Bad t → (serve cfg 0 [made OpUpdate 0 1] t).2 = stE ∧
                       Bad (serve cfg 0 [made OpUpdate 0 1] t).1) as Hserve.
  { intros t [Ht Hv]. unfold serve, stE. destruct (env_transport cfg 0); [|done].
    rewrite write_batch_missing; [done|]. by rewrite Hv. }
  assert (ok stE = false) as HstE by (unfold stE; by destruct (env_transport cfg 0)).
  destruct (w_stop w0) as [|s] eqn:Es; [lia|].
  pose proof (UpdateRows_doomed cfg Bad [made OpUpdate 0 1] stE
                (reads_maintenance _) Hserve HstE w0 s Es) as H.
  rewrite decide_True in H by (split; [done|lia]).
  specialize (H eq_refl (conj Hi eq_refl) w0 eq_refl).
  destruct (UpdateRows_safe cfg w0) as (_ & _ & Hh).
  destruct (UpdateRows cfg w0) as [[] w'|st w'|w']; simpl in *.
  - done.
  - destruct H as [-> (H1 & H2 & [H3 H4] & _)]. by exists stE, w'.
  - by destruct (Hh w').
Qed.

(** The update thread started on the empty table. *)
Lemma UpdateRows_missing_row_witness :
  ∃ w', UpdateRows (busy 3 7) (created 5) = Fail ApplyError w' ∧
    flushed (w_log w') = [[made OpUpdate 0 1]] ∧
    scan_rows (w_tablet w') = [].
Proof.
  destruct (UpdateRows_missing_row (busy 3 7) (created 5))
    as (st & w' & E & -> & Hf & Hv).
  - reflexivity.
  - simpl. lia.
  - apply empty_tablet_inv.
  - reflexivity.
  - exists w'. split; [exact E|]. split; [exact Hf|].
    unfold scan_rows, scan_keys. rewrite Hv. vm_compute. reflexivity.
Defined.

(** ** The updates of a run, by the reads of the stop latch *)

Lemma seqZ_snoc m n : 0 ≤ n → seqZ m (n + 1) = seqZ m n ++ [m + n].
Proof. intros Hn. by rewrite seqZ_app by lia. Qed.

Lemma pass_row_snoc it j :
  0 ≤ j → pass_row it (j + 1) = pass_row it j ++ [made OpUpdate j it].
Proof. intros Hj. unfold pass_row. by rewrite seqZ_snoc, fmap_app by done. Qed.

Lemma passes_snoc n p :
  0 ≤ p → passes n (p + 1) = passes n p ++ pass_row (p + 1) n.
Proof.
  intros Hp. unfold passes. rewrite seqZ_snoc, fmap_app, concat_app by done.
  simpl. rewrite app_nil_r. do 2 f_equal. lia.
Qed.

Lemma schedule_eq n s0 q r :
  0 ≤ r < n + 1 → Z.of_nat s0 = q * (n + 1) + r →
  schedule n s0 = passes n q ++ pass_row (q + 1) (r - 1).
Proof.
  intros Hr Hs. unfold schedule.
  rewrite (div_eq (Z.of_nat s0) (n + 1) q r) by lia.
  rewrite (mod_eq (Z.of_nat s0) (n + 1) q r) by lia. done.
Qed.

Section Schedule.
Context (cfg : Config) (s0 : nat).
Local Abbreviation n := (Z.of_nat (Z.to_nat (FLAGS_row_count cfg))).
Local Abbreviation Any := (λ (_ : Status) (_ : World), True).

Lemma update_pass_schedule it c j :
  1 ≤ it → 0 ≤ j → j + Z.of_nat c = n →
  hoare (tracks (in_row n s0 it j)) (update_pass cfg it j c)
    (λ _, tracks (λ a s, ∃ j', in_row n s0 it j' a s ∧ (j' = n ∨ s = 0%nat)))
    Any.
Proof.
  intros Hit. revert j. induction c as [|c IH]; intros j Hj Hn.
  { apply hoare_ret. intros w [H Hst]. split; [|done]. exists j. split; [done|].
    left. lia. }
  change (update_pass cfg it j (S c)) with
    (running ← stop_latch_running;
     if running : bool then
       CHECK_OK (Apply cfg (made OpUpdate j it));;
       CHECK_OK (WaitForLastBatchAndFlush cfg j);;
       update_pass cfg it (j + 1) c
     else mret ()).
  eapply hoare_bind; [apply tracks_stop|].
  intros [].
  - rewrite !CHECK_OK_eq. eapply hoare_bind.
    { eapply hoare_conseq;
        [| | |apply (tracks_ASSERT_Apply cfg (in_row n s0 it (j + 1))
                       (made OpUpdate j it) Any)];
        [|done|done|done].
      intros w [(Hj' & Ha & Hs) Hst]. split; [|done]. split_and!; [lia|lia| |lia].
      rewrite Ha, pass_row_snoc by done. by rewrite app_assoc. }
    intros []. eapply hoare_bind.
    { eapply hoare_conseq; [| | |apply tracks_ASSERT_trigger]; done. }
    intros []. apply IH; lia.
  - apply hoare_ret. intros w [[H Hz] Hst]. split; [|done].
    exists j. split; [done|by right].
Qed.

Lemma update_loop_schedule fuel it :
  1 ≤ it →
  hoare (tracks (at_head n s0 it)) (update_loop cfg fuel it)
    (λ _, tracks (λ a s, a = schedule n s0)) Any.
Proof.
  assert (∀ it a s, 1 ≤ it → at_head n s0 it a s ∧ s = 0%nat → a = schedule n s0)
    as Hend.
  { intros it' a s Hit' [[[-> Hs]|[_ ->]] ->]; [|done].
    rewrite (schedule_eq n s0 (it' - 1) 0) by lia.
    unfold pass_row. rewrite seqZ_nil by lia. simpl. by rewrite app_nil_r. }
  revert it. induction fuel as [|fuel IH]; intros it Hit.
  - change (update_loop cfg 0 it) with
      (running ← stop_latch_running; if running : bool then hang else mret ()).
    eapply hoare_bind; [apply tracks_stop|].
    intros []; [by intros w Hw|].
    apply hoare_ret. intros w [H Hst]. split; [|done]. by eapply Hend.
  - change (update_loop cfg (S fuel) it) with
      (running ← stop_latch_running;
       if running : bool then
         Run cfg OK;;
         update_pass cfg it 0 (Z.to_nat (FLAGS_row_count cfg));;
         CHECK_OK (WaitForLastBatchAndFlush cfg (kSessionBatchSize cfg));;
         CHECK_OK (Wait cfg);;
         Reset cfg;;
         update_loop cfg fuel (it + 1)
       else mret ()).
    eapply hoare_bind; [apply tracks_stop|].
    intros [].
    2:{ apply hoare_ret. intros w [H Hst]. split; [|done]. by eapply Hend. }
    rewrite !CHECK_OK_eq.
    apply (hoare_conseq (tracks (in_row n s0 it 0)) _ _
             (λ _, tracks (λ a s, a = schedule n s0)) _ Any _); [|done|done|].
    { intros w [[[Ha Hs]|[? _]] Hst]; [|done]. split; [|done].
      split_and!; [lia|lia| |lia].
      unfold pass_row. rewrite seqZ_nil by lia. simpl. by rewrite app_nil_r. }
    eapply hoare_bind; [apply tracks_Run|]. intros [].
    eapply hoare_bind; [apply (update_pass_schedule it _ 0); lia|].
    intros []. eapply hoare_bind.
    { eapply hoare_conseq; [| | |apply tracks_ASSERT_trigger]; done. }
    intros []. eapply hoare_bind.
    { eapply hoare_conseq; [| | |apply tracks_ASSERT_Wait]; done. }
    intros []. eapply hoare_bind; [apply tracks_Reset|]. intros [].
    eapply hoare_conseq; [| | |apply (IH (it + 1))]; [|done|done|lia].
    intros w [(j' & (Hj' & Ha & Hs) & Hexit) Hst]. split; [|done].
    destruct (decide (j' = n)) as [->|Hne].
    + left. split; [|lia].
      rewrite Ha. replace (it + 1 - 1) with (it - 1 + 1) by lia.
      rewrite passes_snoc by lia. do 2 f_equal. lia.
    + right. destruct Hexit as [?|Hz]; [done|]. split; [done|].
      rewrite (schedule_eq n s0 (it - 1) (1 + j')) by lia.
      rewrite Ha. do 2 f_equal; lia.
Qed.

Lemma UpdateRows_tracks_schedule w0 :
  w_stop w0 = s0 →
  hoare (eq w0) (UpdateRows cfg) (λ _, tracks (λ a s, a = schedule n s0)) Any.
Proof.
  intros Hs w <-. unfold UpdateRows. rewrite preamble_bind.
  apply (update_loop_schedule (w_stop w0) 1 ltac:(lia)).
  split; [|by left]. left. simpl. split; [done|lia].
Qed.

End Schedule.

(** X11.  When [UpdateRows] returns, what it has applied is determined by the
    number [s0] of reads of the stop latch that saw it up, whatever the
    environment did.  A pass over the [n] rows takes one read to start and
    one for each key: the thread has made [s0 / (n + 1)] complete passes,
    numbered from 1, each updating the keys [0 .. n-1] in order with the
    number of the pass, and, with [r] the remainder, the first [r - 1] keys
    of the next pass. *)
Theorem UpdateRows_schedule cfg w0 w' :
  UpdateRows cfg w0 = Ret () w' →
  let n := Z.max 0 (FLAGS_row_count cfg) in
  let q := Z.of_nat (w_stop w0) / (n + 1) in
  let r := Z.of_nat (w_stop w0) mod (n + 1) in
  applied (w_log w') =
    concat ((λ it, (λ k, made OpUpdate k it) <$> seqZ 0 n) <$> seqZ 1 q) ++
    ((λ k, made OpUpdate k (q + 1)) <$> seqZ 0 (r - 1)).
Proof.
  intros E n q r.
  pose proof (UpdateRows_tracks_schedule cfg (w_stop w0) w0 eq_refl w0 eq_refl) as H.
  rewrite E in H. destruct H as [H _]. rewrite H.
  replace (Z.of_nat (Z.to_nat (FLAGS_row_count cfg))) with n by lia. done.
Qed.

(** Five rows and nine reads that see the latch up: one complete pass, and
    the keys 0 and 1 of the second. *)
Lemma UpdateRows_schedule_witness :
  ∃ w', UpdateRows (busy 3 5) (populated 5 9) = Ret () w' ∧
    applied (w_log w') =
      [ made OpUpdate 0 1; made OpUpdate 1 1; made OpUpdate 2 1;
        made OpUpdate 3 1; made OpUpdate 4 1;
        made OpUpdate 0 2; made OpUpdate 1 2 ].
Proof.
  destruct (UpdateRows_clean (busy 3 5) (populated 5 9)) as (w' & _ & _ & E & _).
  { apply populated_clean; [apply busy_transport_ok|simpl; lia]. }
  exists w'. split; [exact E|].
  rewrite (UpdateRows_schedule (busy 3 5) (populated 5 9) w' E).
  vm_compute. reflexivity.
Defined.

(** ** [RunThreads] *)

Local Ltac main_side :=
  split_and!; try done; try lia;
  try (let j := fresh "j" in let Hj := fresh "Hj" in
       intros j Hj; repeat (destruct j as [|j]; [done|]); lia);
  try (let H := fresh "H" in
       simpl; intros H; repeat (apply elem_of_cons in H as [[=]|H]);
       by apply elem_of_nil in H).

(** X12.  [RunThreads] starts the update, scan and page-fetching threads in this
    order, sleeps, counts the stop latch down and joins the threads in the
    order it started them.  It counts the latch down exactly when all three
    threads could be created: if a creation fails, the [ASSERT_OK] makes the
    function return at once, with the latch still up and the threads started
    so far not joined, so that nothing will stop them.  When it returns
    normally the latch is down and every thread was joined; if a join fails,
    the threads after it are left unjoined, with the latch down. *)
Theorem RunThreads_outcome env :
  match RunThreads env with
  | MainReturned s =>
      stop_latch s = 0%nat ∧
      threads s = [BodyUpdateRows; BodyScanRows; BodyCurlWebPages] ∧
      main_log s =
        [ EvCreate (CURRENT_TEST_NAME env)
            (CURRENT_TEST_CASE_NAME env +:+ "-update") BodyUpdateRows;
          EvCreate (CURRENT_TEST_NAME env)
            (CURRENT_TEST_CASE_NAME env +:+ "-scan") BodyScanRows;
          EvCreate (CURRENT_TEST_NAME env)
            (CURRENT_TEST_CASE_NAME env +:+ "-curl") BodyCurlWebPages;
          EvSleep (FLAGS_seconds_to_run env); EvCountDown;
          EvJoin 0 OK; EvJoin 1 OK; EvJoin 2 OK ] ∧
      unjoined s = []
  | MainAsserted st s =>
      ok st = false ∧
      ((∃ i, (i < 3)%nat ∧ st = Thread_Create env i ∧
          (∀ j, (j < i)%nat → Thread_Create env j = OK) ∧
          threads s = take i [BodyUpdateRows; BodyScanRows; BodyCurlWebPages] ∧
          stop_latch s = 1%nat ∧ (EvCountDown ∉ main_log s) ∧
          unjoined s = seq 0 i) ∨
       (∃ i, (i < 3)%nat ∧ st = Thread_Join env i ∧
          (∀ j, (j < 3)%nat → Thread_Create env j = OK) ∧
          (∀ j, (j < i)%nat → Thread_Join env j = OK) ∧
          threads s = [BodyUpdateRows; BodyScanRows; BodyCurlWebPages] ∧
          stop_latch s = 0%nat ∧ unjoined s = seq i (3 - i)))
  end.
Proof.
  assert (∀ st, ok st = true → st = OK) as Hok.
  { intros st H. by apply bool_decide_eq_true in H. }
  unfold RunThreads, create_thread, main_bind.
  destruct (ok (Thread_Create env 0)) eqn:C0.
  2:{ split; [done|]. left. exists 0%nat. main_side. }
  destruct (ok (Thread_Create env 1)) eqn:C1.
  2:{ split; [done|]. left. exists 1%nat. apply Hok in C0. main_side. }
  destruct (ok (Thread_Create env 2)) eqn:C2.
  2:{ split; [done|]. left. exists 2%nat. apply Hok in C0, C1. main_side. }
  apply Hok in C0, C1, C2.
  cbn [join_threads CountDown SleepFor threads stop_latch main_log app pred].
  destruct (ok (Thread_Join env 0)) eqn:J0.
  2:{ split; [done|]. right. exists 0%nat. main_side.
      unfold unjoined, joined. simpl.
      destruct (Thread_Join env 0); [by vm_compute in J0|done..]. }
  pose proof (Hok _ J0) as E0. rewrite E0.
  destruct (ok (Thread_Join env 1)) eqn:J1.
  2:{ split; [done|]. right. exists 1%nat. main_side.
      unfold unjoined, joined. simpl.
      destruct (Thread_Join env 1); [by vm_compute in J1|done..]. }
  pose proof (Hok _ J1) as E1. rewrite E1.
  destruct (ok (Thread_Join env 2)) eqn:J2.
  2:{ split; [done|]. right. exists 2%nat. main_side.
      unfold unjoined, joined. simpl.
      destruct (Thread_Join env 2); [by vm_compute in J2|done..]. }
  pose proof (Hok _ J2) as E2. rewrite E2. done.
Qed.

(** ** A run that returns lost no flush *)

Section Twin.
Context (cfg : Config).
Local Abbreviation cfg' := (reliable cfg).

Lemma tick_same w : w_inflight w = [] → tick cfg w = tick cfg' w.
Proof. intros Hf. unfold tick. by rewrite !deliver_n_idle. Qed.

Lemma poisoned_tick w :
  poisoned w → poisoned (tick cfg w) ∧ w_stop (tick cfg w) = w_stop w.
Proof.
  intros (H1 & H2 & H3). unfold tick. rewrite deliver_n_idle by done. done.
Qed.

Lemma w_stop_tick c w : w_stop (tick c w) = w_stop w.
Proof. change (w_stop ?x) with (bk_stop (books x)). by rewrite books_tick. Qed.

Lemma deliver_n_twin n ph w :
  TInv ph w → twin (deliver_n cfg n w) (deliver_n cfg' n w).
Proof.
  revert ph w. induction n as [|n IH]; intros ph w HT; simpl; [by left|].
  destruct (w_inflight w) as [|[j b] rest] eqn:Hf.
  { rewrite !deliver_idle by done. by eapply IH. }
  pose proof HT as [_ _ _ _ _ _ (u & _ & Hp)].
  assert (ph = Out) as ->.
  { destruct ph; simpl in Hp; try done; destruct Hp as [? _]; congruence. }
  destruct Hp as (j' & b' & Hfl & Hl & _). rewrite Hf in Hfl. simplify_eq.
  destruct (env_transport cfg j') eqn:Et.
  - assert (deliver cfg w = deliver cfg' w) as ->.
    { unfold deliver, serve. rewrite Hf. simpl. by rewrite Et. }
    destruct (TInv_deliver cfg' Out w HT) as (ph' & _ & HT'). by eapply IH.
  - right.
    assert (poisoned (deliver cfg w)) as Hp.
    { unfold deliver, serve. rewrite Hf, Et. split_and!; try done.
      simpl. by rewrite Hl. }
    rewrite deliver_n_idle by apply Hp. split; [done|].
    change (w_stop ?x) with (bk_stop (books x)).
    by rewrite books_deliver_n, !books_deliver.
Qed.

Lemma tick_twin ph w : TInv ph w → twin (tick cfg w) (tick cfg' w).
Proof.
  intros HT. unfold tick. eapply deliver_n_twin.
  by apply (TInv_ext ph w).
Qed.

Lemma twin_tick ph w1 w2 :
  TInv ph w2 → twin w1 w2 → twin (tick cfg w1) (tick cfg' w2).
Proof.
  intros HT [->|[Hp Hs]]; [by eapply tick_twin|].
  right. destruct (poisoned_tick w1 Hp) as [? ->]. by rewrite w_stop_tick.
Qed.

Lemma rel_ret {A} P Rin (a : A) (Rout : A → World → A → World → Prop) :
  (∀ w1 w2, P w2 → Rin w1 w2 → Rout a w1 a w2) →
  rel P Rin (mret a) (mret a) Rout.
Proof. intros H w1 w2 HP HR. by apply H. Qed.

Lemma rel_conseq {A} (P P' : World → Prop) (Rin Rin' : World → World → Prop)
    (c c' : M A) (Rout Rout' : A → World → A → World → Prop) :
  (∀ w, P' w → P w) → (∀ w1 w2, Rin' w1 w2 → Rin w1 w2) →
  (∀ a1 w1 a2 w2, Rout a1 w1 a2 w2 → Rout' a1 w1 a2 w2) →
  rel P Rin c c' Rout → rel P' Rin' c c' Rout'.
Proof.
  intros HP HR HO H w1 w2 Hw HRw. specialize (H w1 w2 (HP _ Hw) (HR _ _ HRw)).
  destruct (c' w2), (c w1); auto.
Qed.

Lemma rel_bind {A B} (G : Prop) P Rin (c c' : M A) Q Rmid (f f' : A → M B) Rout :
  triple G P c' Q →
  rel P Rin c c' Rmid →
  (∀ a1 a2, rel (Q a2) (λ w1 w2, Rmid a1 w1 a2 w2) (f a1) (f' a2) Rout) →
  rel P Rin (c ≫= f) (c' ≫= f') Rout.
Proof.
  intros Hc Hr Hf w1 w2 HP HR. specialize (Hc w2 HP). specialize (Hr w1 w2 HP HR).
  unfold mbind, M_bind.
  destruct (c' w2) as [a2 w2'|st w2'|w2']; [|done..].
  destruct (c w1) as [a1 w1'|st w1'|w1'].
  - by apply Hf.
  - by destruct (f' a2 w2').
  - by destruct (f' a2 w2').
Qed.

Lemma state_phase G Φ B V w : state G Φ B V w → phase Φ w.
Proof. intros (ph & Hph & [HT _] & _). by exists ph. Qed.

Lemma rel_Run :
  rel (phase (eq Idle)) eq (Run cfg OK) (Run cfg' OK) (λ _ w1 _ w2, w1 = w2).
Proof.
  intros w1 w2 (ph & <- & HT) ->. unfold Run.
  pose proof HT as [_ _ _ _ _ _ (u & _ & Hf & _)].
  by rewrite (tick_same w2 Hf).
Qed.

Lemma rel_Reset :
  rel (phase (eq Waited)) eq (Reset cfg) (Reset cfg') (λ _ w1 _ w2, w1 = w2).
Proof.
  intros w1 w2 (ph & <- & HT) ->. unfold Reset.
  pose proof HT as [_ _ _ _ _ _ (u & _ & Hf & _)].
  by rewrite (tick_same w2 Hf).
Qed.

Lemma rel_FlushAsync :
  rel (phase (eq Idle)) eq (FlushAsync cfg) (FlushAsync cfg')
    (λ _ w1 _ w2, twin w1 w2).
Proof.
  intros w1 w2 (ph & <- & HT) ->. unfold FlushAsync.
  pose proof HT as [_ _ _ _ _ _ (u & _ & Hf & _)].
  rewrite (tick_same w2 Hf). by left.
Qed.

Lemma twin_update (f : World → World) w1 w2 :
  (∀ w, w_inflight (f w) = w_inflight w) → (∀ w, w_sync (f w) = w_sync w) →
  (∀ w, w_stop (f w) = w_stop w) →
  twin w1 w2 → twin (f w1) (f w2).
Proof.
  intros H1 H2 H3 [->|[(P1 & P2 & P3) Hs]]; [by left|]. right.
  unfold poisoned. by rewrite H1, H2, !H3.
Qed.

Lemma rel_Apply Φ m :
  rel (phase Φ) twin (Apply cfg m) (Apply cfg' m)
    (λ st1 w1 st2 w2, st1 = st2 ∧ twin w1 w2).
Proof.
  intros w1 w2 (ph & _ & HT) Htw. unfold Apply.
  pose proof (twin_tick ph w1 w2 HT Htw) as Htw'.
  destruct (ok (apply_check schema_ m)); [|done].
  split; [done|].
  destruct Htw' as [->|[(P1 & P2 & P3) Hs]]; [by left|]. by right.
Qed.

Lemma rel_stop P :
  rel P twin stop_latch_running stop_latch_running
    (λ b1 w1 b2 w2, b1 = b2 ∧ twin w1 w2).
Proof.
  intros w1 w2 _ Htw. unfold stop_latch_running.
  assert (w_stop w1 = w_stop w2) as Hs by (by destruct Htw as [->|[_ ?]]).
  rewrite Hs. destruct (w_stop w2) as [|s]; [done|]. split; [done|].
  destruct Htw as [->|[(P1 & P2 & P3) _]]; [by left|]. by right.
Qed.

Lemma await_poisoned fuel k w :
  poisoned w →
  ∃ st w', await cfg fuel k w = Ret st w' ∧ ok st = false.
Proof.
  intros (P1 & P2 & P3). eexists _, _.
  split; [|exact P3]. destruct fuel; simpl; by rewrite decide_True.
Qed.

Lemma rel_Wait :
  rel (phase writable) twin (Wait cfg) (Wait cfg')
    (λ st1 w1 st2 w2, (st1 = st2 ∧ w1 = w2) ∨ ok st1 = false).
Proof.
  intros w1 w2 (ph & Hph & HT) Htw. unfold Wait.
  destruct (TInv_tick cfg' ph w2 HT) as (ph' & Ha & HT').
  apply (after_writable _ _ Ha) in Hph.
  destruct (twin_tick ph w1 w2 HT Htw) as [->|[Hp _]].
  2:{ destruct (await_poisoned (length (w_inflight (tick cfg w1))) 0 _ Hp)
        as (st & w' & -> & Hst).
      destruct (await _ _ _ _); [by right|done..]. }
  set (w := tick cfg' w2) in *. clearbody w.
  pose proof HT' as [_ _ _ _ _ _ (u & _ & Hpo)].
  destruct Hph as [-> | ->].
  - destruct Hpo as (Hf & Hl & _). rewrite Hf. simpl. rewrite decide_True by done.
    by left.
  - destruct Hpo as (j & b & Hf & Hl & _). rewrite Hf.
    change (length [(j, b)]) with 1%nat.
    rewrite !await_step by (rewrite ?Hf, ?Hl; done).
    destruct (deliver_n_twin 1 Out w HT') as [E|[Hp _]].
    + simpl in E. rewrite E. simpl. destruct (decide _); [by left|done].
    + simpl in Hp. destruct (await_poisoned 0 1 _ Hp) as (st & w' & -> & Hst).
      destruct (await _ _ _ _); [by right|done..].
Qed.

End Twin.

Section TwinRuns.
Context (cfg : Config) (G : Prop) (HG : G → transport_ok (reliable cfg)).
Local Abbreviation cfg' := (reliable cfg).

Lemma rel_ASSERT_OK P Rin (c c' : M Status) (R : World → World → Prop) :
  rel P Rin c c' (λ st1 w1 st2 w2, (st1 = st2 ∧ R w1 w2) ∨ ok st1 = false) →
  rel P Rin (ASSERT_OK c) (ASSERT_OK c') (λ _ w1 _ w2, R w1 w2).
Proof.
  intros H w1 w2 HP HR. specialize (H w1 w2 HP HR).
  unfold ASSERT_OK, mbind, M_bind.
  destruct (c' w2) as [st2 w2'|st2 w2'|w2']; [|done..].
  destruct (c w1) as [st1 w1'|st1 w1'|w1'];
    [|by destruct (ok st2)..].
  destruct (ok st2) eqn:E2; simpl; [|done].
  destruct (ok st1) eqn:E1; simpl; [|done].
  destruct H as [[_ ?]|?]; [done|congruence].
Qed.

Lemma rel_WaitForLastBatchAndFlush B V key :
  rel (state G writable B V) twin
    (WaitForLastBatchAndFlush cfg key) (WaitForLastBatchAndFlush cfg' key)
    same_or_error.
Proof.
  unfold WaitForLastBatchAndFlush.
  change (kSessionBatchSize cfg') with (kSessionBatchSize cfg).
  destruct (decide _); [|apply rel_ret; intros; by left].
  eapply (rel_bind G); [apply (Wait_triple cfg' G HG)| |].
  { eapply rel_conseq; [| | |apply rel_Wait];
      [apply state_phase|done|intros ???? H; exact H]. }
  intros st1 st2. destruct (ok st1) eqn:E1.
  - destruct (ok st2) eqn:E2.
    2:{ intros w1 w2 _ [[-> _]|?]; congruence. }
    apply (rel_conseq (state G (eq Waited) B V) _ eq _ _ _ same_or_error);
      [by intros w [_ ?]|by intros w1 w2 [[_ ?]|?]; [|congruence]|done|].
    eapply (rel_bind G); [apply (Reset_triple cfg' G HG)| |].
    { eapply rel_conseq; [| | |apply rel_Reset];
        [apply state_phase|done|intros ???? H; exact H]. }
    intros [] [].
    eapply (rel_bind G); [apply (FlushAsync_triple cfg' G HG)| |].
    { eapply rel_conseq; [| | |apply rel_FlushAsync];
        [apply state_phase|done|intros ???? H; exact H]. }
    intros [] []. apply rel_ret. intros w1 w2 _ Htw. by left.
  - intros w1 w2 _ _. destruct (ok st2); simpl; by right.
Qed.

Lemma rel_for_keys (I : nat → World → Prop) body body' k0 n :
  (∀ i, (i < n)%nat →
     triple G (I i) (body' (k0 + Z.of_nat i)) (λ _, I (S i))) →
  (∀ i, (i < n)%nat →
     rel (I i) twin (body (k0 + Z.of_nat i)) (body' (k0 + Z.of_nat i))
       (λ _ w1 _ w2, twin w1 w2)) →
  rel (I 0%nat) twin (for_keys body k0 n) (for_keys body' k0 n)
    (λ _ w1 _ w2, twin w1 w2).
Proof.
  revert I k0. induction n as [|n IH]; intros I k0 Ht Hr; simpl.
  { by apply rel_ret. }
  eapply (rel_bind G _ _ _ _ (λ _, I 1%nat)).
  - specialize (Ht 0%nat ltac:(lia)). by rewrite Z.add_0_r in Ht.
  - specialize (Hr 0%nat ltac:(lia)). by rewrite Z.add_0_r in Hr.
  - intros [] []. apply (IH (λ i, I (S i))).
    + intros i Hi. specialize (Ht (S i) ltac:(lia)).
      by replace (k0 + 1 + Z.of_nat i) with (k0 + Z.of_nat (S i)) by lia.
    + intros i Hi. specialize (Hr (S i) ltac:(lia)).
      by replace (k0 + 1 + Z.of_nat i) with (k0 + Z.of_nat (S i)) by lia.
Qed.

Lemma rel_ASSERT_Apply B V m :
  rel (state G writable B V) twin (ASSERT_OK (Apply cfg m)) (ASSERT_OK (Apply cfg' m))
    (λ _ w1 _ w2, twin w1 w2).
Proof.
  apply rel_ASSERT_OK.
  eapply rel_conseq; [| | |apply (rel_Apply cfg writable)];
    [apply state_phase|done|].
  intros st1 w1 st2 w2 H. by left.
Qed.

Lemma rel_ASSERT_trigger B V key :
  rel (state G writable B V) twin
    (ASSERT_OK (WaitForLastBatchAndFlush cfg key))
    (ASSERT_OK (WaitForLastBatchAndFlush cfg' key))
    (λ _ w1 _ w2, twin w1 w2).
Proof. apply rel_ASSERT_OK, rel_WaitForLastBatchAndFlush. Qed.

Lemma rel_ASSERT_Wait B V :
  rel (state G writable B V) twin (ASSERT_OK (Wait cfg)) (ASSERT_OK (Wait cfg'))
    (λ _ w1 _ w2, w1 = w2).
Proof.
  apply rel_ASSERT_OK.
  eapply rel_conseq; [| | |apply rel_Wait];
    [apply state_phase|done|intros ???? H; exact H].
Qed.

Context (stop : nat).
Local Abbreviation IB := (λ i, state G writable (insert_books cfg' stop i)
                                 (insert_rows i)).

Lemma insert_body_triple i :
  triple G (IB i) (insert_body cfg' (Z.of_nat i)) (λ _, IB (S i)).
Proof.
  unfold insert_body. eapply triple_bind.
  - apply ASSERT_Apply; [done|apply apply_check_made|].
    intros _. rewrite view_write_insert; [done|].
    rewrite insert_rows_lookup. destruct (decide _); [lia|done].
  - intros []. rewrite view_write_insert.
    2:{ rewrite insert_rows_lookup. destruct (decide _); [lia|done]. }
    by apply ASSERT_trigger.
Qed.

Lemma rel_insert_body i :
  rel (IB i) twin (insert_body cfg (Z.of_nat i)) (insert_body cfg' (Z.of_nat i))
    (λ _ w1 _ w2, twin w1 w2).
Proof.
  unfold insert_body. eapply (rel_bind G).
  - apply ASSERT_Apply; [done|apply apply_check_made|].
    intros _. rewrite view_write_insert; [done|].
    rewrite insert_rows_lookup. destruct (decide _); [lia|done].
  - apply rel_ASSERT_Apply.
  - intros [] []. apply rel_ASSERT_trigger.
Qed.

(** The run of [InsertBaseData] and its run without losses. *)
Lemma rel_InsertBaseData :
  rel (state G (eq Idle) (insert_books cfg' stop 0) (insert_rows 0)) eq
    (Run cfg OK;;
     for_keys (insert_body cfg) 0 (Z.to_nat (FLAGS_row_count cfg));;
     ASSERT_OK (WaitForLastBatchAndFlush cfg (kSessionBatchSize cfg));;
     ASSERT_OK (Wait cfg))
    (Run cfg' OK;;
     for_keys (insert_body cfg') 0 (Z.to_nat (FLAGS_row_count cfg));;
     ASSERT_OK (WaitForLastBatchAndFlush cfg' (kSessionBatchSize cfg));;
     ASSERT_OK (Wait cfg'))
    (λ _ w1 _ w2, w1 = w2).
Proof.
  set (n := Z.to_nat (FLAGS_row_count cfg)).
  eapply (rel_bind G); [by apply Run_triple| |].
  { eapply rel_conseq; [| | |apply rel_Run];
      [apply state_phase|done|intros ???? H; exact H]. }
  intros [] [].
  apply (rel_bind G _ _ _ _ (λ _, IB n) (λ _ w1 _ w2, twin w1 w2)).
  { eapply triple_conseq; [| |apply (for_keys_triple G IB)].
    - intros w (ph & <- & H). eexists. split; [|exact H]. by left.
    - intros [] w H. exact H.
    - intros i Hi. rewrite Z.add_0_l. apply insert_body_triple. }
  { eapply rel_conseq; [| | |apply (rel_for_keys IB)].
    - intros w (ph & <- & H). eexists. split; [|exact H]. by left.
    - intros w1 w2 ->. by left.
    - intros ???? H. exact H.
    - intros i Hi. rewrite Z.add_0_l. apply insert_body_triple.
    - intros i Hi. rewrite Z.add_0_l. apply rel_insert_body. }
  intros [] [].
  eapply (rel_bind G); [by apply ASSERT_trigger|apply rel_ASSERT_trigger|].
  intros [] []. apply rel_ASSERT_Wait.
Qed.

End TwinRuns.

(** A run of [InsertBaseData] that returns is its run without losses. *)
Lemma InsertBaseData_reliable cfg w0 w' :
  tablet_inv (w_tablet w0) → view (w_tablet w0) = ∅ →
  InsertBaseData cfg w0 = Ret () w' →
  InsertBaseData (reliable cfg) w0 = Ret () w'.
Proof.
  intros Hi Hv E.
  assert (clean_insert (reliable cfg) w0) as g by (by split_and!).
  destruct (InsertBaseData_clean (reliable cfg) w0 g) as (w2 & E2 & _).
  pose proof (rel_InsertBaseData cfg (clean_insert (reliable cfg) w0)
                ltac:(by intros [? _]) (w_stop w0)
                (fresh_writer w0) (fresh_writer w0)) as H.
  rewrite E2. rewrite InsertBaseData_eq in E, E2.
  change (FLAGS_row_count (reliable cfg)) with (FLAGS_row_count cfg) in E2.
  change (kSessionBatchSize (reliable cfg)) with (kSessionBatchSize cfg) in E2.
  rewrite E, E2 in H. rewrite H; [done| |done].
  apply fresh_state. by intros (_ & ? & ?).
Qed.

(** X13.  [InsertBaseData] reports every loss.  On a table just created, whatever
    the environment does to the flushes, if the function returns, every one
    of its checks having passed, then no flush was lost and the table holds
    exactly the rows of the keys [0 .. FLAGS_row_count - 1]: a scan reads
    them in order, each with the string of [MakeRow] and the value 0. *)
Theorem InsertBaseData_returns_stored cfg w0 w' :
  tablet_inv (w_tablet w0) → view (w_tablet w0) = ∅ →
  InsertBaseData cfg w0 = Ret () w' →
  (∀ k, view (w_tablet w') !! k =
     if decide (0 ≤ k < FLAGS_row_count cfg) then Some (row_of k 0) else None) ∧
  scan_rows (w_tablet w') = (λ k, row_of k 0) <$> seqZ 0 (FLAGS_row_count cfg) ∧
  w_pending w' = [] ∧ w_inflight w' = [].
Proof.
  intros Hi Hv E.
  pose proof (InsertBaseData_reliable cfg w0 w' Hi Hv E) as E'.
  assert (clean_insert (reliable cfg) w0) as g by (by split_and!).
  destruct (InsertBaseData_clean (reliable cfg) w0 g) as (w2 & E2 & HT & _ & Hb & Hview).
  rewrite E' in E2. simplify_eq.
  change (FLAGS_row_count (reliable cfg)) with (FLAGS_row_count cfg) in *.
  split_and!.
  - intros k. rewrite Hview, insert_rows_lookup.
    destruct (decide (0 ≤ k < Z.of_nat (Z.to_nat (FLAGS_row_count cfg)))),
      (decide (0 ≤ k < FLAGS_row_count cfg)); try done; lia.
  - rewrite (scan_rows_insert_rows _ _ Hview). by rewrite seqZ_to_nat.
  - change (w_pending w2) with (bk_pending (books w2)). by rewrite Hb.
  - by destruct (TInv_all_seen Waited w2 (or_intror eq_refl) HT).
Qed.

(** A run in a busy environment that returns: the seven rows are stored. *)
Lemma InsertBaseData_returns_stored_witness :
  ∃ w', InsertBaseData (busy 3 7) (created 0) = Ret () w' ∧
    scan_rows (w_tablet w') = (λ k, row_of k 0) <$> seqZ 0 7.
Proof.
  destruct (InsertBaseData_clean (busy 3 7) (created 0)) as (w' & E & _).
  { apply created_clean, busy_transport_ok. }
  exists w'. split; [exact E|].
  destruct (InsertBaseData_returns_stored (busy 3 7) (created 0) w') as (_ & H & _).
  - apply empty_tablet_inv.
  - apply (created_clean (quiet 3 7) 0), quiet_transport_ok.
  - exact E.
  - exact H.
Defined.

Section TwinUpdates.
Context (cfg : Config) (G : Prop) (v0 : gmap Z Row).
Context (HG : G → transport_ok (reliable cfg)).
Context (Hrows : G → ∀ k, 0 ≤ k < FLAGS_row_count cfg →
                       ∃ r, v0 !! k = Some r ∧ length r = 3%nat).
Local Abbreviation cfg' := (reliable cfg).

Lemma rel_exists {A X} (P : X → World → Prop) Rin (c c' : M A) Rout :
  (∀ x, rel (P x) Rin c c' Rout) → rel (λ w, ∃ x, P x w) Rin c c' Rout.
Proof. intros H w1 w2 [x Hw]. by apply (H x). Qed.

Lemma rel_pure {A} (φ : Prop) (P : World → Prop) Rin (c c' : M A) Rout :
  (φ → rel P Rin c c' Rout) → rel (λ w, φ ∧ P w) Rin c c' Rout.
Proof. intros H w1 w2 [Hφ Hw]. by apply H. Qed.

Lemma rel_update_pass f it c j :
  1 ≤ it → 0 ≤ j → j + Z.of_nat c ≤ Z.max (FLAGS_row_count cfg) j →
  rel (λ w, ∃ B V, (upd_inv G v0 it j B V ∧ (bk_stop B ≤ f)%nat) ∧
                   state G writable B V w)
    twin (update_pass cfg it j c) (update_pass cfg' it j c)
    (λ _ w1 _ w2, twin w1 w2).
Proof.
  intros Hit. revert j. induction c as [|c IH]; intros j Hj Hn.
  { by apply rel_ret. }
  apply rel_exists. intros B. apply rel_exists. intros V.
  apply rel_pure. intros [HI Hf].
  change (update_pass cfg it j (S c)) with
    (running ← stop_latch_running;
     if running : bool then
       CHECK_OK (Apply cfg (made OpUpdate j it));;
       CHECK_OK (WaitForLastBatchAndFlush cfg j);;
       update_pass cfg it (j + 1) c
     else mret ()).
  change (update_pass cfg' it j (S c)) with
    (running ← stop_latch_running;
     if running : bool then
       CHECK_OK (Apply cfg' (made OpUpdate j it));;
       CHECK_OK (WaitForLastBatchAndFlush cfg' j);;
       update_pass cfg' it (j + 1) c
     else mret ()).
  eapply (rel_bind G); [apply (stop_triple G)|apply rel_stop|].
  intros b1 b2 w1 w2 HQ [-> Htw].
  destruct (bk_stop B) as [|s] eqn:Es; destruct HQ as [-> Hst]; [done|].
  revert w1 w2 Hst Htw.
  change (rel (state G writable (stop_books s B) V) twin
    (CHECK_OK (Apply cfg (made OpUpdate j it));;
     CHECK_OK (WaitForLastBatchAndFlush cfg j);;
     update_pass cfg it (j + 1) c)
    (CHECK_OK (Apply cfg' (made OpUpdate j it));;
     CHECK_OK (WaitForLastBatchAndFlush cfg' j);;
     update_pass cfg' it (j + 1) c)
    (λ _ w1 _ w2, twin w1 w2)).
  rewrite !CHECK_OK_eq.
  assert (upd_inv G v0 it j (stop_books s B) V) as HI' by (by apply upd_inv_stop).
  eapply (rel_bind G).
  { apply ASSERT_Apply; [done|apply apply_check_made|].
    intros g.
    destruct (upd_inv_row cfg' G v0 Hrows it j _ V j g HI') as (r & Hr & Hlen);
      [simpl; lia|].
    by rewrite (view_write_update j it V r Hr Hlen). }
  { apply rel_ASSERT_Apply. }
  intros [] []. eapply (rel_bind G); [by apply ASSERT_trigger| |].
  { apply rel_ASSERT_trigger. done. }
  intros [] []. eapply rel_conseq; [| | |apply (IH (j + 1))]; try lia.
  - intros w Hw. eexists _, _. split; [|exact Hw]. split.
    + apply upd_inv_trigger, (upd_inv_apply cfg'); try done; simpl; lia.
    + rewrite bk_stop_trigger. simpl. lia.
  - done.
  - intros ???? H. exact H.
Qed.

Lemma rel_update_loop fuel it :
  1 ≤ it →
  rel (λ w, ∃ B V, (upd_inv G v0 it 0 B V ∧ bk_pending B = [] ∧
                    (bk_stop B ≤ fuel)%nat) ∧
                   state G (eq Idle) B V w)
    eq (update_loop cfg fuel it) (update_loop cfg' fuel it)
    (λ _ w1 _ w2, w1 = w2).
Proof.
  revert it. induction fuel as [|fuel IH]; intros it Hit;
    apply rel_exists; intros B; apply rel_exists; intros V;
    apply rel_pure; intros (HI & Hpe & Hf).
  - intros w1 w2 _ ->.
    change (update_loop cfg 0 it) with
      (running ← stop_latch_running; if running : bool then hang else mret ()).
    change (update_loop cfg' 0 it) with
      (running ← stop_latch_running; if running : bool then hang else mret ()).
    by destruct ((running ← stop_latch_running;
                  if running : bool then hang else mret ()) w2).
  - change (update_loop cfg (S fuel) it) with
      (running ← stop_latch_running;
       if running : bool then
         Run cfg OK;;
         update_pass cfg it 0 (Z.to_nat (FLAGS_row_count cfg));;
         CHECK_OK (WaitForLastBatchAndFlush cfg (kSessionBatchSize cfg));;
         CHECK_OK (Wait cfg);;
         Reset cfg;;
         update_loop cfg fuel (it + 1)
       else mret ()).
    change (update_loop cfg' (S fuel) it) with
      (running ← stop_latch_running;
       if running : bool then
         Run cfg' OK;;
         update_pass cfg' it 0 (Z.to_nat (FLAGS_row_count cfg));;
         CHECK_OK (WaitForLastBatchAndFlush cfg' (kSessionBatchSize cfg));;
         CHECK_OK (Wait cfg');;
         Reset cfg';;
         update_loop cfg' fuel (it + 1)
       else mret ()).
    eapply (rel_bind G _ _ _ _ _ (λ b1 w1 b2 w2, b1 = b2 ∧ w1 = w2));
      [apply (stop_triple G)| |].
    { intros w1 w2 _ ->. by destruct (stop_latch_running w2). }
    intros b1 b2 w1 w2 HQ [-> ->].
    destruct (bk_stop B) as [|s] eqn:Es; destruct HQ as [-> Hst]; [done|].
    revert w2 Hst.
    assert (rel (state G (eq Idle) (stop_books s B) V) eq
      (Run cfg OK;;
       update_pass cfg it 0 (Z.to_nat (FLAGS_row_count cfg));;
       CHECK_OK (WaitForLastBatchAndFlush cfg (kSessionBatchSize cfg));;
       CHECK_OK (Wait cfg);;
       Reset cfg;;
       update_loop cfg fuel (it + 1))
      (Run cfg' OK;;
       update_pass cfg' it 0 (Z.to_nat (FLAGS_row_count cfg));;
       CHECK_OK (WaitForLastBatchAndFlush cfg' (kSessionBatchSize cfg));;
       CHECK_OK (Wait cfg');;
       Reset cfg';;
       update_loop cfg' fuel (it + 1))
      (λ _ w1 _ w2, w1 = w2)) as H; [|intros w2 Hst; by apply (H w2 w2)].
    rewrite !CHECK_OK_eq.
    eapply (rel_bind G); [by apply Run_triple| |].
    { eapply rel_conseq; [| | |apply rel_Run];
        [apply state_phase|done|intros ???? H; exact H]. }
    intros [] [].
    eapply (rel_bind G).
    { eapply triple_conseq;
        [| |apply (update_pass_triple cfg' G v0 HG Hrows fuel it
                     (Z.to_nat (FLAGS_row_count cfg)) 0)];
        try (simpl; lia).
      - intros w Hw. exists (stop_books s B), V. split.
        + split; [by apply upd_inv_stop|simpl; lia].
        + eapply state_weaken; [|exact Hw]. intros ph <-. by left.
      - intros a w Hw. exact Hw. }
    { eapply rel_conseq;
        [| | |apply (rel_update_pass fuel it (Z.to_nat (FLAGS_row_count cfg)) 0)];
        try lia.
      - intros w Hw. exists (stop_books s B), V. split.
        + split; [by apply upd_inv_stop|simpl; lia].
        + eapply state_weaken; [|exact Hw]. intros ph <-. by left.
      - intros w1 w2 ->. by left.
      - intros ???? H. exact H. }
    intros [] []. apply rel_exists. intros j'.
    apply rel_exists. intros B'. apply rel_exists. intros V'.
    apply rel_pure. intros [HI' Hf'].
    eapply (rel_bind G); [by apply ASSERT_trigger|by apply rel_ASSERT_trigger|].
    intros [] [].
    replace (trigger_books cfg' (kSessionBatchSize cfg) B') with (flush_books B')
      by (symmetry; apply (trigger_books_self cfg')).
    eapply (rel_bind G); [by apply ASSERT_Wait|by apply rel_ASSERT_Wait|].
    intros [] [].
    eapply (rel_bind G); [by apply Reset_triple| |].
    { eapply rel_conseq; [| | |apply rel_Reset];
        [apply state_phase|done|intros ???? H; exact H]. }
    intros [] [].
    eapply rel_conseq; [| | |apply (IH (it + 1))]; [|done|done|lia].
    intros w Hw. exists (flush_books B'), V'. split; [|done].
    split_and!; [|done|done].
    eapply upd_inv_next; [|by apply upd_inv_flush]. done.
Qed.

End TwinUpdates.

(** A run of [UpdateRows] that returns is its run without losses. *)
Lemma UpdateRows_reliable cfg w0 w' :
  clean_update (reliable cfg) w0 →
  UpdateRows cfg w0 = Ret () w' →
  UpdateRows (reliable cfg) w0 = Ret () w'.
Proof.
  intros g E.
  destruct (UpdateRows_clean (reliable cfg) w0 g) as (w2 & _ & _ & E2 & _).
  pose proof (rel_update_loop cfg (clean_update (reliable cfg) w0)
                (view (w_tablet w0)) ltac:(by intros [? _])
                ltac:(by intros (_ & _ & ?)) (w_stop w0) 1 ltac:(lia)
                (fresh_writer w0) (fresh_writer w0)) as H.
  rewrite E2. unfold UpdateRows in E, E2. rewrite preamble_bind in E, E2.
  rewrite E, E2 in H. rewrite H; [done| |done].
  exists (fresh_books (w_stop w0)), (view (w_tablet w0)). split.
  - split_and!; [apply upd_inv_init|done|simpl; lia].
  - apply fresh_state. by intros (_ & ? & _).
Qed.

(** X14.  [UpdateRows] reports every loss.  On a table that holds a row for every
    key below [FLAGS_row_count], whatever the environment does to the
    flushes, if the thread returns, every one of its checks having passed,
    then every update it applied is in the table: a scan reads for each key
    the row of the last value applied to it, and the row the table had if no
    update was applied to the key. *)
Theorem UpdateRows_returns_stored cfg w0 w' :
  tablet_inv (w_tablet w0) →
  (∀ k, 0 ≤ k < FLAGS_row_count cfg →
     ∃ r, view (w_tablet w0) !! k = Some r ∧ length r = 3%nat) →
  UpdateRows cfg w0 = Ret () w' →
  (∀ k, view (w_tablet w') !! k =
     match last (vals k (applied (w_log w'))) with
     | Some v => Some (row_of k v)
     | None => view (w_tablet w0) !! k
     end) ∧
  w_pending w' = [] ∧ w_inflight w' = [].
Proof.
  intros Hi Hrows E.
  assert (clean_update (reliable cfg) w0) as g by (by split_and!).
  pose proof (UpdateRows_reliable cfg w0 w' g E) as E'.
  destruct (UpdateRows_clean (reliable cfg) w0 g)
    as (w2 & it & j & E2 & HT & Hpe & _ & _ & [Hview _ _ _ _]).
  rewrite E' in E2. simplify_eq. split_and!; [|done|].
  - intros k. apply (Hview I k).
  - by destruct (TInv_all_seen Idle w2 (or_introl eq_refl) HT).
Qed.

(** The update thread on five rows with nine reads of the latch, in a busy
    environment: it returns, and key 1 reads the value 2 of the second pass,
    key 2 the value 1 of the first. *)
Lemma UpdateRows_returns_stored_witness :
  ∃ w', UpdateRows (busy 3 5) (populated 5 9) = Ret () w' ∧
    view (w_tablet w') !! 1 = Some (row_of 1 2) ∧
    view (w_tablet w') !! 2 = Some (row_of 2 1).
Proof.
  destruct (populated_clean (busy 3 5) 5 9 (busy_transport_ok 3 5) ltac:(simpl; lia))
    as (_ & Hi & Hrows).
  destruct (UpdateRows_clean (busy 3 5) (populated 5 9)) as (w' & _ & _ & E & _).
  { apply populated_clean; [apply busy_transport_ok|simpl; lia]. }
  exists w'. split; [exact E|].
  destruct (UpdateRows_returns_stored (busy 3 5) (populated 5 9) w' Hi Hrows E)
    as (H & _).
  assert (w' = final (UpdateRows (busy 3 5) (populated 5 9))) as Hw
    by (by rewrite E).
  rewrite !H. rewrite Hw. split; vm_compute; reflexivity.
Defined.
